(** * Kurdish City front-end script: a shallow embedding of [src/script.js]

    The script is event-driven glue around browser facilities.  Each
    part that a stated property depends on is embedded here as an
    executable Rocq function over an explicit state:

    - timers ([setTimeout]/[clearTimeout]) as a virtual-time event loop,
    - [localStorage] as a finite map from strings to strings,
    - [JSON.stringify]/[JSON.parse] as a printer and a parser over a
      value type,
    - [Math.random] as a stream of draws in the unit interval,
    - DOM elements as records of the properties the script writes.

    Numbers are exact: integers are [Z], the fractional quantities of the
    status simulation are rationals [Q] (the rounding error of IEEE
    doubles is not modelled). *)

From Stdlib Require Import ZArith QArith Qround String Ascii List Lia.
From Stdlib Require Import DecimalString DecimalFacts DecimalPos DecimalN DecimalZ.
From stdpp Require Import base tactics option list gmap strings.

Import ListNotations.
Local Open Scope Z_scope.
Local Open Scope list_scope.

(* ===================================================================== *)
(** * Timers: a virtual-time event loop *)
(* ===================================================================== *)

(** [setTimeout(cb, delay)] registers a callback to run once the clock
    has advanced by [delay]; [clearTimeout(id)] unregisters it.  A world
    is the clock, the pending timers and the script state [St] the
    callbacks act on; callbacks are first-order descriptions [Cb] that a
    client-supplied [exec] interprets. *)
Module EventLoop.
Section Loop.
Context {St Cb : Type}.

Record timer := Timer { tid : nat; due : Z; cb : Cb }.

Record world := World {
  now : Z;              (* Date.now() *)
  next_id : nat;        (* next handle returned by setTimeout *)
  timers : list timer;  (* pending, in registration order *)
  st : St
}.

Definition with_st (s : St) (w : world) : world :=
  {| now := now w; next_id := next_id w; timers := timers w; st := s |}.

Definition with_timers (ts : list timer) (w : world) : world :=
  {| now := now w; next_id := next_id w; timers := ts; st := st w |}.

Definition with_now (t : Z) (w : world) : world :=
  {| now := t; next_id := next_id w; timers := timers w; st := st w |}.

(** [setTimeout(c, delay)]: negative delays count as zero. *)
Definition setTimeout (c : Cb) (delay : Z) (w : world) : nat * world :=
  (next_id w,
   {| now := now w;
      next_id := S (next_id w);
      timers := timers w ++ [Timer (next_id w) (now w + Z.max 0 delay) c];
      st := st w |}).

Definition remove_timer (i : nat) (ts : list timer) : list timer :=
  List.filter (fun tm => negb (Nat.eqb (tid tm) i)) ts.

(** [clearTimeout(h)]: [None] is the [undefined] handle; clearing a
    handle that is not pending does nothing. *)
Definition clearTimeout (h : option nat) (w : world) : world :=
  match h with
  | None => w
  | Some i => with_timers (remove_timer i (timers w)) w
  end.

(** The pending timer that fires next: the earliest deadline, the first
    registered among equal deadlines. *)
Fixpoint next_timer (ts : list timer) : option timer :=
  match ts with
  | [] => None
  | tm :: ts' =>
      match next_timer ts' with
      | Some tm' => if due tm' <? due tm then Some tm' else Some tm
      | None => Some tm
      end
  end.

Variable exec : Cb -> world -> world.

(** Fire one timer: the clock reaches its deadline, the timer leaves the
    pending list and its callback runs. *)
Definition fire (tm : timer) (w : world) : world :=
  exec (cb tm)
    (with_now (Z.max (now w) (due tm))
       (with_timers (remove_timer (tid tm) (timers w)) w)).

(** Let the clock run up to [t], firing every timer that falls due on the
    way, in deadline order.  [fuel] bounds the number of callbacks run;
    [None] means the bound was hit. *)
Fixpoint advance (fuel : nat) (t : Z) (w : world) : option world :=
  match next_timer (timers w) with
  | Some tm =>
      if due tm <=? t then
        match fuel with
        | O => None
        | S fuel' => advance fuel' t (fire tm w)
        end
      else Some (with_now (Z.max (now w) t) w)
  | None => Some (with_now (Z.max (now w) t) w)
  end.

Lemma advance_idle fuel t w :
  (forall tm, next_timer (timers w) = Some tm -> t < due tm) ->
  advance fuel t w = Some (with_now (Z.max (now w) t) w).
Proof.
  intros Hidle. destruct fuel; simpl;
    (destruct (next_timer (timers w)) as [tm|] eqn:E; [|reflexivity];
     specialize (Hidle tm eq_refl);
     destruct (Z.leb_spec (due tm) t); [lia|reflexivity]).
Qed.

Lemma advance_fire fuel t w tm :
  next_timer (timers w) = Some tm -> due tm <= t ->
  advance (S fuel) t w = advance fuel t (fire tm w).
Proof.
  intros E Hdue. simpl. rewrite E.
  destruct (Z.leb_spec (due tm) t); [reflexivity|lia].
Qed.

End Loop.
Arguments timer : clear implicits.
Arguments world : clear implicits.
End EventLoop.

(* ===================================================================== *)
(** * [debounce(func, wait)] *)
(* ===================================================================== *)

(** The closure returned by [debounce] owns one variable, [timeout]: the
    handle of the pending timer.  The wrapped [func] is an arbitrary
    action; what matters here is when it is invoked and with which
    arguments, so an invocation is recorded as a (time, arguments) pair
    in [invoked]. *)
Module Debounce.
Import EventLoop.
Section Debounce.
Context {Args : Type}.
Variable wait : Z.

Record closure := Closure {
  timeout : option nat;          (* let timeout;  -- undefined at first *)
  invoked : list (Z * Args)      (* the calls func(...args) made so far *)
}.

(** The callback [later] of one invocation, closed over its [args]. *)
Inductive callback := Later (args : Args).

Abbreviation dworld := (world closure callback).

(** [const later = () => { clearTimeout(timeout); func(...args); }] *)
Definition later (args : Args) (w : dworld) : dworld :=
  let w1 := clearTimeout (timeout (st w)) w in
  with_st {| timeout := timeout (st w1);
             invoked := invoked (st w1) ++ [(now w1, args)] |} w1.

Definition exec (c : callback) (w : dworld) : dworld :=
  match c with Later args => later args w end.

(** [executedFunction(...args)]:
    [clearTimeout(timeout); timeout = setTimeout(later, wait);] *)
Definition executedFunction (args : Args) (w : dworld) : dworld :=
  let w1 := clearTimeout (timeout (st w)) w in
  let '(h, w2) := setTimeout (Later args) wait w1 in
  with_st {| timeout := Some h; invoked := invoked (st w2) |} w2.

(** The page right after [debounce(func, wait)] returned the wrapper
    [executedFunction]: the clock reads [t0], [timeout] is unset and
    [func] has not run. *)
Definition init (t0 : Z) : dworld :=
  {| now := t0; next_id := 1%nat; timers := [];
     st := {| timeout := None; invoked := [] |} |}.

(** Invoke the wrapper at each of the given times, letting the clock run
    in between, then let the clock run on to [horizon]. *)
Fixpoint run (fuel : nat) (calls : list (Z * Args)) (horizon : Z)
    (w : dworld) : option dworld :=
  match calls with
  | [] => advance exec fuel horizon w
  | (t, args) :: calls' =>
      match advance exec fuel t w with
      | Some w1 => run fuel calls' horizon (executedFunction args w1)
      | None => None
      end
  end.

(** A burst: invocation times do not decrease and every invocation comes
    before the wait started by the previous one has elapsed. *)
Fixpoint burst (t : Z) (calls : list (Z * Args)) : Prop :=
  match calls with
  | [] => True
  | (t', _) :: calls' => t <= t' < t + wait /\ burst t' calls'
  end.

(** One timer is pending, for the invocation made at [t] with [args], and
    [func] has not run. *)
Definition pending (t : Z) (args : Args) (w : dworld) : Prop :=
  exists h, now w = t /\ timers w = [Timer h (t + wait) (Later args)] /\
            timeout (st w) = Some h /\ invoked (st w) = [].


Lemma pending_after_call t args w :
  0 <= wait -> now w = t -> timers w = [] -> invoked (st w) = [] ->
  pending t args (executedFunction args w).
Proof.
  destruct w as [n i ts [to inv]]. simpl. intros Hw -> -> ->.
  exists i. unfold executedFunction. destruct to; simpl;
    rewrite Z.max_r by lia; repeat split; reflexivity.
Qed.

(** An invocation during the wait replaces the pending timer. *)
Lemma pending_recall fuel t args t' args' w :
  pending t args w -> t <= t' < t + wait ->
  exists w1, advance exec fuel t' w = Some w1 /\
             pending t' args' (executedFunction args' w1).
Proof.
  destruct w as [n i ts [to inv]].
  intros (h & Hnow & Hts & Hto & Hinv) Ht.
  simpl in Hnow, Hts, Hto, Hinv. subst.
  eexists. split.
  - apply advance_idle. simpl. intros tm [= <-]. simpl. lia.
  - exists i. unfold executedFunction. simpl. rewrite Nat.eqb_refl. simpl.
    rewrite (Z.max_r t t') by lia. rewrite Z.max_r by lia.
    repeat split; reflexivity.
Qed.

(** Left alone for the whole wait, the pending timer fires once. *)
Lemma pending_settles fuel t args horizon w :
  0 <= wait -> pending t args w -> t + wait <= horizon ->
  exists w', advance exec (S fuel) horizon w = Some w' /\
             invoked (st w') = [(t + wait, args)] /\ timers w' = [].
Proof.
  destruct w as [n i ts [to inv]].
  intros Hw (h & Hnow & Hts & Hto & Hinv) Ht.
  simpl in Hnow, Hts, Hto, Hinv. subst.
  erewrite advance_fire; [|reflexivity|simpl; lia].
  eexists. split.
  - apply advance_idle. unfold fire. simpl. rewrite Nat.eqb_refl. simpl.
    discriminate.
  - unfold fire. simpl. rewrite Nat.eqb_refl. simpl. split; [|reflexivity].
    rewrite Z.max_r by lia. reflexivity.
Qed.

Lemma run_burst fuel t args calls horizon w :
  0 <= wait -> pending t args w -> burst t calls ->
  fst (List.last calls (t, args)) + wait <= horizon ->
  exists w', run (S fuel) calls horizon w = Some w' /\
    invoked (st w') =
      [(fst (List.last calls (t, args)) + wait,
        snd (List.last calls (t, args)))] /\
    timers w' = [].
Proof.
  revert t args w. induction calls as [|[t' args'] calls IH];
    intros t args w Hw Hp Hb Hh.
  - simpl in *. apply pending_settles; assumption.
  - destruct Hb as [Ht Hb].
    destruct (pending_recall (S fuel) t args t' args' w Hp Ht)
      as (w1 & Hadv & Hp').
    cbn [run]. rewrite Hadv.
    assert (Hl : forall (x d : Z * Args) l,
               List.last (x :: l) d = List.last l x).
    { clear. intros x d l. revert x d.
      induction l as [|y l IHl]; intros x d; [reflexivity|].
      change (List.last (y :: l) d = List.last (y :: l) x).
      rewrite (IHl y d), (IHl y x). reflexivity. }
    rewrite Hl in *. apply IH; assumption.
Qed.

(** A burst on a fresh wrapper ends in one run of [func]. *)
Lemma burst_runs_once t0 t a calls fuel horizon :
  0 <= wait -> t0 <= t -> burst t calls ->
  fst (List.last calls (t, a)) + wait <= horizon ->
  exists w, run (S fuel) ((t, a) :: calls) horizon (init t0) = Some w /\
            invoked (st w) =
              [(fst (List.last calls (t, a)) + wait,
                snd (List.last calls (t, a)))] /\
            timers w = [].
Proof.
  intros Hw Ht0 Hb Hh.
  cbn [run]. rewrite advance_idle by (simpl; discriminate).
  apply run_burst; [assumption| |assumption|assumption].
  apply pending_after_call; [assumption| |reflexivity|reflexivity].
  simpl. lia.
Qed.

End Debounce.

(** ** C4 *)

(** C4.  A wrapper created with wait 10 and invoked at times 0, 5 and 8
    runs the wrapped action exactly once, at time 18, with the arguments
    of the invocation at time 8.  In general, when every invocation
    after the first arrives before the wait started by the previous one
    has elapsed, the action runs exactly once, one wait after the last
    invocation and with its arguments: each invocation cancelled and
    replaced the run scheduled by the one before. *)
Theorem debounce_runs_last_call_once {Args : Type} :
  (forall (a0 a5 a8 : Args) (fuel : nat) (horizon : Z),
      18 <= horizon ->
      exists w, run 10 (S fuel) [(0, a0); (5, a5); (8, a8)] horizon (init 0)
                = Some w /\
                invoked (st w) = [(18, a8)] /\ timers w = []) /\
  (forall (wait t0 t : Z) (a : Args) (calls : list (Z * Args))
          (fuel : nat) (horizon : Z),
      0 <= wait -> t0 <= t -> burst wait t calls ->
      fst (List.last calls (t, a)) + wait <= horizon ->
      exists w, run wait (S fuel) ((t, a) :: calls) horizon (init t0)
                = Some w /\
                invoked (st w) =
                  [(fst (List.last calls (t, a)) + wait,
                    snd (List.last calls (t, a)))] /\
                timers w = []).
Proof.
  split.
  - intros a0 a5 a8 fuel horizon Hh.
    apply (burst_runs_once 10 0 0 a0 [(5, a5); (8, a8)] fuel horizon);
      simpl; lia.
  - intros wait t0 t a calls fuel horizon. apply burst_runs_once.
Qed.

(** The three-call scenario, run to time 100. *)
Lemma debounce_runs_last_call_once_witness :
  exists w, run 10 1 [(0, "a"%string); (5, "b"%string); (8, "c"%string)]
              100 (init 0) = Some w /\
            invoked (st w) = [(18, "c"%string)] /\ timers w = [].
Proof.
  apply (proj1 debounce_runs_last_call_once "a"%string "b"%string "c"%string
           0%nat 100).
  lia.
Defined.

(** ** Any sequence of invocations *)

Section AnySequence.
Context {Args : Type}.
Variable wait : Z.

(** Invocation times that do not decrease. *)
Fixpoint ordered (t : Z) (calls : list (Z * Args)) : Prop :=
  match calls with
  | [] => True
  | (t', _) :: calls' => t <= t' /\ ordered t' calls'
  end.

(** The invocations that are not followed by another one before their
    wait has elapsed, each with the time at which its wait ends. *)
Fixpoint surviving (calls : list (Z * Args)) : list (Z * Args) :=
  match calls with
  | [] => []
  | (t, a) :: calls' =>
      match calls' with
      | [] => [(t + wait, a)]
      | (t', _) :: _ =>
          if t + wait <=? t' then (t + wait, a) :: surviving calls'
          else surviving calls'
      end
  end.

(** One timer is pending, for the invocation made at [t] with [args];
    [func] has run as recorded in [log]. *)
Definition pending_after (log : list (Z * Args)) (t : Z) (args : Args)
    (w : world (@closure Args) (@callback Args)) : Prop :=
  exists h, now w = t /\ timers w = [Timer h (t + wait) (Later args)] /\
            timeout (st w) = Some h /\ invoked (st w) = log.

Lemma call_when_idle t args w :
  0 <= wait -> now w = t -> timers w = [] ->
  pending_after (invoked (st w)) t args (executedFunction wait args w).
Proof.
  destruct w as [n i ts [to inv]]. simpl. intros Hw -> ->.
  exists i. unfold executedFunction. destruct to; simpl;
    rewrite Z.max_r by lia; repeat split; reflexivity.
Qed.

Lemma call_when_pending fuel log t args t' args' w :
  pending_after log t args w -> t <= t' < t + wait ->
  exists w1, advance (exec (Args := Args)) fuel t' w = Some w1 /\
             pending_after log t' args' (executedFunction wait args' w1).
Proof.
  destruct w as [n i ts [to inv]].
  intros (h & Hnow & Hts & Hto & Hinv) Ht.
  simpl in Hnow, Hts, Hto, Hinv. subst.
  eexists. split.
  - apply advance_idle. simpl. intros tm [= <-]. simpl. lia.
  - exists i. unfold executedFunction. simpl. rewrite Nat.eqb_refl. simpl.
    rewrite (Z.max_r t t') by lia. rewrite Z.max_r by lia.
    repeat split; reflexivity.
Qed.

(** Once the wait is over the pending timer has fired, and nothing is
    pending. *)
Lemma wait_over fuel log t args t' w :
  0 <= wait -> pending_after log t args w -> t + wait <= t' ->
  exists w1, advance (exec (Args := Args)) (S fuel) t' w = Some w1 /\
             now w1 = t' /\ timers w1 = [] /\
             invoked (st w1) = log ++ [(t + wait, args)].
Proof.
  destruct w as [n i ts [to inv]].
  intros Hw (h & Hnow & Hts & Hto & Hinv) Ht.
  simpl in Hnow, Hts, Hto, Hinv. subst.
  erewrite advance_fire; [|reflexivity|simpl; lia].
  eexists. split.
  - apply advance_idle. unfold fire. simpl. rewrite Nat.eqb_refl. simpl.
    discriminate.
  - unfold fire. simpl. rewrite Nat.eqb_refl. simpl.
    rewrite (Z.max_r t (t + wait)) by lia.
    split; [lia|]. split; reflexivity.
Qed.

Lemma run_any fuel calls : forall log t args horizon w,
  0 <= wait -> pending_after log t args w -> ordered t calls ->
  fst (List.last calls (t, args)) + wait <= horizon ->
  exists w', run wait (S fuel) calls horizon w = Some w' /\
    invoked (st w') = log ++ surviving ((t, args) :: calls) /\
    timers w' = [].
Proof.
  induction calls as [|[t' args'] calls IH];
    intros log t args horizon w Hw Hp Ho Hh.
  - simpl in Hh. cbn [run surviving].
    destruct (wait_over fuel log t args horizon w Hw Hp Hh)
      as (w1 & -> & _ & Hts & Hinv).
    exists w1. repeat split; assumption.
  - destruct Ho as [Ht Ho].
    assert (Hl : forall (x d : Z * Args) l,
               List.last (x :: l) d = List.last l x).
    { clear. intros x d l. revert x d.
      induction l as [|y l IHl]; intros x d; [reflexivity|].
      change (List.last (y :: l) d = List.last (y :: l) x).
      rewrite (IHl y d), (IHl y x). reflexivity. }
    rewrite Hl in Hh. cbn [run].
    change (surviving ((t, args) :: (t', args') :: calls))
      with (if t + wait <=? t'
            then (t + wait, args) :: surviving ((t', args') :: calls)
            else surviving ((t', args') :: calls)).
    destruct (Z.leb_spec (t + wait) t') as [Hover|Hin].
    + destruct (wait_over fuel log t args t' w Hw Hp Hover)
        as (w1 & -> & Hnow & Hts & Hinv).
      pose proof (call_when_idle t' args' w1 Hw Hnow Hts) as Hp'.
      rewrite Hinv in Hp'.
      destruct (IH _ _ _ horizon _ Hw Hp' Ho Hh) as (w' & Hrun & Hi & Ht').
      exists w'. split; [exact Hrun|]. split; [|exact Ht'].
      rewrite Hi, <- app_assoc. reflexivity.
    + destruct (call_when_pending (S fuel) log t args t' args' w Hp
                  (conj Ht Hin)) as (w1 & -> & Hp').
      apply (IH _ _ _ horizon _ Hw Hp' Ho Hh).
Qed.

End AnySequence.

(** For invocations at non-decreasing times, [func] runs exactly for
    those invocations that are not followed by another one within
    [wait], one wait after each of them and in their order, with their
    own arguments; all other invocations are dropped and nothing stays
    scheduled. *)
Theorem debounce_runs_the_surviving_calls {Args : Type}
    (wait t0 t : Z) (a : Args) (calls : list (Z * Args))
    (fuel : nat) (horizon : Z) :
  0 <= wait -> t0 <= t -> ordered t calls ->
  fst (List.last calls (t, a)) + wait <= horizon ->
  exists w, run wait (S fuel) ((t, a) :: calls) horizon (init t0) = Some w /\
            invoked (st w) = surviving wait ((t, a) :: calls) /\
            timers w = [].
Proof.
  intros Hw Ht0 Ho Hh.
  cbn [run]. rewrite advance_idle by (simpl; discriminate).
  apply (run_any wait fuel calls [] t a horizon); try assumption.
  apply (call_when_idle wait t a
           (with_now (Z.max (now (init t0)) t) (init t0)));
    [assumption|simpl; lia|reflexivity].
Qed.

(** Two bursts and a single call: the last call of each burst runs. *)
Lemma debounce_runs_the_surviving_calls_witness :
  exists w,
    run 10 1 [(0, "a"%string); (5, "b"%string); (20, "c"%string);
              (25, "d"%string); (29, "e"%string); (100, "f"%string)]
        1000 (init 0) = Some w /\
    invoked (st w) = [(15, "b"%string); (39, "e"%string); (110, "f"%string)]
    /\ timers w = [].
Proof.
  apply (debounce_runs_the_surviving_calls 10 0 0 "a"%string
           [(5, "b"%string); (20, "c"%string); (25, "d"%string);
            (29, "e"%string); (100, "f"%string)] 0 1000);
    simpl; lia.
Defined.

End Debounce.

(* ===================================================================== *)
(** * [LoadingManager] *)
(* ===================================================================== *)

Module Loading.
Import EventLoop.

(** What the script touches of the page: the inline style of the element
    with id [loading] ([None] when the page has no such element) and the
    class [loaded] of [document.body]. *)
Record style := Style { opacity : string; display : string }.

Record page := Page {
  loadingScreen : option style;   (* document.getElementById('loading') *)
  body_loaded : bool              (* document.body.classList has 'loaded' *)
}.

Record LoadingManager := {
  minLoadTime : Z;
  startTime : Z
}.

(** The two nested timer callbacks of [hide]. *)
Inductive callback :=
| Fade      (* outer arrow function: start the opacity transition *)
| Remove.   (* inner arrow function: take the overlay out of the layout *)

Abbreviation lworld := (world page callback).

(** [constructor()]: [minLoadTime = 1000], [startTime = Date.now()]. *)
Definition construct (w : lworld) : LoadingManager :=
  {| minLoadTime := 1000; startTime := now w |}.

(** Outer callback:
    [this.loadingScreen.style.opacity = '0'; setTimeout(inner, 500);]
    With no loading element the property access throws and the callback
    ends there. *)
Definition fade (w : lworld) : lworld :=
  match loadingScreen (st w) with
  | None => w
  | Some s =>
      let w1 := with_st {| loadingScreen := Some {| opacity := "0";
                                                    display := display s |};
                           body_loaded := body_loaded (st w) |} w in
      snd (setTimeout Remove 500 w1)
  end.

(** Inner callback:
    [this.loadingScreen.style.display = 'none';
     document.body.classList.add('loaded');] *)
Definition remove (w : lworld) : lworld :=
  match loadingScreen (st w) with
  | None => w
  | Some s =>
      with_st {| loadingScreen := Some {| opacity := opacity s;
                                          display := "none" |};
                 body_loaded := true |} w
  end.

Definition exec (c : callback) (w : lworld) : lworld :=
  match c with Fade => fade w | Remove => remove w end.

(** [hide()] *)
Definition remainingTime (lm : LoadingManager) (w : lworld) : Z :=
  let elapsedTime := now w - startTime lm in
  Z.max 0 (minLoadTime lm - elapsedTime).

Definition hide (lm : LoadingManager) (w : lworld) : lworld :=
  snd (setTimeout Fade (remainingTime lm w) w).

(** The page at construction time [t0], overlay showing with style [s]. *)
Definition init (t0 : Z) (s : style) : lworld :=
  {| now := t0; next_id := 1%nat; timers := [];
     st := {| loadingScreen := Some s; body_loaded := false |} |}.

(** Construct at [t0], call [hide()] [e] milliseconds later, and look at
    the page when the clock reads [t]. *)
Definition scenario (fuel : nat) (t0 e t : Z) (s : style) : option lworld :=
  let w0 := init t0 s in
  let lm := construct w0 in
  match advance exec fuel (t0 + e) w0 with
  | Some w1 => advance exec fuel t (hide lm w1)
  | None => None
  end.

(** When the fade begins, for [hide()] called [e] ms after construction
    at [t0]. *)
Definition fade_time (t0 e : Z) : Z := t0 + e + Z.max 0 (1000 - e).

Lemma advance_to_hide fuel t0 e s :
  advance exec fuel (t0 + e) (init t0 s)
  = Some (with_now (Z.max t0 (t0 + e)) (init t0 s)).
Proof. apply advance_idle. simpl. discriminate. Qed.

Lemma remainingTime_at_hide t0 e s :
  0 <= e ->
  remainingTime (construct (init t0 s))
    (with_now (Z.max t0 (t0 + e)) (init t0 s))
  = Z.max 0 (1000 - e).
Proof.
  intros He. unfold remainingTime. simpl.
  rewrite (Z.max_r t0 (t0 + e)) by lia. f_equal. lia.
Qed.

Lemma hide_schedules_fade t0 e s :
  0 <= e ->
  hide (construct (init t0 s)) (with_now (Z.max t0 (t0 + e)) (init t0 s))
  = {| now := t0 + e; next_id := 2%nat;
       timers := [Timer 1%nat (fade_time t0 e) Fade];
       st := {| loadingScreen := Some s; body_loaded := false |} |}.
Proof.
  intros He. unfold hide. rewrite remainingTime_at_hide by assumption.
  unfold fade_time. simpl. rewrite (Z.max_r t0 (t0 + e)) by lia.
  rewrite (Z.max_r 0 (Z.max 0 (1000 - e))) by lia. reflexivity.
Qed.

(** ** C5 *)

(** C5.  When [hide()] is called [e] ms after construction, the fade is
    scheduled [max(0, 1000 - e)] ms later.  So the fade never begins
    before 1000 ms have passed since construction; for [e = 200] it
    begins 800 ms after the call; for [e >= 1000] it begins at the call.
    Observed at any later time [t]: the opacity is untouched before the
    fade time and ['0'] from then on; the overlay is taken out of the
    layout and the page flagged [loaded] exactly 500 ms after the fade
    began, not before. *)
Theorem hide_keeps_minimum_then_fades
    (t0 e t : Z) (s : style) (fuel : nat) :
  0 <= e -> t0 + e <= t -> (2 <= fuel)%nat ->
  remainingTime (construct (init t0 s)) (with_now (t0 + e) (init t0 s))
    = Z.max 0 (1000 - e) /\
  fade_time t0 e = t0 + e + Z.max 0 (1000 - e) /\
  t0 + 1000 <= fade_time t0 e /\
  (e = 200 -> fade_time t0 e = (t0 + e) + 800) /\
  (1000 <= e -> fade_time t0 e = t0 + e) /\
  exists w,
    scenario fuel t0 e t s = Some w /\
    loadingScreen (st w) =
      Some {| opacity := if t <? fade_time t0 e then opacity s else "0";
              display := if t <? fade_time t0 e + 500 then display s
                         else "none" |} /\
    body_loaded (st w) = (fade_time t0 e + 500 <=? t).
Proof.
  intros He Ht Hfuel.
  split; [unfold remainingTime; simpl; f_equal; lia|].
  split; [reflexivity|]. split; [unfold fade_time; lia|].
  split; [unfold fade_time; lia|]. split; [unfold fade_time; lia|].
  unfold scenario. rewrite advance_to_hide.
  rewrite hide_schedules_fade by assumption.
  set (F := fade_time t0 e).
  assert (HF : t0 + e <= F) by (unfold F, fade_time; lia). clearbody F.
  destruct fuel as [|[|fuel]]; [lia|lia|].
  destruct (Z.ltb_spec t F) as [HtF|HtF].
  - (* before the fade *)
    rewrite advance_idle by (simpl; intros tm [= <-]; simpl; lia).
    eexists. split; [reflexivity|]. simpl.
    destruct (Z.ltb_spec t (F + 500)); [|lia].
    destruct (Z.leb_spec (F + 500) t); [lia|].
    destruct s; split; reflexivity.
  - (* the fade has begun *)
    erewrite advance_fire; [|reflexivity|simpl; lia].
    assert (Hfade :
      fire exec (Timer 1%nat F Fade)
        {| now := t0 + e; next_id := 2%nat; timers := [Timer 1%nat F Fade];
           st := {| loadingScreen := Some s; body_loaded := false |} |}
      = {| now := F; next_id := 3%nat;
           timers := [Timer 2%nat (F + 500) Remove];
           st := {| loadingScreen := Some (Style "0" (display s));
                    body_loaded := false |} |}).
    { unfold fire. simpl. rewrite (Z.max_r (t0 + e) F) by lia. reflexivity. }
    rewrite Hfade. clear Hfade.
    destruct (Z.ltb_spec t (F + 500)) as [HtR|HtR].
    + rewrite advance_idle by (simpl; intros tm [= <-]; simpl; lia).
      eexists. split; [reflexivity|]. simpl.
      destruct (Z.leb_spec (F + 500) t); [lia|]. split; reflexivity.
    + erewrite advance_fire; [|reflexivity|simpl; lia].
      rewrite advance_idle by (simpl; discriminate).
      eexists. split; [reflexivity|]. simpl.
      destruct (Z.leb_spec (F + 500) t); [|lia]. split; reflexivity.
Qed.

(** [hide()] called 200 ms after construction, page observed 100 ms
    before and 1600 ms after the minimum display time. *)
Lemma hide_keeps_minimum_then_fades_witness :
  (exists w, scenario 2 0 200 900 (Style "1" "flex") = Some w /\
             loadingScreen (st w) = Some (Style "1" "flex") /\
             body_loaded (st w) = false) /\
  (exists w, scenario 2 0 200 1600 (Style "1" "flex") = Some w /\
             loadingScreen (st w) = Some (Style "0" "none") /\
             body_loaded (st w) = true).
Proof.
  split.
  - apply (hide_keeps_minimum_then_fades 0 200 900 (Style "1" "flex") 2);
      lia.
  - apply (hide_keeps_minimum_then_fades 0 200 1600 (Style "1" "flex") 2);
      lia.
Defined.

(** ** A page without the overlay *)

(** The page at time [t0] when [getElementById('loading')] finds
    nothing. *)
Definition init_without_overlay (t0 : Z) : lworld :=
  {| now := t0; next_id := 1%nat; timers := [];
     st := {| loadingScreen := None; body_loaded := false |} |}.

(** When the page has no loading element, [hide()] still schedules its
    callback, but the callback stops at its first statement: at no later
    time is the page flagged [loaded], and no further timer is ever
    scheduled. *)
Theorem hide_without_overlay_never_marks_loaded
    (t0 e t : Z) (fuel : nat) :
  0 <= e -> t0 + e <= t -> (1 <= fuel)%nat ->
  exists w,
    advance exec fuel t
      (hide (construct (init_without_overlay t0))
         (with_now (t0 + e) (init_without_overlay t0)))
    = Some w /\
    st w = {| loadingScreen := None; body_loaded := false |} /\
    (t0 + e + Z.max 0 (1000 - e) <= t -> timers w = []).
Proof.
  intros He Ht Hfuel.
  assert (Hh : hide (construct (init_without_overlay t0))
                 (with_now (t0 + e) (init_without_overlay t0))
               = {| now := t0 + e; next_id := 2%nat;
                    timers := [Timer 1%nat (fade_time t0 e) Fade];
                    st := {| loadingScreen := None;
                             body_loaded := false |} |}).
  { unfold hide, remainingTime, fade_time. simpl.
    replace (1000 - (t0 + e - t0)) with (1000 - e) by lia.
    rewrite (Z.max_r 0 (Z.max 0 (1000 - e))) by lia. reflexivity. }
  rewrite Hh. fold (fade_time t0 e). set (F := fade_time t0 e).
  assert (HF : t0 + e <= F) by (unfold F, fade_time; lia). clearbody F.
  destruct fuel as [|fuel]; [lia|].
  destruct (Z.le_gt_cases F t) as [Hdue|Hearly].
  - erewrite advance_fire; [|reflexivity|simpl; lia].
    rewrite advance_idle by (simpl; discriminate).
    eexists. split; [reflexivity|]. split; reflexivity.
  - rewrite advance_idle by (simpl; intros tm [= <-]; simpl; lia).
    eexists. split; [reflexivity|]. split; [reflexivity|]. lia.
Qed.

(** [hide()] 200 ms after construction, page observed a minute later. *)
Lemma hide_without_overlay_never_marks_loaded_witness :
  exists w,
    advance exec 1 60000
      (hide (construct (init_without_overlay 0))
         (with_now 200 (init_without_overlay 0)))
    = Some w /\
    st w = {| loadingScreen := None; body_loaded := false |}.
Proof.
  destruct (hide_without_overlay_never_marks_loaded 0 200 60000 1)
    as (w & E & Hst & _); [lia..|].
  exists w. split; [exact E|exact Hst].
Defined.

End Loading.

(* ===================================================================== *)
(** * Numbers as text *)
(* ===================================================================== *)

(** [String(n)] for an integer [n]: decimal digits, ["-"] in front of a
    negative one. *)
Definition Z_to_string (z : Z) : string :=
  NilZero.string_of_int (Z.to_int z).

Definition digit_char (d : Z) : ascii :=
  ascii_of_nat (48 + Z.to_nat d).

(** The digits after the decimal point of [r/d], for [0 <= r < d]; at most
    [fuel] of them. *)
Fixpoint frac_digits (fuel : nat) (r d : Z) : string :=
  match fuel with
  | O => EmptyString
  | S fuel' =>
      if r =? 0 then EmptyString
      else String (digit_char (r * 10 / d))
                  (frac_digits fuel' ((r * 10) mod d) d)
  end.

(** [String(x)] for a number with a short decimal expansion, as the
    script's percentages are (one digit after the point). *)
Definition Q_to_string (x : Q) : string :=
  let n := Z.abs (Qnum x) in
  let d := Zpos (Qden x) in
  ((if (Qnum x <? 0)%Z then "-" else "") ++
   Z_to_string (n / d)%Z ++
   (if (n mod d =? 0)%Z then ""
    else String "." (frac_digits 20 (n mod d)%Z d)))%string.

(* ===================================================================== *)
(** * [Math.random] *)
(* ===================================================================== *)

(** The generator is a sequence of draws and a cursor; every call of
    [Math.random()] returns the draw under the cursor and moves on.  The
    platform promises [0 <= draw < 1]. *)
Module Random.

Record rng := Rng { draws : nat -> Q; cursor : nat }.

Definition unit_interval (g : rng) : Prop :=
  forall n, (0 <= draws g n)%Q /\ (draws g n < 1)%Q.

(** Computations that draw random numbers. *)
Definition M (A : Type) : Type := rng -> A * rng.

Definition ret {A} (a : A) : M A := fun g => (a, g).

Definition bind {A B} (m : M A) (k : A -> M B) : M B :=
  fun g => let '(a, g') := m g in k a g'.

Definition Math_random : M Q :=
  fun g => (draws g (cursor g), Rng (draws g) (S (cursor g))).

(** The [i]-th draw made from [g] on. *)
Definition draw (g : rng) (i : nat) : Q := draws g (cursor g + i)%nat.

End Random.

Notation "'let*' x ':=' m 'in' k" := (Random.bind m (fun x => k))
  (at level 10, x name, m at level 100, k at level 200).

(** [randomBetween(min, max)]:
    [Math.floor(Math.random() * (max - min + 1)) + min] *)
Definition randomBetween (min max : Z) : Random.M Z :=
  let* r := Random.Math_random in
  Random.ret (Qfloor (r * inject_Z (max - min + 1)) + min).

(* ===================================================================== *)
(** * [ServerStatusManager] and the shared status record *)
(* ===================================================================== *)

Module ServerStatus.

(** The global [serverData]. *)
Record ServerStatus := {
  status : string;
  playersOnline : Z;
  maxPlayers : Z;
  ping : Z;
  uptime : Q
}.

(** Its value when the script loads. *)
Definition initial_serverData : ServerStatus :=
  {| status := "online"; playersOnline := 127; maxPlayers := 200;
     ping := 45; uptime := 999 # 10 |}.

(** [parseFloat(x.toFixed(1))] for [x >= 0]: the multiple of one tenth
    nearest to [x], the larger one when two are equally near. *)
Definition toFixed1 (x : Q) : Q := Qfloor (x * 10 + (1 # 2)) # 10.

(** [fetchServerData()].  The object literal evaluates its properties in
    order, so the draws are made in the order: online?, players, ping,
    uptime; the two middle ones only when online.  Nothing in the [try]
    block throws, so the [catch] branch is never taken. *)
Definition fetchServerData : Random.M ServerStatus :=
  let* r := Random.Math_random in
  let isOnline := negb (Qle_bool r (1 # 10)) in     (* r > 0.1 *)
  let* players := (if isOnline then randomBetween 80 200 else Random.ret 0) in
  let* png := (if isOnline then randomBetween 25 80 else Random.ret 0) in
  let* u := Random.Math_random in
  Random.ret
    {| status := if isOnline then "online" else "offline";
       playersOnline := players;
       maxPlayers := 200;
       ping := png;
       uptime := toFixed1 ((995 # 10) + u * (4 # 10)) |}.

(** A DOM element, as far as the script writes to it. *)
Record element := Element { textContent : string; className : string }.

Definition set_textContent (s : string) (e : element) : element :=
  {| textContent := s; className := className e |}.

(** [this.statusElements]: each entry is the element found by
    [getElementById], [None] for [null]. *)
Record statusElements := {
  statusEl : option element;        (* #serverStatus *)
  playerCountEl : option element;   (* #playerCount *)
  pingEl : option element;          (* #ping *)
  uptimeEl : option element         (* #uptime *)
}.

(** [updateDisplay()] *)
Definition updateDisplay (els : statusElements) (serverData : ServerStatus)
    : statusElements :=
  match statusEl els with
  | None => els                     (* if (!this.statusElements.status) return; *)
  | Some _ =>
      let online := String.eqb (status serverData) "online" in
      let statusText := if online then "🟢 ئۆنلاین" else "🔴 ناکارا" in
      let statusClass := if online then "status-online" else "status-offline" in
      {| statusEl := Some {| textContent := statusText;
                             className := statusClass |};
         playerCountEl :=
           set_textContent
             (Z_to_string (playersOnline serverData) ++ "/" ++
              Z_to_string (maxPlayers serverData))
           <$> playerCountEl els;
         pingEl :=
           set_textContent
             (if online then Z_to_string (ping serverData) ++ "ms" else "N/A")
           <$> pingEl els;
         uptimeEl :=
           set_textContent (Q_to_string (uptime serverData) ++ "%")
           <$> uptimeEl els |}
  end%string.

(** The argument of [updateServerData]: an object holding any subset of
    the five fields. *)
Record partialStatus := {
  newStatus : option string;
  newPlayersOnline : option Z;
  newMaxPlayers : option Z;
  newPing : option Z;
  newUptime : option Q
}.

(** [Object.assign(serverData, newData)] *)
Definition assign (serverData : ServerStatus) (newData : partialStatus)
    : ServerStatus :=
  {| status := default (status serverData) (newStatus newData);
     playersOnline := default (playersOnline serverData) (newPlayersOnline newData);
     maxPlayers := default (maxPlayers serverData) (newMaxPlayers newData);
     ping := default (ping serverData) (newPing newData);
     uptime := default (uptime serverData) (newUptime newData) |}.

(** The part of the application that [updateServerData] acts on: the
    shared record and [this.managers.serverStatus] ([None] while that
    manager has not been constructed). *)
Record app := {
  serverData : ServerStatus;
  serverStatusManager : option statusElements
}.

(** [updateServerData(newData)]:
    [Object.assign(serverData, newData);
     this.managers.serverStatus?.updateDisplay();] *)
Definition updateServerData (newData : partialStatus) (a : app) : app :=
  let sd := assign (serverData a) newData in
  {| serverData := sd;
     serverStatusManager :=
       (fun els => updateDisplay els sd) <$> serverStatusManager a |}.


(** ** Facts about [Math.floor] on scaled draws *)

Lemma Qfloor_iff (x : Q) (k : Z) :
  Qfloor x = k <-> (inject_Z k <= x)%Q /\ (x < inject_Z (k + 1))%Q.
Proof.
  split.
  - intros <-. split; [apply Qfloor_le|apply Qlt_floor].
  - intros [Hlo Hhi].
    pose proof (Qfloor_le x) as Hfl. pose proof (Qlt_floor x) as Hfu.
    assert (H1 : (inject_Z k < inject_Z (Qfloor x + 1))%Q)
      by (eapply Qle_lt_trans; eassumption).
    assert (H2 : (inject_Z (Qfloor x) < inject_Z (k + 1))%Q)
      by (eapply Qle_lt_trans; eassumption).
    rewrite <- Zlt_Qlt in H1, H2. lia.
Qed.

(** [Math.floor(r * n) + lo = k] exactly for the draws [r] in the
    interval [[(k - lo)/n, (k - lo + 1)/n)]: all values get an interval
    of the same width [1/n]. *)
Lemma scaled_floor_interval (r : Q) (n : positive) (lo k : Z) :
  Qfloor (r * inject_Z (Zpos n)) + lo = k <->
  ((k - lo) # n <= r)%Q /\ (r < (k - lo + 1) # n)%Q.
Proof.
  assert (E : Qfloor (r * inject_Z (Zpos n)) + lo = k <->
              Qfloor (r * inject_Z (Zpos n)) = k - lo) by lia.
  rewrite E, Qfloor_iff. destruct r as [a b].
  unfold Qle, Qlt, Qmult, inject_Z. simpl.
  rewrite !Pos.mul_1_r, !Z.mul_1_r. split; intros [H1 H2]; split; lia.
Qed.

Lemma scaled_floor_range (r : Q) (n : positive) (lo : Z) :
  (0 <= r)%Q -> (r < 1)%Q ->
  lo <= Qfloor (r * inject_Z (Zpos n)) + lo <= lo + Zpos n - 1.
Proof.
  intros H0 H1.
  destruct (scaled_floor_interval r n lo
              (Qfloor (r * inject_Z (Zpos n)) + lo)) as [Hi _].
  destruct (Hi eq_refl) as [Hlo Hhi]. clear Hi.
  set (k := Qfloor (r * inject_Z (Zpos n)) + lo) in *. clearbody k.
  destruct r as [a b]. unfold Qle, Qlt in *. simpl in *. nia.
Qed.

(** The simulated uptime is one of 99.5, 99.6, 99.7, 99.8, 99.9. *)
Lemma simulated_uptime_range (u : Q) :
  (0 <= u)%Q -> (u < 1)%Q ->
  exists n, (toFixed1 ((995 # 10) + u * (4 # 10)) = n # 10)%Q /\
            995 <= n <= 999.
Proof.
  intros H0 H1. unfold toFixed1. eexists. split; [reflexivity|].
  set (x := (((995 # 10) + u * (4 # 10)) * 10 + (1 # 2))%Q).
  assert (Hlo : (inject_Z 995 <= x)%Q).
  { subst x. destruct u as [a b]. unfold Qle, Qplus, Qmult, inject_Z in *.
    simpl in *. nia. }
  assert (Hhi : (x < inject_Z 1000)%Q).
  { subst x. destruct u as [a b]. unfold Qlt, Qplus, Qmult, inject_Z in *.
    simpl in *. nia. }
  pose proof (Qfloor_le x) as Hfl. pose proof (Qlt_floor x) as Hfu.
  assert (H2 : (inject_Z 995 < inject_Z (Qfloor x + 1))%Q)
    by (eapply Qle_lt_trans; eassumption).
  assert (H3 : (inject_Z (Qfloor x) < inject_Z 1000)%Q)
    by (eapply Qle_lt_trans; eassumption).
  rewrite <- Zlt_Qlt in H2, H3. lia.
Qed.

(** ** C1 *)



(** The four slots for an offline record. *)
Example render_offline_record :
  updateDisplay
    {| statusEl := Some (Element "..." "status");
       playerCountEl := Some (Element "..." "stat");
       pingEl := Some (Element "..." "stat");
       uptimeEl := Some (Element "..." "stat") |}
    {| status := "offline"; playersOnline := 0; maxPlayers := 200;
       ping := 0; uptime := 997 # 10 |}
  = {| statusEl := Some (Element "🔴 ناکارا" "status-offline");
       playerCountEl := Some (Element "0/200" "stat");
       pingEl := Some (Element "N/A" "stat");
       uptimeEl := Some (Element "99.7%" "stat") |}.
Proof. reflexivity. Qed.

(** ** C6 *)

(** C6.  With the badge, player-count and ping elements on the page:
    for the record [{status:"offline", playersOnline:0, ping:0,
    uptime:99.7}] (whatever [maxPlayers] is) [updateDisplay] writes
    ["N/A"] into the ping slot and gives the badge the offline text and
    class; for [{status:"online", playersOnline:150, maxPlayers:200, ...}]
    it writes ["150/200"] into the player-count slot and the ping
    followed by ["ms"] into the ping slot. *)
Theorem updateDisplay_renders_status
    (els : statusElements) (badge count png : element)
    (mp p : Z) (u : Q) :
  statusEl els = Some badge ->
  playerCountEl els = Some count ->
  pingEl els = Some png ->
  (let offline := {| status := "offline"; playersOnline := 0;
                     maxPlayers := mp; ping := 0; uptime := 997 # 10 |} in
   pingEl (updateDisplay els offline)
     = Some {| textContent := "N/A"; className := className png |} /\
   statusEl (updateDisplay els offline)
     = Some {| textContent := "🔴 ناکارا";
               className := "status-offline" |}) /\
  (let online := {| status := "online"; playersOnline := 150;
                    maxPlayers := 200; ping := p; uptime := u |} in
   playerCountEl (updateDisplay els online)
     = Some {| textContent := "150/200"; className := className count |} /\
   pingEl (updateDisplay els online)
     = Some {| textContent := (Z_to_string p ++ "ms")%string;
               className := className png |} /\
   statusEl (updateDisplay els online)
     = Some {| textContent := "🟢 ئۆنلاین";
               className := "status-online" |}).
Proof.
  intros Hb Hc Hp. unfold updateDisplay. rewrite Hb, Hc, Hp. simpl.
  repeat split; reflexivity.
Qed.

(** A page with all four slots, showing an online server with ping 45. *)
Lemma updateDisplay_renders_status_witness :
  pingEl (updateDisplay
            {| statusEl := Some (Element "" "");
               playerCountEl := Some (Element "" "stat");
               pingEl := Some (Element "" "stat");
               uptimeEl := Some (Element "" "stat") |}
            {| status := "online"; playersOnline := 150; maxPlayers := 200;
               ping := 45; uptime := 997 # 10 |})
  = Some (Element "45ms" "stat").
Proof.
  apply (updateDisplay_renders_status
           {| statusEl := Some (Element "" "");
              playerCountEl := Some (Element "" "stat");
              pingEl := Some (Element "" "stat");
              uptimeEl := Some (Element "" "stat") |}
           (Element "" "") (Element "" "stat") (Element "" "stat")
           200 45 (997 # 10) eq_refl eq_refl eq_refl).
Defined.

(** ** C10 *)

(** C10.  When the badge element is missing, [updateDisplay] returns the
    four slots as they were, even if the other three exist; and
    [updateServerData] still merges the supplied fields into the shared
    record: every supplied field takes its new value, every other field
    keeps its previous one, and nothing on the page changes. *)
Theorem updateServerData_without_badge
    (a : app) (els : statusElements) (newData : partialStatus) :
  serverStatusManager a = Some els ->
  statusEl els = None ->
  (forall sd, updateDisplay els sd = els) /\
  serverStatusManager (updateServerData newData a) = Some els /\
  status (serverData (updateServerData newData a))
    = match newStatus newData with
      | Some v => v | None => status (serverData a) end /\
  playersOnline (serverData (updateServerData newData a))
    = match newPlayersOnline newData with
      | Some v => v | None => playersOnline (serverData a) end /\
  maxPlayers (serverData (updateServerData newData a))
    = match newMaxPlayers newData with
      | Some v => v | None => maxPlayers (serverData a) end /\
  ping (serverData (updateServerData newData a))
    = match newPing newData with
      | Some v => v | None => ping (serverData a) end /\
  uptime (serverData (updateServerData newData a))
    = match newUptime newData with
      | Some v => v | None => uptime (serverData a) end.
Proof.
  intros Hm Hb.
  assert (Hu : forall sd, updateDisplay els sd = els)
    by (intros sd; unfold updateDisplay; rewrite Hb; reflexivity).
  split; [exact Hu|].
  unfold updateServerData. rewrite Hm. simpl. rewrite Hu.
  repeat split; reflexivity.
Qed.

(** A page without the badge but with the other three slots; the server
    is reported offline with no players. *)
Lemma updateServerData_without_badge_witness :
  let els := {| statusEl := None;
                playerCountEl := Some (Element "127/200" "stat");
                pingEl := Some (Element "45ms" "stat");
                uptimeEl := Some (Element "99.9%" "stat") |} in
  let a := {| serverData := initial_serverData;
              serverStatusManager := Some els |} in
  let newData := {| newStatus := Some "offline"%string;
                    newPlayersOnline := Some 0;
                    newMaxPlayers := None; newPing := None;
                    newUptime := None |} in
  serverStatusManager (updateServerData newData a) = Some els /\
  serverData (updateServerData newData a)
    = {| status := "offline"; playersOnline := 0; maxPlayers := 200;
         ping := 45; uptime := 999 # 10 |}.
Proof.
  intros els a newData.
  destruct (updateServerData_without_badge a els newData eq_refl eq_refl)
    as (_ & Hm & _).
  split; [exact Hm|reflexivity].
Defined.

(** ** Rendering again, and one polling tick *)

(** Rendering leaves no trace of an earlier rendering: the slots after
    rendering two records in turn are those after rendering the second
    alone.  Slots missing from the page stay missing, and the classes of
    the player-count, ping and uptime elements are never touched. *)
Theorem updateDisplay_overwrites_previous_render
    (els : statusElements) (first second : ServerStatus) :
  updateDisplay (updateDisplay els first) second = updateDisplay els second /\
  className <$> playerCountEl (updateDisplay els second)
    = className <$> playerCountEl els /\
  className <$> pingEl (updateDisplay els second)
    = className <$> pingEl els /\
  className <$> uptimeEl (updateDisplay els second)
    = className <$> uptimeEl els.
Proof.
  unfold updateDisplay.
  destruct els as [[b|] [c|] [p|] [u|]]; simpl; repeat split; reflexivity.
Qed.

(** The record [fetchServerData] produces, by the first draw. *)
Lemma fetchServerData_record (g : Random.rng) :
  fst (fetchServerData g)
  = if Qle_bool (Random.draw g 0) (1 # 10)
    then {| status := "offline"; playersOnline := 0; maxPlayers := 200;
            ping := 0;
            uptime := toFixed1 ((995 # 10) + Random.draw g 1 * (4 # 10)) |}
    else {| status := "online";
            playersOnline := Qfloor (Random.draw g 1 * 121) + 80;
            maxPlayers := 200;
            ping := Qfloor (Random.draw g 2 * 56) + 25;
            uptime := toFixed1 ((995 # 10) + Random.draw g 3 * (4 # 10)) |}.
Proof.
  destruct g as [ds c].
  unfold fetchServerData, randomBetween, Random.bind, Random.Math_random,
    Random.ret, Random.draw. simpl.
  rewrite !Nat.add_0_r.
  replace (c + 1)%nat with (S c) by lia.
  replace (c + 2)%nat with (S (S c)) by lia.
  replace (c + 3)%nat with (S (S (S c))) by lia.
  destruct (Qle_bool (ds c) (1 # 10)); reflexivity.
Qed.

(** The body of the polling callback: [await this.fetchServerData();
    this.updateDisplay();]. *)
Definition pollTick (els : statusElements) : Random.M statusElements :=
  let* sd := fetchServerData in
  Random.ret (updateDisplay els sd).

(** The uptime texts the simulation can show. *)
Definition uptime_texts : list string :=
  ["99.5%"; "99.6%"; "99.7%"; "99.8%"; "99.9%"]%string.

Lemma simulated_uptime_text (u : Q) :
  (0 <= u)%Q -> (u < 1)%Q ->
  In (Q_to_string (toFixed1 ((995 # 10) + u * (4 # 10))) ++ "%")%string
     uptime_texts.
Proof.
  intros H0 H1.
  destruct (simulated_uptime_range u H0 H1) as (n & E & Hn).
  rewrite E.
  assert (Hc : n = 995 \/ n = 996 \/ n = 997 \/ n = 998 \/ n = 999) by lia.
  destruct Hc as [->|[->|[->|[->| ->]]]]; simpl; tauto.
Qed.



End ServerStatus.

(* ===================================================================== *)
(** * [JSON.stringify] and [JSON.parse] *)
(* ===================================================================== *)

(** The values the script passes through JSON: [null], booleans, whole
    numbers, strings, arrays and objects.  An object lists its properties
    in enumeration order (that an engine enumerates integer-like keys
    first is not modelled).  Strings are sequences of 8-bit code units (the
    UTF-8 bytes of the text); the printer and the parser leave code units
    above 127 alone, as JSON does with non-ASCII characters.  Fractional
    numbers and [\u] escapes above [\u007f] are outside this model: the
    parser rejects them. *)
Module JSON.

Local Open Scope nat_scope.
Local Open Scope char_scope.

#[warnings="-register-all"]
Inductive json :=
| JNull
| JBool (b : bool)
| JNum (n : Z)
| JStr (s : string)
| JArr (items : list json)
| JObj (members : list (string * json)).

(** ** Characters *)

Definition is_digit (c : ascii) : bool :=
  ((48 <=? nat_of_ascii c) && (nat_of_ascii c <=? 57))%nat.

Definition tab : ascii := Eval cbv in ascii_of_nat 9.
Definition lf : ascii := Eval cbv in ascii_of_nat 10.
Definition cr : ascii := Eval cbv in ascii_of_nat 13.
Definition bs : ascii := Eval cbv in ascii_of_nat 8.
Definition ff : ascii := Eval cbv in ascii_of_nat 12.

(** The double quote character. *)
Definition dquote : ascii := Eval cbv in ascii_of_nat 34.

(** JSON whitespace: space, tab, line feed, carriage return. *)
Definition is_ws (c : ascii) : bool :=
  Ascii.eqb c " " || Ascii.eqb c tab || Ascii.eqb c lf || Ascii.eqb c cr.

Definition hex_digit (n : nat) : ascii :=
  if (n <? 10)%nat then ascii_of_nat (48 + n) else ascii_of_nat (87 + n).

Definition hex_value (c : ascii) : option nat :=
  let n := nat_of_ascii c in
  if ((48 <=? n) && (n <=? 57))%nat then Some (n - 48)
  else if ((97 <=? n) && (n <=? 102))%nat then Some (n - 87)
  else if ((65 <=? n) && (n <=? 70))%nat then Some (n - 55)
  else None.

(** ** Printing *)

(** How [JSON.stringify] writes one code unit inside a string literal. *)
Definition escape_char (c : ascii) : list ascii :=
  if Ascii.eqb c dquote then ["\"; dquote]
  else if Ascii.eqb c "\" then ["\"; "\"]
  else if Ascii.eqb c bs then ["\"; "b"]
  else if Ascii.eqb c ff then ["\"; "f"]
  else if Ascii.eqb c lf then ["\"; "n"]
  else if Ascii.eqb c cr then ["\"; "r"]
  else if Ascii.eqb c tab then ["\"; "t"]
  else if (nat_of_ascii c <? 32)%nat then
    ["\"; "u"; "0"; "0"; hex_digit (nat_of_ascii c / 16);
     hex_digit (nat_of_ascii c mod 16)]
  else [c].

Fixpoint escape (s : list ascii) : list ascii :=
  match s with
  | [] => []
  | c :: s' => escape_char c ++ escape s'
  end.

Definition quote (s : string) : list ascii :=
  dquote :: escape (list_ascii_of_string s) ++ [dquote].

Definition print_number (n : Z) : list ascii :=
  list_ascii_of_string (Z_to_string n).

Fixpoint print (v : json) : list ascii :=
  match v with
  | JNull => ["n"; "u"; "l"; "l"]
  | JBool true => ["t"; "r"; "u"; "e"]
  | JBool false => ["f"; "a"; "l"; "s"; "e"]
  | JNum n => print_number n
  | JStr s => quote s
  | JArr [] => ["["; "]"]
  | JArr (x :: xs) =>
      "[" :: print x ++
      (fix rest (l : list json) : list ascii :=
         match l with
         | [] => ["]"]
         | y :: l' => "," :: print y ++ rest l'
         end) xs
  | JObj [] => ["{"; "}"]
  | JObj ((k, x) :: ms) =>
      "{" :: quote k ++ ":" :: print x ++
      (fix rest (l : list (string * json)) : list ascii :=
         match l with
         | [] => ["}"]
         | (k', y) :: l' => "," :: quote k' ++ ":" :: print y ++ rest l'
         end) ms
  end.

(** [JSON.stringify(v)] *)
Definition stringify (v : json) : string := string_of_list_ascii (print v).

(** ** Parsing *)

Fixpoint skip_ws (s : list ascii) : list ascii :=
  match s with
  | c :: s' => if is_ws c then skip_ws s' else s
  | [] => []
  end.

(** Strip the literal [lit] from the front of [s]. *)
Fixpoint expect (lit s : list ascii) : option (list ascii) :=
  match lit, s with
  | [], _ => Some s
  | l :: lit', c :: s' => if Ascii.eqb l c then expect lit' s' else None
  | _ :: _, [] => None
  end.

Definition cons_char (c : ascii) (r : option (list ascii * list ascii))
    : option (list ascii * list ascii) :=
  match r with
  | Some (cs, rest) => Some (c :: cs, rest)
  | None => None
  end.

(** The characters of a string literal after the opening quote, up to
    and including the closing one. *)
Fixpoint parse_chars (s : list ascii) : option (list ascii * list ascii) :=
  match s with
  | [] => None
  | c :: r =>
      if Ascii.eqb c dquote then Some ([], r)
      else if Ascii.eqb c "\" then
        match r with
        | [] => None
        | e :: r1 =>
            if Ascii.eqb e dquote then cons_char dquote (parse_chars r1)
            else if Ascii.eqb e "\" then cons_char "\" (parse_chars r1)
            else if Ascii.eqb e "/" then cons_char "/" (parse_chars r1)
            else if Ascii.eqb e "b" then cons_char bs (parse_chars r1)
            else if Ascii.eqb e "f" then cons_char ff (parse_chars r1)
            else if Ascii.eqb e "n" then cons_char lf (parse_chars r1)
            else if Ascii.eqb e "r" then cons_char cr (parse_chars r1)
            else if Ascii.eqb e "t" then cons_char tab (parse_chars r1)
            else if Ascii.eqb e "u" then
              match r1 with
              | h1 :: h2 :: h3 :: h4 :: r2 =>
                  match hex_value h1, hex_value h2,
                        hex_value h3, hex_value h4 with
                  | Some a, Some b, Some c', Some d =>
                      let code := ((a * 16 + b) * 16 + c') * 16 + d in
                      if (code <? 128)%nat
                      then cons_char (ascii_of_nat code) (parse_chars r2)
                      else None
                  | _, _, _, _ => None
                  end
              | _ => None
              end
            else None
        end
      else if (nat_of_ascii c <? 32)%nat then None
      else cons_char c (parse_chars r)
  end.

Definition parse_string (s : list ascii) : option (string * list ascii) :=
  match s with
  | c :: r =>
      if Ascii.eqb c dquote then
        match parse_chars r with
        | Some (cs, rest) => Some (string_of_list_ascii cs, rest)
        | None => None
        end
      else None
  | [] => None
  end.

(** The longest run of digits at the front of [s], and what follows. *)
Fixpoint span_digits (s : list ascii) : list ascii * list ascii :=
  match s with
  | c :: s' =>
      if is_digit c then
        let '(ds, rest) := span_digits s' in (c :: ds, rest)
      else ([], s)
  | [] => ([], [])
  end.

(** What may follow the last digit of a whole number. *)
Definition ends_number (rest : list ascii) : bool :=
  match rest with
  | c :: _ => negb (Ascii.eqb c "." || Ascii.eqb c "e" || Ascii.eqb c "E")
  | [] => true
  end.

(** An unsigned whole number: ["0"], or a run of digits that does not
    start with ["0"]; no fraction or exponent may follow. *)
Definition parse_unsigned (s : list ascii)
    : option (Decimal.uint * list ascii) :=
  let '(ds, rest) := span_digits s in
  match ds with
  | [] => None
  | d :: ds' =>
      if Ascii.eqb d "0" && negb (Nat.eqb (length ds') 0) then None
      else if negb (ends_number rest) then None
      else
        match NilEmpty.uint_of_string (string_of_list_ascii ds) with
        | Some u => Some (u, rest)
        | None => None
        end
  end.

(** A number: an optional minus sign, then an unsigned whole number. *)
Definition parse_number (s : list ascii) : option (Z * list ascii) :=
  match s with
  | c :: r =>
      if Ascii.eqb c "-" then
        match parse_unsigned r with
        | Some (u, rest) => Some (Z.of_int (Decimal.Neg u), rest)
        | None => None
        end
      else
        match parse_unsigned s with
        | Some (u, rest) => Some (Z.of_int (Decimal.Pos u), rest)
        | None => None
        end
  | [] => None
  end.

(** [o[k] = v]: overwrite the property if the object has it, else add it
    at the end. *)
Fixpoint obj_set (k : string) (v : json) (o : list (string * json))
    : list (string * json) :=
  match o with
  | [] => [(k, v)]
  | (k', v') :: o' =>
      if String.eqb k k' then (k, v) :: o' else (k', v') :: obj_set k v o'
  end.

(** The object built from the members of an object literal, read left to
    right. *)
Definition build_object (ms : list (string * json)) : list (string * json) :=
  fold_left (fun o kv => obj_set (fst kv) (snd kv) o) ms [].

(** Recursive descent.  [fuel] bounds the nesting and the number of
    elements visited; [None] is a syntax error (or too little fuel). *)
Fixpoint parse_value (fuel : nat) (s : list ascii) {struct fuel}
    : option (json * list ascii) :=
  match fuel with
  | O => None
  | S fuel' =>
      match skip_ws s with
      | [] => None
      | c :: r =>
          if Ascii.eqb c "n" then
            match expect ["u"; "l"; "l"] r with
            | Some rest => Some (JNull, rest) | None => None end
          else if Ascii.eqb c "t" then
            match expect ["r"; "u"; "e"] r with
            | Some rest => Some (JBool true, rest) | None => None end
          else if Ascii.eqb c "f" then
            match expect ["a"; "l"; "s"; "e"] r with
            | Some rest => Some (JBool false, rest) | None => None end
          else if Ascii.eqb c dquote then
            match parse_string (c :: r) with
            | Some (str, rest) => Some (JStr str, rest) | None => None end
          else if Ascii.eqb c "[" then
            match skip_ws r with
            | c' :: r' =>
                if Ascii.eqb c' "]" then Some (JArr [], r')
                else match parse_elements fuel' r with
                     | Some (xs, rest) => Some (JArr xs, rest)
                     | None => None
                     end
            | [] => None
            end
          else if Ascii.eqb c "{" then
            match skip_ws r with
            | c' :: r' =>
                if Ascii.eqb c' "}" then Some (JObj [], r')
                else match parse_members fuel' r with
                     | Some (ms, rest) => Some (JObj (build_object ms), rest)
                     | None => None
                     end
            | [] => None
            end
          else
            match parse_number (c :: r) with
            | Some (n, rest) => Some (JNum n, rest) | None => None end
      end
  end

with parse_elements (fuel : nat) (s : list ascii) {struct fuel}
    : option (list json * list ascii) :=
  match fuel with
  | O => None
  | S fuel' =>
      match parse_value fuel' s with
      | None => None
      | Some (x, r) =>
          match skip_ws r with
          | c :: r' =>
              if Ascii.eqb c "," then
                match parse_elements fuel' r' with
                | Some (xs, rest) => Some (x :: xs, rest)
                | None => None
                end
              else if Ascii.eqb c "]" then Some ([x], r')
              else None
          | [] => None
          end
      end
  end

with parse_members (fuel : nat) (s : list ascii) {struct fuel}
    : option (list (string * json) * list ascii) :=
  match fuel with
  | O => None
  | S fuel' =>
      match parse_string (skip_ws s) with
      | None => None
      | Some (k, r0) =>
          match skip_ws r0 with
          | c0 :: r1 =>
              if Ascii.eqb c0 ":" then
                match parse_value fuel' r1 with
                | None => None
                | Some (x, r) =>
                    match skip_ws r with
                    | c :: r' =>
                        if Ascii.eqb c "," then
                          match parse_members fuel' r' with
                          | Some (ms, rest) => Some ((k, x) :: ms, rest)
                          | None => None
                          end
                        else if Ascii.eqb c "}" then Some ([(k, x)], r')
                        else None
                    | [] => None
                    end
                end
              else None
          | [] => None
          end
      end
  end.

(** [JSON.parse(text)]: one value, surrounded by optional whitespace;
    [None] stands for the [SyntaxError] it throws. *)
Definition parse (text : string) : option json :=
  let s := list_ascii_of_string text in
  match parse_value (S (length s)) s with
  | Some (v, rest) =>
      match skip_ws rest with
      | [] => Some v
      | _ :: _ => None
      end
  | None => None
  end.

(** Some texts. *)
Example stringify_array :
  stringify (JArr [JNum 1; JNull; JBool true; JNum (-20); JArr []; JObj []])
  = "[1,null,true,-20,[],{}]"%string.
Proof. reflexivity. Qed.

Example parse_with_whitespace :
  parse " [ 1 , [ ] , -20 ] "%string
  = Some (JArr [JNum 1; JArr []; JNum (-20)]).
Proof. reflexivity. Qed.

Example parse_repeated_key :
  parse (String "{" (String dquote (String "a" (String dquote
          (String ":" (String "1" (String "," (String dquote (String "a"
          (String dquote (String ":" (String "2" (String "}" "")))))))))))))
  = Some (JObj [("a"%string, JNum 2)]).
Proof. reflexivity. Qed.

Example parse_rejects :
  parse "01"%string = None /\ parse "[1,]"%string = None /\
  parse "undefined"%string = None /\ parse ""%string = None /\
  parse "1 2"%string = None.
Proof. repeat split; reflexivity. Qed.

(** ** Values that are JavaScript objects *)

(** No object has two properties of the same name. *)
Fixpoint distinct_keys (v : json) : Prop :=
  match v with
  | JArr xs =>
      (fix all (l : list json) : Prop :=
         match l with
         | [] => True
         | x :: l' => distinct_keys x /\ all l'
         end) xs
  | JObj ms =>
      List.NoDup (map fst ms) /\
      (fix all (l : list (string * json)) : Prop :=
         match l with
         | [] => True
         | (_, x) :: l' => distinct_keys x /\ all l'
         end) ms
  | _ => True
  end.

(** Fuel that suffices to parse the text of [v]. *)
Fixpoint size (v : json) : nat :=
  match v with
  | JArr xs =>
      S ((fix sz (l : list json) : nat :=
            match l with
            | [] => 0
            | x :: l' => S (size x + sz l')
            end) xs)
  | JObj ms =>
      S ((fix sz (l : list (string * json)) : nat :=
            match l with
            | [] => 0
            | (_, x) :: l' => S (size x + sz l')
            end) ms)
  | _ => 1
  end.

(** The text after the first element of an array, closing bracket
    included; likewise for objects. *)
Definition print_elements_tail (xs : list json) : list ascii :=
  (fix rest (l : list json) : list ascii :=
     match l with
     | [] => ["]"]
     | y :: l' => "," :: print y ++ rest l'
     end) xs.

Definition print_members_tail (ms : list (string * json)) : list ascii :=
  (fix rest (l : list (string * json)) : list ascii :=
     match l with
     | [] => ["}"]
     | (k', y) :: l' => "," :: quote k' ++ ":" :: print y ++ rest l'
     end) ms.

Definition size_elements (xs : list json) : nat :=
  (fix sz (l : list json) : nat :=
     match l with
     | [] => 0
     | x :: l' => S (size x + sz l')
     end) xs.

Definition size_members (ms : list (string * json)) : nat :=
  (fix sz (l : list (string * json)) : nat :=
     match l with
     | [] => 0
     | (_, x) :: l' => S (size x + sz l')
     end) ms.

(** Text that may follow a value: it does not continue a number. *)
Definition delimited (rest : list ascii) : Prop :=
  match rest with
  | [] => True
  | c :: _ => is_digit c = false /\ ends_number rest = true
  end.

(** Induction on values, with the hypothesis for every element of an
    array and every property of an object. *)
Lemma json_nested_ind (P : json -> Prop) :
  P JNull ->
  (forall b, P (JBool b)) ->
  (forall n, P (JNum n)) ->
  (forall s, P (JStr s)) ->
  (forall xs, Forall P xs -> P (JArr xs)) ->
  (forall ms, Forall (fun kv => P (snd kv)) ms -> P (JObj ms)) ->
  forall v, P v.
Proof.
  intros Hnull Hbool Hnum Hstr Harr Hobj.
  fix IH 1. intros [ | b | n | s | xs | ms ].
  - exact Hnull.
  - apply Hbool.
  - apply Hnum.
  - apply Hstr.
  - apply Harr. induction xs as [|x xs IHxs]; constructor.
    + apply IH.
    + exact IHxs.
  - apply Hobj. induction ms as [|[k x] ms IHms]; constructor.
    + apply IH.
    + exact IHms.
Qed.

(** ** Strings survive printing and parsing *)

Lemma parse_chars_escape_char (c : ascii) (r : list ascii) :
  parse_chars (escape_char c ++ r) = cons_char c (parse_chars r).
Proof.
  destruct c as [[] [] [] [] [] [] [] []]; reflexivity.
Qed.

Lemma parse_chars_escape (s r : list ascii) :
  parse_chars (escape s ++ dquote :: r) = Some (s, r).
Proof.
  induction s as [|c s IH]; [reflexivity|].
  simpl escape. rewrite <- app_assoc, parse_chars_escape_char, IH.
  reflexivity.
Qed.

Lemma parse_string_quote (k : string) (r : list ascii) :
  parse_string (quote k ++ r) = Some (k, r).
Proof.
  unfold quote, parse_string. simpl.
  rewrite <- app_assoc. simpl. rewrite parse_chars_escape.
  rewrite string_of_list_ascii_of_string. reflexivity.
Qed.

(** ** Whole numbers survive printing and parsing *)

(** The digit string of [u], as a list. *)
Definition digits (u : Decimal.uint) : list ascii :=
  list_ascii_of_string (NilEmpty.string_of_uint u).

Lemma span_digits_digits (u : Decimal.uint) (rest : list ascii) :
  delimited rest ->
  span_digits (digits u ++ rest) = (digits u, rest).
Proof.
  intros Hrest. unfold digits.
  induction u as [|u IH|u IH|u IH|u IH|u IH|u IH|u IH|u IH|u IH|u IH];
    simpl; try (rewrite IH; reflexivity).
  destruct rest as [|c rest]; [reflexivity|].
  destruct Hrest as [Hc _]. simpl. rewrite Hc. reflexivity.
Qed.

Lemma digits_uint (u : Decimal.uint) :
  NilEmpty.uint_of_string (string_of_list_ascii (digits u)) = Some u.
Proof.
  unfold digits. rewrite string_of_list_ascii_of_string. apply NilEmpty.usu.
Qed.

(** A normal form has no superfluous leading zero. *)
Lemma unorm_leading_zero (u u' : Decimal.uint) :
  Decimal.unorm u = u -> u = Decimal.D0 u' -> u' = Decimal.Nil.
Proof.
  intros Hn ->. unfold Decimal.unorm in Hn. simpl in Hn.
  destruct (Decimal.nzhead u') eqn:E;
    try (exfalso; apply (nzhead_nonzero u' u'); congruence).
  congruence.
Qed.

Lemma to_uint_normal (p : positive) :
  Decimal.unorm (Pos.to_uint p) = Pos.to_uint p.
Proof.
  rewrite <- DecimalPos.Unsigned.to_of, DecimalPos.Unsigned.of_to.
  reflexivity.
Qed.

Lemma parse_unsigned_digits (u : Decimal.uint) (rest : list ascii) :
  u <> Decimal.Nil -> Decimal.unorm u = u -> delimited rest ->
  parse_unsigned (digits u ++ rest) = Some (u, rest).
Proof.
  intros Hnil Hnorm Hrest. unfold parse_unsigned.
  rewrite span_digits_digits by assumption.
  assert (Hend : ends_number rest = true).
  { destruct rest; [reflexivity|]. apply Hrest. }
  pose proof (digits_uint u) as Hu.
  destruct u as [|u'|u'|u'|u'|u'|u'|u'|u'|u'|u']; try congruence;
    unfold digits in *; simpl in *; rewrite ?Hend; simpl;
    try (rewrite Hu; reflexivity).
  rewrite (unorm_leading_zero _ u' Hnorm eq_refl) in *. simpl. reflexivity.
Qed.

Lemma print_number_cases (n : Z) :
  (n = 0%Z /\ print_number n = ["0"]) \/
  (exists p, n = Zpos p /\ print_number n = digits (Pos.to_uint p)) \/
  (exists p, n = Zneg p /\ print_number n = "-" :: digits (Pos.to_uint p)).
Proof.
  unfold print_number, Z_to_string, digits.
  destruct n as [|p|p]; simpl.
  - left. split; reflexivity.
  - right. left. exists p. split; [reflexivity|].
    pose proof (DecimalPos.Unsigned.to_uint_nonnil p).
    destruct (Pos.to_uint p); [congruence|reflexivity..].
  - right. right. exists p. split; [reflexivity|].
    pose proof (DecimalPos.Unsigned.to_uint_nonnil p).
    destruct (Pos.to_uint p); [congruence|reflexivity..].
Qed.

(** The first character of a digit string is a digit. *)
Lemma digits_head (u : Decimal.uint) :
  u <> Decimal.Nil ->
  exists c ds, digits u = c :: ds /\ is_digit c = true.
Proof.
  intros Hnil. unfold digits.
  destruct u; [congruence|simpl; eexists; eexists; split; reflexivity..].
Qed.

Lemma parse_number_print (n : Z) (rest : list ascii) :
  delimited rest ->
  parse_number (print_number n ++ rest) = Some (n, rest).
Proof.
  intros Hrest.
  destruct (print_number_cases n)
    as [[-> E]|[(p & -> & E)|(p & -> & E)]]; rewrite E.
  - assert (Hend : ends_number rest = true).
    { destruct rest; [reflexivity|]. apply Hrest. }
    unfold parse_number. simpl. unfold parse_unsigned.
    change ("0" :: rest) with (digits (Decimal.D0 Decimal.Nil) ++ rest).
    rewrite span_digits_digits by assumption. simpl. rewrite Hend.
    reflexivity.
  - destruct (digits_head (Pos.to_uint p) (DecimalPos.Unsigned.to_uint_nonnil p))
      as (c & ds & Hd & Hc).
    unfold parse_number. rewrite Hd. simpl.
    assert (Hm : Ascii.eqb c "-" = false).
    { destruct (Ascii.eqb_spec c "-") as [->|]; [discriminate|reflexivity]. }
    rewrite Hm. change (c :: ds ++ rest) with ((c :: ds) ++ rest).
    rewrite <- Hd.
    rewrite parse_unsigned_digits;
      [|apply DecimalPos.Unsigned.to_uint_nonnil|apply to_uint_normal|assumption].
    f_equal. f_equal. apply (DecimalZ.of_to (Zpos p)).
  - unfold parse_number. simpl.
    rewrite parse_unsigned_digits;
      [|apply DecimalPos.Unsigned.to_uint_nonnil|apply to_uint_normal|assumption].
    f_equal. f_equal. apply (DecimalZ.of_to (Zneg p)).
Qed.

(** ** First characters *)

(** The character tests the parser makes on the first character of a
    value, all negative. *)
Definition not_structural (c : ascii) : Prop :=
  is_ws c = false /\ Ascii.eqb c "]" = false /\ Ascii.eqb c "}" = false.

Definition starts_number (c : ascii) : Prop :=
  is_ws c = false /\ Ascii.eqb c "n" = false /\ Ascii.eqb c "t" = false /\
  Ascii.eqb c "f" = false /\ Ascii.eqb c dquote = false /\
  Ascii.eqb c "[" = false /\ Ascii.eqb c "{" = false /\
  Ascii.eqb c "]" = false /\ Ascii.eqb c "}" = false.

Lemma digit_starts_number (c : ascii) :
  is_digit c = true -> starts_number c.
Proof.
  destruct c as [[] [] [] [] [] [] [] []]; intros H;
    try discriminate H; repeat split; reflexivity.
Qed.

Lemma print_number_head (n : Z) :
  exists c r, print_number n = c :: r /\ starts_number c.
Proof.
  destruct (print_number_cases n)
    as [[-> E]|[(p & -> & E)|(p & -> & E)]]; rewrite E.
  - eexists; eexists; split; [reflexivity|]. repeat split; reflexivity.
  - destruct (digits_head (Pos.to_uint p)
                (DecimalPos.Unsigned.to_uint_nonnil p)) as (c & ds & -> & Hc).
    eexists; eexists; split; [reflexivity|].
    apply digit_starts_number; assumption.
  - eexists; eexists; split; [reflexivity|]. repeat split; reflexivity.
Qed.

Lemma print_head (v : json) :
  exists c r, print v = c :: r /\ not_structural c.
Proof.
  destruct v as [ | [] | n | s | [|x xs] | [|[k x] ms] ];
    try (eexists; eexists; split; [reflexivity|repeat split; reflexivity]).
  destruct (print_number_head n) as (c & r & E & H).
  exists c, r. split; [exact E|]. unfold not_structural.
  unfold starts_number in H. tauto.
Qed.

Lemma skip_ws_print (v : json) (rest : list ascii) :
  skip_ws (print v ++ rest) = print v ++ rest.
Proof.
  destruct (print_head v) as (c & r & E & Hws & _). rewrite E. simpl.
  rewrite Hws. reflexivity.
Qed.

(** ** Unfolding the parser one step *)

Lemma parse_value_number fuel c r :
  starts_number c ->
  parse_value (S fuel) (c :: r)
  = match parse_number (c :: r) with
    | Some (n, rest) => Some (JNum n, rest)
    | None => None
    end.
Proof.
  intros (Hws & Hn & Ht & Hf & Hq & Ha & Ho & _).
  simpl. rewrite Hws, Hn, Ht, Hf, Hq, Ha, Ho. reflexivity.
Qed.

Lemma parse_value_array fuel r c r' :
  skip_ws r = c :: r' -> Ascii.eqb c "]" = false ->
  parse_value (S fuel) ("[" :: r)
  = match parse_elements fuel r with
    | Some (xs, rest) => Some (JArr xs, rest)
    | None => None
    end.
Proof. intros Hs Hc. simpl. rewrite Hs, Hc. reflexivity. Qed.

Lemma parse_value_object fuel r c r' :
  skip_ws r = c :: r' -> Ascii.eqb c "}" = false ->
  parse_value (S fuel) ("{" :: r)
  = match parse_members fuel r with
    | Some (ms, rest) => Some (JObj (build_object ms), rest)
    | None => None
    end.
Proof. intros Hs Hc. simpl. rewrite Hs, Hc. reflexivity. Qed.

Lemma parse_elements_step fuel s :
  parse_elements (S fuel) s
  = match parse_value fuel s with
    | None => None
    | Some (x, r) =>
        match skip_ws r with
        | c :: r' =>
            if Ascii.eqb c "," then
              match parse_elements fuel r' with
              | Some (xs, rest) => Some (x :: xs, rest)
              | None => None
              end
            else if Ascii.eqb c "]" then Some ([x], r')
            else None
        | [] => None
        end
    end.
Proof. reflexivity. Qed.

Lemma parse_members_step fuel s :
  parse_members (S fuel) s
  = match parse_string (skip_ws s) with
    | None => None
    | Some (k, r0) =>
        match skip_ws r0 with
        | c0 :: r1 =>
            if Ascii.eqb c0 ":" then
              match parse_value fuel r1 with
              | None => None
              | Some (x, r) =>
                  match skip_ws r with
                  | c :: r' =>
                      if Ascii.eqb c "," then
                        match parse_members fuel r' with
                        | Some (ms, rest) => Some ((k, x) :: ms, rest)
                        | None => None
                        end
                      else if Ascii.eqb c "}" then Some ([(k, x)], r')
                      else None
                  | [] => None
                  end
              end
            else None
        | [] => None
        end
    end.
Proof. reflexivity. Qed.

(** ** Objects with distinct keys are rebuilt as they were *)

Lemma obj_set_fresh k v (o : list (string * json)) :
  ~ In k (map fst o) -> obj_set k v o = o ++ [(k, v)].
Proof.
  induction o as [|[k' v'] o IH]; intros Hk; [reflexivity|].
  simpl in *. destruct (String.eqb_spec k k') as [->|Hne].
  - exfalso. apply Hk. left. reflexivity.
  - rewrite IH; [reflexivity|]. intros Hin. apply Hk. right. exact Hin.
Qed.

Lemma build_object_app (ms acc : list (string * json)) :
  List.NoDup (map fst (acc ++ ms)) ->
  fold_left (fun o kv => obj_set (fst kv) (snd kv) o) ms acc = acc ++ ms.
Proof.
  revert acc. induction ms as [|[k v] ms IH]; intros acc Hnd.
  - simpl. rewrite app_nil_r. reflexivity.
  - simpl. rewrite obj_set_fresh.
    + rewrite IH; rewrite <- app_assoc; [reflexivity|exact Hnd].
    + rewrite map_app in Hnd. simpl in Hnd.
      apply List.NoDup_remove_2 in Hnd. intros Hin. apply Hnd.
      apply in_or_app. left. exact Hin.
Qed.

Lemma build_object_distinct (ms : list (string * json)) :
  List.NoDup (map fst ms) -> build_object ms = ms.
Proof. intros Hnd. apply (build_object_app ms []). exact Hnd. Qed.

(** ** Values survive printing and parsing *)

Definition round_trips (v : json) : Prop :=
  distinct_keys v ->
  forall fuel rest,
    size v <= fuel -> delimited rest ->
    parse_value fuel (print v ++ rest) = Some (v, rest).

Lemma delimited_elements_tail xs rest :
  delimited (print_elements_tail xs ++ rest).
Proof. destruct xs; simpl; split; reflexivity. Qed.

Lemma delimited_members_tail ms rest :
  delimited (print_members_tail ms ++ rest).
Proof. destruct ms as [|[k x] ms]; simpl; split; reflexivity. Qed.

Lemma elements_tail_cons y xs rest :
  print_elements_tail (y :: xs) ++ rest
  = "," :: print y ++ print_elements_tail xs ++ rest.
Proof.
  change (print_elements_tail (y :: xs))
    with ("," :: print y ++ print_elements_tail xs).
  simpl. rewrite <- app_assoc. reflexivity.
Qed.

Lemma members_tail_cons k y ms rest :
  print_members_tail ((k, y) :: ms) ++ rest
  = "," :: quote k ++ ":" :: print y ++ print_members_tail ms ++ rest.
Proof.
  change (print_members_tail ((k, y) :: ms))
    with ("," :: quote k ++ ":" :: print y ++ print_members_tail ms).
  rewrite <- app_comm_cons. f_equal.
  rewrite <- app_assoc, <- app_comm_cons, <- app_assoc. reflexivity.
Qed.

Lemma skip_ws_cons c s : is_ws c = false -> skip_ws (c :: s) = c :: s.
Proof. intros H. simpl. rewrite H. reflexivity. Qed.

Lemma skip_ws_quote k s : skip_ws (quote k ++ s) = quote k ++ s.
Proof. reflexivity. Qed.

Lemma parse_elements_print (xs : list json) :
  Forall round_trips xs ->
  forall x fuel rest,
    round_trips x -> distinct_keys x -> distinct_keys (JArr xs) ->
    S (size x + size_elements xs) <= fuel ->
    parse_elements fuel (print x ++ print_elements_tail xs ++ rest)
    = Some (x :: xs, rest).
Proof.
  induction 1 as [|y xs Hy Hxs IH]; intros x fuel rest Hx Dx Dxs Hfuel;
    (destruct fuel as [|fuel]; [lia|]); rewrite parse_elements_step.
  - rewrite Hx; [|assumption|simpl in Hfuel; lia|apply delimited_elements_tail].
    reflexivity.
  - rewrite Hx; [|assumption|simpl in Hfuel; lia|apply delimited_elements_tail].
    destruct Dxs as [Dy Dxs].
    rewrite elements_tail_cons, skip_ws_cons by reflexivity.
    change (Ascii.eqb "," ",") with true. cbv beta match.
    rewrite IH; [reflexivity|assumption..|].
    change (size_elements (y :: xs))
      with (S (size y + size_elements xs)) in Hfuel. lia.
Qed.

Lemma parse_members_print (ms : list (string * json)) :
  Forall (fun kv => round_trips (snd kv)) ms ->
  forall k x fuel rest,
    round_trips x -> distinct_keys x ->
    Forall (fun kv => distinct_keys (snd kv)) ms ->
    S (size x + size_members ms) <= fuel ->
    parse_members fuel
      (quote k ++ ":" :: print x ++ print_members_tail ms ++ rest)
    = Some ((k, x) :: ms, rest).
Proof.
  induction 1 as [|[k' y] ms Hy Hms IH];
    intros k x fuel rest Hx Dx Dms Hfuel;
    (destruct fuel as [|fuel]; [lia|]);
    rewrite parse_members_step, skip_ws_quote, parse_string_quote,
      skip_ws_cons by reflexivity;
    change (Ascii.eqb ":" ":") with true; cbv beta match.
  - rewrite Hx; [|assumption|simpl in Hfuel; lia
                 |apply delimited_members_tail].
    reflexivity.
  - rewrite Hx; [|assumption|simpl in Hfuel; lia
                 |apply delimited_members_tail].
    apply Forall_cons_1 in Dms. destruct Dms as [Dy Dms].
    rewrite members_tail_cons, skip_ws_cons by reflexivity.
    change (Ascii.eqb "," ",") with true. cbv beta match.
    rewrite IH; [reflexivity|assumption..|].
    change (size_members ((k', y) :: ms))
      with (S (size y + size_members ms)) in Hfuel. lia.
Qed.

Lemma distinct_keys_members (ms : list (string * json)) :
  distinct_keys (JObj ms) ->
  List.NoDup (map fst ms) /\ Forall (fun kv => distinct_keys (snd kv)) ms.
Proof.
  intros [Hnd Hall]. split; [exact Hnd|]. clear Hnd.
  induction ms as [|[k x] ms IH]; constructor.
  - apply Hall.
  - apply IH. apply Hall.
Qed.

Lemma parse_value_print (v : json) : round_trips v.
Proof.
  induction v as [ | b | n | s | xs IH | ms IH ] using json_nested_ind;
    intros Dv fuel rest Hfuel Hrest;
    (destruct fuel as [|fuel]; [simpl in Hfuel; lia|]).
  - reflexivity.
  - destruct b; reflexivity.
  - destruct (print_number_head n) as (c & r & E & Hc).
    change (print (JNum n)) with (print_number n).
    pose proof (parse_number_print n rest Hrest) as Hn.
    rewrite E in *. simpl app in *.
    rewrite parse_value_number by assumption. rewrite Hn. reflexivity.
  - change (print (JStr s)) with (quote s).
    change (parse_value (S fuel) (quote s ++ rest))
      with (match parse_string (quote s ++ rest) with
            | Some (str, rest') => Some (JStr str, rest')
            | None => None
            end).
    rewrite parse_string_quote. reflexivity.
  - destruct xs as [|x xs]; [reflexivity|].
    apply Forall_cons_1 in IH. destruct IH as [Hx Hxs].
    destruct Dv as [Dx Dxs].
    change (print (JArr (x :: xs)))
      with ("[" :: print x ++ print_elements_tail xs).
    rewrite <- app_comm_cons, <- app_assoc.
    destruct (print_head x) as (c & r & E & Hws & Hc & _).
    erewrite parse_value_array;
      [|rewrite E; simpl; rewrite Hws; reflexivity|exact Hc].
    rewrite parse_elements_print; [reflexivity|assumption..|].
    simpl in Hfuel. unfold size_elements. lia.
  - destruct ms as [|[k x] ms]; [reflexivity|].
    apply Forall_cons_1 in IH. destruct IH as [Hx Hms].
    destruct (distinct_keys_members _ Dv) as [Hnd Dms].
    apply Forall_cons_1 in Dms. destruct Dms as [Dx Dms].
    change (print (JObj ((k, x) :: ms)))
      with ("{" :: quote k ++ ":" :: print x ++ print_members_tail ms).
    rewrite <- app_comm_cons, <- app_assoc, <- app_comm_cons, <- app_assoc.
    erewrite parse_value_object; [|reflexivity|reflexivity].
    rewrite parse_members_print; [|assumption..|].
    + rewrite build_object_distinct by assumption. reflexivity.
    + simpl in Hfuel. unfold size_members. lia.
Qed.

(** The text of a value is at least as long as the fuel it needs. *)
Lemma size_le_length (v : json) : size v <= length (print v).
Proof.
  induction v as [ | b | n | s | xs IH | ms IH ] using json_nested_ind.
  - simpl. lia.
  - destruct b; simpl; lia.
  - destruct (print_number_head n) as (c & r & E & _).
    change (print (JNum n)) with (print_number n). rewrite E. simpl. lia.
  - simpl. lia.
  - destruct xs as [|x xs]; [simpl; lia|].
    apply Forall_cons_1 in IH. destruct IH as [Hx Hxs].
    change (print (JArr (x :: xs)))
      with ("[" :: print x ++ print_elements_tail xs).
    change (size (JArr (x :: xs))) with (S (S (size x + size_elements xs))).
    repeat (cbn [length]; rewrite ?length_app).
    assert (S (size_elements xs) <= length (print_elements_tail xs)).
    { clear Hx. induction Hxs as [|y xs Hy Hxs IHxs]; [simpl; lia|].
      change (print_elements_tail (y :: xs))
        with ("," :: print y ++ print_elements_tail xs).
      change (size_elements (y :: xs))
        with (S (size y + size_elements xs)).
      repeat (cbn [length]; rewrite ?length_app). cbn [length]. lia. }
    lia.
  - destruct ms as [|[k x] ms]; [simpl; lia|].
    apply Forall_cons_1 in IH. destruct IH as [Hx Hms]. simpl in Hx.
    change (print (JObj ((k, x) :: ms)))
      with ("{" :: quote k ++ ":" :: print x ++ print_members_tail ms).
    change (size (JObj ((k, x) :: ms)))
      with (S (S (size x + size_members ms))).
    repeat (cbn [length]; rewrite ?length_app).
    assert (S (size_members ms) <= length (print_members_tail ms)).
    { clear Hx. induction Hms as [|[k' y] ms Hy Hms IHms]; [simpl; lia|].
      change (print_members_tail ((k', y) :: ms))
        with ("," :: quote k' ++ ":" :: print y ++ print_members_tail ms).
      change (size_members ((k', y) :: ms))
        with (S (size y + size_members ms)).
      simpl in Hy.
      repeat (cbn [length]; rewrite ?length_app). cbn [length]. lia. }
    lia.
Qed.

(** [JSON.parse(JSON.stringify(v))] is [v]. *)
Lemma parse_stringify (v : json) :
  distinct_keys v -> parse (stringify v) = Some v.
Proof.
  intros Dv. unfold parse, stringify.
  rewrite list_ascii_of_string_of_list_ascii.
  pose proof (parse_value_print v Dv (S (length (print v))) []) as H.
  rewrite app_nil_r in H. rewrite H; [reflexivity| |exact I].
  pose proof (size_le_length v). lia.
Qed.

(** Different values have different texts. *)
Lemma stringify_inj (v w : json) :
  distinct_keys v -> distinct_keys w ->
  stringify v = stringify w -> v = w.
Proof.
  intros Dv Dw E. apply parse_stringify in Dv, Dw.
  rewrite E in Dv. congruence.
Qed.

(** The text of a value is never the empty string. *)
Lemma stringify_nonempty (v : json) : stringify v <> EmptyString.
Proof.
  unfold stringify. destruct (print_head v) as (c & r & E & _).
  rewrite E. discriminate.
Qed.

End JSON.

(* ===================================================================== *)
(** * [StorageManager] over [localStorage] *)
(* ===================================================================== *)

Module Storage.
Import JSON.

(** The browser's store: string keys, string values.  Access can fail
    in two ways, both by throwing: the store may be unavailable
    altogether ([accessible = false]), and a write may be refused, for
    instance when the quota is exceeded ([accepts k v = false]). *)
Record localStorage := {
  accessible : bool;
  accepts : string -> string -> bool;
  items : gmap string string
}.

Definition with_items (m : gmap string string) (ls : localStorage)
    : localStorage :=
  {| accessible := accessible ls; accepts := accepts ls; items := m |}.

(** The platform operations; [None] is a thrown exception. *)
Definition getItem (k : string) (ls : localStorage)
    : option (option string) :=
  if accessible ls then Some (items ls !! k) else None.

Definition setItem (k v : string) (ls : localStorage)
    : option localStorage :=
  if accessible ls && accepts ls k v
  then Some (with_items (<[k := v]> (items ls)) ls)
  else None.

Definition removeItem (k : string) (ls : localStorage)
    : option localStorage :=
  if accessible ls then Some (with_items (delete k (items ls)) ls) else None.

(** [Object.keys(localStorage)] *)
Definition keys (ls : localStorage) : option (list string) :=
  if accessible ls then Some ((map_to_list (items ls)).*1) else None.

(** [this.prefix] *)
Definition prefix : string := "kurdish_city_".

(** [set(key, value)] *)
Definition set (key : string) (value : json) (ls : localStorage)
    : bool * localStorage :=
  match setItem (prefix +:+ key) (stringify value) ls with
  | Some ls' => (true, ls')
  | None => (false, ls)              (* catch: warn, return false *)
  end.

(** [get(key, defaultValue)]: an absent item ([null]) and an empty one
    are falsy; a text that does not parse makes [JSON.parse] throw. *)
Definition get (key : string) (defaultValue : json) (ls : localStorage)
    : json :=
  match getItem (prefix +:+ key) ls with
  | Some (Some item) =>
      if String.eqb item "" then defaultValue
      else match parse item with
           | Some v => v
           | None => defaultValue    (* catch: warn, return default *)
           end
  | Some None => defaultValue
  | None => defaultValue             (* catch: warn, return default *)
  end.

(** [remove(key)] *)
Definition remove (key : string) (ls : localStorage) : bool * localStorage :=
  match removeItem (prefix +:+ key) ls with
  | Some ls' => (true, ls')
  | None => (false, ls)
  end.

(** [keys.forEach(key => localStorage.removeItem(key))] *)
Fixpoint remove_each (ks : list string) (ls : localStorage)
    : option localStorage :=
  match ks with
  | [] => Some ls
  | k :: ks' =>
      match removeItem k ls with
      | Some ls' => remove_each ks' ls'
      | None => None
      end
  end.

(** [clear()] *)
Definition clear (ls : localStorage) : bool * localStorage :=
  match keys ls with
  | Some all =>
      let ks := List.filter (fun key => String.prefix prefix key) all in
      match remove_each ks ls with
      | Some ls' => (true, ls')
      | None => (false, ls)
      end
  | None => (false, ls)
  end.

Lemma remove_each_accessible (ks : list string) (ls : localStorage) :
  accessible ls = true ->
  exists ls', remove_each ks ls = Some ls' /\
    accessible ls' = true /\ accepts ls' = accepts ls /\
    forall k, items ls' !! k
              = if decide (k ∈ ks) then None else items ls !! k.
Proof.
  revert ls. induction ks as [|k0 ks IH]; intros ls Hacc.
  - exists ls. split; [reflexivity|]. split; [assumption|].
    split; [reflexivity|]. intros k.
    rewrite decide_False by apply not_elem_of_nil. reflexivity.
  - simpl. unfold removeItem. rewrite Hacc.
    destruct (IH (with_items (delete k0 (items ls)) ls) Hacc)
      as (ls' & Hrun & Hacc' & Hq & Hitems).
    exists ls'. split; [exact Hrun|]. split; [exact Hacc'|].
    split; [exact Hq|].
    intros k. rewrite Hitems. simpl.
    destruct (decide (k = k0)) as [->|Hne].
    + rewrite lookup_delete_eq.
      rewrite (decide_True _ _ (list_elem_of_here k0 ks)).
      case_decide; reflexivity.
    + rewrite lookup_delete_ne by congruence.
      destruct (decide (k ∈ ks)) as [Hin|Hnin].
      * rewrite decide_True by (apply elem_of_cons; right; exact Hin).
        reflexivity.
      * rewrite decide_False; [reflexivity|].
        intros [?|?]%elem_of_cons; contradiction.
Qed.

(** ** C7 *)

(** C7.  Whatever the store holds, while it is accessible [clear()]
    returns [true] and leaves a store in which exactly the keys starting
    with ["kurdish_city_"] are gone: such a key has no entry afterwards,
    and every other key has the entry, or the absence of one, it had
    before. *)
Theorem clear_removes_exactly_the_namespace (ls : localStorage) :
  accessible ls = true ->
  prefix = "kurdish_city_"%string /\
  fst (clear ls) = true /\
  forall k,
    items (snd (clear ls)) !! k
    = if String.prefix "kurdish_city_" k then None else items ls !! k.
Proof.
  intros Hacc. split; [reflexivity|].
  unfold clear, keys. rewrite Hacc.
  destruct (remove_each_accessible
              (List.filter (fun key => String.prefix prefix key)
                 ((map_to_list (items ls)).*1)) ls Hacc)
    as (ls' & -> & _ & _ & Hitems).
  split; [reflexivity|]. intros k. simpl. rewrite Hitems.
  change (String.prefix "kurdish_city_" k) with (String.prefix prefix k).
  destruct (String.prefix prefix k) eqn:Hp.
  - case_decide as Hin; [reflexivity|].
    destruct (items ls !! k) as [v|] eqn:Hk; [|reflexivity].
    exfalso. apply Hin. apply list_elem_of_In, filter_In. split; [|exact Hp].
    apply list_elem_of_In, list_elem_of_fmap. exists (k, v).
    split; [reflexivity|]. apply elem_of_map_to_list. exact Hk.
  - rewrite decide_False; [reflexivity|].
    intros Hin%list_elem_of_In%filter_In. destruct Hin as [_ Hp'].
    congruence.
Qed.

(** A store with two entries of the script and one of somebody else. *)
Lemma clear_removes_exactly_the_namespace_witness :
  let ls := {| accessible := true; accepts := fun _ _ => true;
               items := {[ "kurdish_city_theme"%string := (JSON.stringify (JSON.JStr "dark"));
                           "kurdish_city_k"%string := "1"%string;
                           "control"%string := "kept"%string ]} |} in
  fst (clear ls) = true /\
  items (snd (clear ls)) !! "kurdish_city_theme"%string = None /\
  items (snd (clear ls)) !! "kurdish_city_k"%string = None /\
  items (snd (clear ls)) !! "control"%string = Some "kept"%string.
Proof.
  intros ls.
  destruct (clear_removes_exactly_the_namespace ls eq_refl) as (_ & Ht & Hk).
  split; [exact Ht|]. rewrite !Hk. repeat split; reflexivity.
Defined.

(** ** C8 *)

(** What [set] stores, when the store takes it. *)
Lemma set_stores (key : string) (value : json) (ls ls' : localStorage) :
  set key value ls = (true, ls') ->
  accessible ls' = true /\
  items ls' !! (prefix +:+ key) = Some (stringify value).
Proof.
  unfold set, setItem.
  destruct (accessible ls) eqn:Hacc; simpl; [|discriminate].
  destruct (accepts ls (prefix +:+ key) (stringify value)); [|discriminate].
  intros [= <-]. simpl. split; [exact Hacc|]. apply lookup_insert_eq.
Qed.



(** ** Keys, frames and failures *)

Lemma namespaced_key_inj (k k' : string) :
  prefix +:+ k = prefix +:+ k' -> k = k'.
Proof. apply String.app_inj. Qed.

Lemma namespaced_key_prefix (k : string) :
  String.prefix prefix (prefix +:+ k) = true.
Proof. destruct k; reflexivity. Qed.

(** [get] only looks at the entry under the namespaced key. *)
Lemma get_depends_on_entry (k : string) (d : json) (ls ls' : localStorage) :
  accessible ls' = accessible ls ->
  items ls' !! (prefix +:+ k) = items ls !! (prefix +:+ k) ->
  get k d ls' = get k d ls.
Proof. intros Ha Hi. unfold get, getItem. rewrite Ha, Hi. reflexivity. Qed.

(** A successful [set(k, v)] changes the entry of [k] and nothing else:
    every other raw key of the store, inside or outside the namespace,
    keeps its entry, so [get] of every other key returns what it did
    before; and a later [set] of the same key replaces the earlier
    value. *)
Theorem set_changes_only_its_key
    (ls ls' : localStorage) (k : string) (v : json) :
  set k v ls = (true, ls') ->
  (forall raw, raw <> prefix +:+ k -> items ls' !! raw = items ls !! raw) /\
  (forall k' d, k' <> k -> get k' d ls' = get k' d ls) /\
  (forall v' d ls'', distinct_keys v' ->
     set k v' ls' = (true, ls'') -> get k d ls'' = v').
Proof.
  intros Hset.
  assert (Hitems : items ls' = <[prefix +:+ k := stringify v]> (items ls)
                   /\ accessible ls' = accessible ls).
  { unfold set, setItem in Hset.
    destruct (accessible ls && accepts ls (prefix +:+ k) (stringify v));
      [|discriminate].
    injection Hset as <-. split; reflexivity. }
  destruct Hitems as [Hitems Hacc].
  split; [|split].
  - intros raw Hraw. rewrite Hitems. apply lookup_insert_ne. congruence.
  - intros k' d Hk. apply get_depends_on_entry; [exact Hacc|].
    rewrite Hitems. apply lookup_insert_ne.
    intros E. apply Hk. symmetry. apply namespaced_key_inj. exact E.
  - intros v' d ls'' Dv Hset'. apply set_stores in Hset'.
    destruct Hset' as [Hacc' Hk]. unfold get, getItem. rewrite Hacc', Hk.
    destruct (String.eqb_spec (stringify v') "") as [He|_].
    + destruct (stringify_nonempty v' He).
    + rewrite parse_stringify by assumption. reflexivity.
Qed.

(** Two keys written one after the other on an empty store. *)
Lemma set_changes_only_its_key_witness :
  let ls := {| accessible := true; accepts := fun _ _ => true;
               items := ∅ |} in
  let ls1 := snd (set "theme" (JStr "dark") ls) in
  get "theme" JNull (snd (set "volume" (JNum 7) ls1)) = get "theme" JNull ls1.
Proof.
  intros ls ls1.
  apply (proj1 (proj2 (set_changes_only_its_key ls1
                         (snd (set "volume" (JNum 7) ls1))
                         "volume" (JNum 7) eq_refl))).
  discriminate.
Defined.

(** On an accessible store [remove(k)] returns [true]; afterwards [get]
    of [k] returns the default, and every other raw key keeps its
    entry. *)
Theorem remove_forgets_only_its_key
    (ls : localStorage) (k : string) :
  accessible ls = true ->
  fst (remove k ls) = true /\
  (forall d, get k d (snd (remove k ls)) = d) /\
  (forall raw, raw <> prefix +:+ k ->
     items (snd (remove k ls)) !! raw = items ls !! raw) /\
  (forall k' d, k' <> k -> get k' d (snd (remove k ls)) = get k' d ls).
Proof.
  intros Hacc. unfold remove, removeItem. rewrite Hacc. simpl.
  split; [reflexivity|]. split; [|split].
  - intros d. unfold get, getItem. simpl. rewrite Hacc, lookup_delete_eq.
    reflexivity.
  - intros raw Hraw. apply lookup_delete_ne. congruence.
  - intros k' d Hk. apply get_depends_on_entry; [reflexivity|]. simpl.
    apply lookup_delete_ne.
    intros E. apply Hk. symmetry. apply namespaced_key_inj. exact E.
Qed.

(** A stored theme is removed; a foreign key stays. *)
Lemma remove_forgets_only_its_key_witness :
  let ls := {| accessible := true; accepts := fun _ _ => true;
               items := {[ "kurdish_city_theme"%string := "1"%string;
                           "control"%string := "kept"%string ]} |} in
  get "theme" (JStr "dark") (snd (remove "theme" ls)) = JStr "dark" /\
  items (snd (remove "theme" ls)) !! "control"%string = Some "kept"%string.
Proof.
  intros ls.
  destruct (remove_forgets_only_its_key ls "theme" eq_refl)
    as (_ & Hget & Hraw & _).
  split; [apply Hget|]. rewrite Hraw by discriminate. reflexivity.
Defined.

(** When the store cannot be used at all, no operation throws and none
    changes anything: [set], [remove] and [clear] return [false] and the
    store is as before, [get] returns the default. *)
Theorem unavailable_store_is_tolerated
    (ls : localStorage) (k : string) (v d : json) :
  accessible ls = false ->
  set k v ls = (false, ls) /\
  remove k ls = (false, ls) /\
  clear ls = (false, ls) /\
  get k d ls = d.
Proof.
  intros Hacc.
  unfold set, setItem, remove, removeItem, clear, keys, get, getItem.
  rewrite Hacc. simpl. repeat split; reflexivity.
Qed.

(** A store in private mode: everything fails quietly. *)
Lemma unavailable_store_is_tolerated_witness :
  let ls := {| accessible := false; accepts := fun _ _ => false;
               items := ∅ |} in
  set "theme" (JStr "light") ls = (false, ls) /\
  get "theme" (JStr "dark") ls = JStr "dark".
Proof.
  intros ls.
  destruct (unavailable_store_is_tolerated ls "theme" (JStr "light")
              (JStr "dark") eq_refl) as (Hs & _ & _ & Hg).
  split; [exact Hs|exact Hg].
Defined.

(** When the store refuses a write (quota), [set] returns [false], the
    store is unchanged and [get] still returns what it returned
    before. *)
Theorem refused_write_keeps_old_value
    (ls : localStorage) (k : string) (v : json) :
  accepts ls (prefix +:+ k) (stringify v) = false ->
  set k v ls = (false, ls) /\
  (forall k' d, get k' d (snd (set k v ls)) = get k' d ls).
Proof.
  intros Hq.
  assert (E : set k v ls = (false, ls)).
  { unfold set, setItem. rewrite Hq, andb_false_r. reflexivity. }
  split; [exact E|]. intros k' d. rewrite E. reflexivity.
Qed.

(** A full store that holds an old preference. *)
Lemma refused_write_keeps_old_value_witness :
  let ls := {| accessible := true; accepts := fun _ _ => false;
               items := {[ "kurdish_city_n"%string := "1"%string ]} |} in
  set "n" (JNum 2) ls = (false, ls) /\
  get "n" JNull (snd (set "n" (JNum 2) ls)) = JNum 1.
Proof.
  intros ls.
  destruct (refused_write_keeps_old_value ls "n" (JNum 2) eq_refl)
    as (Hs & Hg).
  split; [exact Hs|]. rewrite Hg. reflexivity.
Defined.



Lemma clear_lookup (ls : localStorage) (raw : string) :
  accessible ls = true ->
  accessible (snd (clear ls)) = true /\
  items (snd (clear ls)) !! raw
  = if String.prefix prefix raw then None else items ls !! raw.
Proof.
  intros Hacc. unfold clear, keys. rewrite Hacc.
  destruct (remove_each_accessible
              (List.filter (fun key => String.prefix prefix key)
                 ((map_to_list (items ls)).*1)) ls Hacc)
    as (ls' & -> & Hacc' & _ & Hitems).
  simpl. split; [exact Hacc'|]. rewrite Hitems.
  destruct (String.prefix prefix raw) eqn:Hp.
  - case_decide as Hin; [reflexivity|].
    destruct (items ls !! raw) as [v|] eqn:Hk; [|reflexivity].
    exfalso. apply Hin. apply list_elem_of_In, filter_In. split; [|exact Hp].
    apply list_elem_of_In, list_elem_of_fmap. exists (raw, v).
    split; [reflexivity|]. apply elem_of_map_to_list. exact Hk.
  - rewrite decide_False; [reflexivity|].
    intros Hin%list_elem_of_In%filter_In. destruct Hin as [_ Hp'].
    congruence.
Qed.

(** After [clear()] on an accessible store, [get] of every key returns
    its default, and clearing again changes nothing more. *)
Theorem clear_forgets_every_key (ls : localStorage) :
  accessible ls = true ->
  (forall k d, get k d (snd (clear ls)) = d) /\
  items (snd (clear (snd (clear ls)))) = items (snd (clear ls)).
Proof.
  intros Hacc. destruct (clear_lookup ls "" Hacc) as [Hacc' _]. split.
  - intros k d. unfold get, getItem. rewrite Hacc'.
    rewrite (proj2 (clear_lookup ls (prefix +:+ k) Hacc)).
    rewrite namespaced_key_prefix. reflexivity.
  - apply map_eq. intros raw.
    rewrite (proj2 (clear_lookup _ raw Hacc')).
    rewrite (proj2 (clear_lookup ls raw Hacc)).
    destruct (String.prefix prefix raw); reflexivity.
Qed.

(** A stored theme is gone after [clear()]. *)
Lemma clear_forgets_every_key_witness :
  get "theme" (JStr "dark")
    (snd (clear {| accessible := true; accepts := fun _ _ => true;
                   items := {[ "kurdish_city_theme"%string := "1"%string ]}
                |}))
  = JStr "dark".
Proof.
  apply (proj1 (clear_forgets_every_key
                  {| accessible := true; accepts := fun _ _ => true;
                     items := {[ "kurdish_city_theme"%string := "1"%string ]}
                  |} eq_refl)).
Defined.

End Storage.

(* ===================================================================== *)
(** * [ThemeManager] *)
(* ===================================================================== *)

Module Theme.
Import JSON.

(** [String(v)], as [setAttribute] applies it to its argument. *)
Fixpoint to_String (v : json) : string :=
  match v with
  | JNull => "null"
  | JBool true => "true"
  | JBool false => "false"
  | JNum n => Z_to_string n
  | JStr s => s
  | JArr xs =>
      (fix join (l : list json) : string :=
         match l with
         | [] => ""
         | x :: l' =>
             (match x with JNull => "" | _ => to_String x end) +:+
             (match l' with [] => "" | _ :: _ => "," +:+ join l' end)
         end) xs
  | JObj _ => "[object Object]"
  end.

(** [v === 'dark'] and the like. *)
Definition is_string (v : json) (s : string) : bool :=
  match v with
  | JStr s' => String.eqb s' s
  | _ => false
  end.

(** The manager's field, the attribute on [document.documentElement],
    the store behind [this.storage], and the banners shown so far. *)
Record state := {
  currentTheme : json;
  data_theme : option string;
  localStorage : Storage.localStorage;
  notifications : list (string * string)
}.

(** [applyTheme()] *)
Definition applyTheme (s : state) : state :=
  {| currentTheme := currentTheme s;
     data_theme := Some (to_String (currentTheme s));
     localStorage := localStorage s;
     notifications := notifications s |}.

(** [showNotification(message, type)], as far as the banner it adds. *)
Definition showNotification (message type : string) (s : state) : state :=
  {| currentTheme := currentTheme s;
     data_theme := data_theme s;
     localStorage := localStorage s;
     notifications := notifications s ++ [(message, type)] |}.

(** [new ThemeManager()], up to [applyTheme()]:
    [this.currentTheme = this.storage.get('theme', 'dark')]. *)
Definition construct (ls : Storage.localStorage) (attr : option string)
    : state :=
  applyTheme {| currentTheme := Storage.get "theme" (JStr "dark") ls;
                data_theme := attr;
                localStorage := ls;
                notifications := [] |}.

(** [toggleTheme()] *)
Definition toggleTheme (s : state) : state :=
  let theme := if is_string (currentTheme s) "dark"
               then JStr "light" else JStr "dark" in
  let ls := snd (Storage.set "theme" theme (localStorage s)) in
  let s1 := applyTheme {| currentTheme := theme;
                          data_theme := data_theme s;
                          localStorage := ls;
                          notifications := notifications s |} in
  showNotification
    ("تیمی " +:+ (if is_string theme "dark" then "تاریک" else "ڕووناک")
     +:+ " چالاک کرا")
    "success" s1.

(** ** C9 *)

(** C9.  After [toggleTheme()], whatever the state was before (any
    value as current theme, any store, working or not): the current
    theme is the string ["dark"] or the string ["light"], the
    [data-theme] attribute holds that same string, a current theme other
    than ["dark"] has become ["dark"], and ["dark"] has become
    ["light"]. *)
Theorem toggleTheme_restores_two_states (s : state) :
  (currentTheme (toggleTheme s) = JStr "dark" \/
   currentTheme (toggleTheme s) = JStr "light") /\
  (exists t, currentTheme (toggleTheme s) = JStr t /\
             data_theme (toggleTheme s) = Some t) /\
  (currentTheme s <> JStr "dark" ->
   currentTheme (toggleTheme s) = JStr "dark" /\
   data_theme (toggleTheme s) = Some "dark"%string) /\
  (currentTheme s = JStr "dark" ->
   currentTheme (toggleTheme s) = JStr "light" /\
   data_theme (toggleTheme s) = Some "light"%string).
Proof.
  unfold toggleTheme, showNotification, applyTheme. simpl.
  destruct (is_string (currentTheme s) "dark") eqn:E; simpl.
  - assert (Hd : currentTheme s = JStr "dark").
    { destruct (currentTheme s); try discriminate E. simpl in E.
      apply String.eqb_eq in E. congruence. }
    split; [right; reflexivity|].
    split; [exists "light"%string; split; reflexivity|].
    split; [intros H; destruct (H Hd)|intros _; split; reflexivity].
  - assert (Hd : currentTheme s <> JStr "dark").
    { intros H. rewrite H in E. discriminate E. }
    split; [left; reflexivity|].
    split; [exists "dark"%string; split; reflexivity|].
    split; [intros _; split; reflexivity|intros H; destruct (Hd H)].
Qed.

(** The stored preference is corrupted: the store holds an object under
    the theme key.  One toggle gives the dark theme and stores it. *)
Example toggle_after_corrupted_preference :
  let ls := {| Storage.accessible := true;
               Storage.accepts := fun _ _ => true;
               Storage.items :=
                 {[ "kurdish_city_theme"%string :=
                      JSON.stringify (JObj [("x"%string, JNum 1)]) ]} |} in
  let s := construct ls None in
  currentTheme s = JObj [("x"%string, JNum 1)] /\
  data_theme s = Some "[object Object]"%string /\
  currentTheme (toggleTheme s) = JStr "dark" /\
  data_theme (toggleTheme s) = Some "dark"%string /\
  Storage.items (localStorage (toggleTheme s)) !! "kurdish_city_theme"%string
    = Some (JSON.stringify (JSON.JStr "dark")).
Proof. vm_compute. repeat split; reflexivity. Qed.

(** A manager whose current theme is the stray string ["blue"]. *)
Lemma toggleTheme_restores_two_states_witness :
  let s := {| currentTheme := JStr "blue"; data_theme := Some "blue"%string;
              localStorage := {| Storage.accessible := false;
                                 Storage.accepts := fun _ _ => false;
                                 Storage.items := ∅ |};
              notifications := [] |} in
  currentTheme (toggleTheme s) = JStr "dark" /\
  data_theme (toggleTheme s) = Some "dark"%string.
Proof.
  intros s.
  apply (proj1 (proj2 (proj2 (toggleTheme_restores_two_states s)))).
  discriminate.
Defined.

(** ** Toggling, persistence and reload *)

Lemma toggled_theme (s : state) :
  currentTheme (toggleTheme s)
  = if is_string (currentTheme s) "dark" then JStr "light" else JStr "dark".
Proof. reflexivity. Qed.

Lemma toggled_store (s : state) :
  localStorage (toggleTheme s)
  = snd (Storage.set "theme" (currentTheme (toggleTheme s)) (localStorage s)).
Proof. reflexivity. Qed.

(** If the store takes the write, a manager constructed afterwards from
    the same store (a page reload) starts with the theme the toggle chose
    and applies it to the document. *)
Theorem toggled_theme_survives_reload (s : state) (attr : option string) :
  fst (Storage.set "theme" (currentTheme (toggleTheme s)) (localStorage s))
    = true ->
  currentTheme (construct (localStorage (toggleTheme s)) attr)
    = currentTheme (toggleTheme s) /\
  data_theme (construct (localStorage (toggleTheme s)) attr)
    = data_theme (toggleTheme s).
Proof.
  intros Hset. rewrite toggled_store.
  destruct (Storage.set "theme" (currentTheme (toggleTheme s))
              (localStorage s)) as [ok ls'] eqn:E.
  simpl in Hset. subst ok.
  assert (Hget : Storage.get "theme" (JStr "dark") ls'
                 = currentTheme (toggleTheme s)).
  { apply Storage.set_stores in E. destruct E as [Hacc Hk].
    unfold Storage.get, Storage.getItem. rewrite Hacc, Hk.
    rewrite toggled_theme.
    destruct (is_string (currentTheme s) "dark"); reflexivity. }
  unfold construct, applyTheme. simpl. rewrite Hget. split; reflexivity.
Qed.

(** Dark theme, working store: toggle, reload, and the page is light. *)
Lemma toggled_theme_survives_reload_witness :
  let s := construct {| Storage.accessible := true;
                        Storage.accepts := fun _ _ => true;
                        Storage.items := ∅ |} None in
  currentTheme s = JStr "dark" /\
  currentTheme (construct (localStorage (toggleTheme s)) None) = JStr "light".
Proof.
  intros s. split; [reflexivity|].
  apply (proj1 (toggled_theme_survives_reload s None eq_refl)).
Defined.

(** If the store does not take the write, the toggle still changes the
    page, but the store is left as it was: a manager constructed
    afterwards starts from what was stored before. *)
Theorem unsaved_toggle_is_lost_on_reload (s : state) (attr : option string) :
  fst (Storage.set "theme" (currentTheme (toggleTheme s)) (localStorage s))
    = false ->
  localStorage (toggleTheme s) = localStorage s /\
  currentTheme (construct (localStorage (toggleTheme s)) attr)
    = Storage.get "theme" (JStr "dark") (localStorage s) /\
  data_theme (toggleTheme s) = Some (to_String (currentTheme (toggleTheme s))).
Proof.
  intros Hset.
  assert (E : localStorage (toggleTheme s) = localStorage s).
  { rewrite toggled_store. unfold Storage.set in *.
    destruct (Storage.setItem _ _ _); [discriminate Hset|reflexivity]. }
  split; [exact E|]. rewrite E. split; reflexivity.
Qed.

(** Dark theme, store unavailable: the toggle shows the light theme, a
    reload shows the dark one again. *)
Lemma unsaved_toggle_is_lost_on_reload_witness :
  let s := construct {| Storage.accessible := false;
                        Storage.accepts := fun _ _ => false;
                        Storage.items := ∅ |} None in
  currentTheme (toggleTheme s) = JStr "light" /\
  currentTheme (construct (localStorage (toggleTheme s)) None) = JStr "dark".
Proof.
  intros s. split; [reflexivity|].
  apply (proj1 (proj2 (unsaved_toggle_is_lost_on_reload s None eq_refl))).
Defined.

(** Toggling alternates: from any state, the theme after three toggles
    is the theme after one; and a second toggle undoes the first exactly
    when the theme was ["dark"] or ["light"] to begin with. *)
Theorem toggleTheme_alternates (s : state) :
  currentTheme (toggleTheme (toggleTheme (toggleTheme s)))
    = currentTheme (toggleTheme s) /\
  (currentTheme (toggleTheme (toggleTheme s)) = currentTheme s <->
   currentTheme s = JStr "dark" \/ currentTheme s = JStr "light").
Proof.
  split.
  - rewrite !toggled_theme.
    destruct (is_string (currentTheme s) "dark"); reflexivity.
  - rewrite !toggled_theme.
    destruct (is_string (currentTheme s) "dark") eqn:E; simpl.
    + assert (Hd : currentTheme s = JStr "dark").
      { destruct (currentTheme s); try discriminate E. simpl in E.
        apply String.eqb_eq in E. congruence. }
      split; [intros _; left; exact Hd|intros _; symmetry; exact Hd].
    + split.
      * intros H. right. symmetry. exact H.
      * intros [Hd|Hl]; [rewrite Hd in E; discriminate E|].
        symmetry. exact Hl.
Qed.

End Theme.

(* ===================================================================== *)
(** * [EasterEggManager]: the Konami code *)
(* ===================================================================== *)

Module EasterEgg.
Import JSON.

(** [this.targetCode] *)
Definition targetCode : list string :=
  ["ArrowUp"; "ArrowUp"; "ArrowDown"; "ArrowDown";
   "ArrowLeft"; "ArrowRight"; "ArrowLeft"; "ArrowRight";
   "KeyB"; "KeyA"]%string.

(** [this.konamiCode], and how often [activateKonamiEffect()] has run. *)
Record state := {
  konamiCode : list string;
  activations : nat
}.

Definition init : state := {| konamiCode := []; activations := 0 |}.

(** [JSON.stringify] of an array of key codes. *)
Definition codes_text (codes : list string) : string :=
  stringify (JArr (map JStr codes)).

(** The buffer once the new code is pushed and the overflow shifted out:
    [push(e.code); if (length > targetCode.length) shift();] *)
Definition pushed (code : string) (buffer : list string) : list string :=
  let b := buffer ++ [code] in
  if (length targetCode <? length b)%nat then tl b else b.

(** The comparison of the two texts. *)
Definition matches (buffer : list string) : bool :=
  String.eqb (codes_text buffer) (codes_text targetCode).

(** The [keydown] listener. *)
Definition keydown (code : string) (s : state) : state :=
  let b := pushed code (konamiCode s) in
  if matches b
  then {| konamiCode := []; activations := S (activations s) |}
  else {| konamiCode := b; activations := activations s |}.

(** A sequence of key presses, oldest first. *)
Definition feed (codes : list string) (s : state) : state :=
  fold_left (fun s code => keydown code s) codes s.

(** Did the effect fire on the key press [code] that follows [typed]? *)
Definition fires (typed : list string) (code : string) : bool :=
  matches (pushed code (konamiCode (feed typed init))).

(** [codes] ends with the target sequence. *)
Definition ends_with_target (codes : list string) : Prop :=
  exists before, codes = before ++ targetCode.

(** What the buffer is, relative to everything typed so far: the last
    codes typed, at most ten; when fewer than ten, they are all that was
    typed since the start or since the effect last fired. *)
Definition buffer_inv (typed buffer : list string) : Prop :=
  exists before,
    typed = before ++ buffer /\
    (length buffer <= 10)%nat /\
    (length buffer = 10%nat \/ before = [] \/ ends_with_target before).

(** ** Comparing texts is comparing buffers *)

Lemma codes_distinct_keys (codes : list string) :
  distinct_keys (JArr (map JStr codes)).
Proof. induction codes as [|c codes IH]; simpl; [exact I|split; [exact I|exact IH]]. Qed.

Lemma map_JStr_inj (a b : list string) :
  map JStr a = map JStr b -> a = b.
Proof.
  revert b. induction a as [|x a IH]; intros [|y b] E; try discriminate E.
  - reflexivity.
  - simpl in E. injection E as -> E. f_equal. apply IH. exact E.
Qed.

Lemma matches_iff (buffer : list string) :
  matches buffer = true <-> buffer = targetCode.
Proof.
  unfold matches. rewrite String.eqb_eq. split.
  - intros E. apply stringify_inj in E; try apply codes_distinct_keys.
    apply map_JStr_inj. congruence.
  - intros ->. reflexivity.
Qed.

(** ** The target sequence does not overlap itself *)

(** Its last code occurs nowhere else in it... *)
Lemma KeyA_only_last (i : nat) :
  (i < 9)%nat -> targetCode !! i <> Some "KeyA"%string.
Proof.
  intros Hi. do 9 (destruct i as [|i]; [discriminate|]). lia.
Qed.

(** ... so once the target has been typed, it takes ten more key presses
    to complete it again. *)
Lemma target_no_overlap (p q extra : list string) :
  p ++ targetCode ++ extra = q ++ targetCode ->
  (1 <= length extra <= 9)%nat -> False.
Proof.
  intros E Hlen.
  assert (Hq : length q = (length p + length extra)%nat).
  { apply (f_equal length) in E. rewrite !length_app in E. lia. }
  assert (Hl : (p ++ targetCode ++ extra) !! (length p + 9)%nat
               = Some "KeyA"%string).
  { rewrite lookup_app_r by lia.
    replace (length p + 9 - length p)%nat with 9%nat by lia.
    rewrite lookup_app_l by (simpl; lia). reflexivity. }
  rewrite E in Hl. rewrite lookup_app_r in Hl by lia.
  apply (KeyA_only_last (length p + 9 - length q)); [lia|exact Hl].
Qed.

(** ** One key press *)

Lemma pushed_inv (typed buffer : list string) (code : string) :
  buffer_inv typed buffer ->
  exists before,
    typed ++ [code] = before ++ pushed code buffer /\
    (1 <= length (pushed code buffer) <= 10)%nat /\
    (length (pushed code buffer) = 10%nat \/ before = [] \/
     ends_with_target before).
Proof.
  intros (before & -> & Hlen & Hcase). unfold pushed.
  rewrite length_app. change (length targetCode) with 10%nat. simpl length.
  destruct (Nat.ltb_spec 10 (length buffer + 1)) as [Hfull|Hroom].
  - (* the buffer was full: the oldest code leaves *)
    destruct buffer as [|b0 buffer]; [simpl in Hfull; lia|].
    exists (before ++ [b0]). simpl in *. rewrite length_app. simpl.
    split; [rewrite <- !app_assoc; reflexivity|].
    split; [lia|]. left. lia.
  - exists before. rewrite length_app. simpl.
    split; [rewrite <- app_assoc; reflexivity|].
    split; [lia|].
    destruct Hcase as [H10|Hcase]; [lia|]. right. exact Hcase.
Qed.

Lemma keydown_step (typed : list string) (s : state) (code : string) :
  buffer_inv typed (konamiCode s) ->
  buffer_inv (typed ++ [code]) (konamiCode (keydown code s)) /\
  (matches (pushed code (konamiCode s)) = true
   <-> ends_with_target (typed ++ [code])).
Proof.
  intros Hinv.
  destruct (pushed_inv typed (konamiCode s) code Hinv)
    as (before & Htyped & Hlen & Hcase).
  unfold keydown.
  destruct (matches (pushed code (konamiCode s))) eqn:Hm.
  - apply matches_iff in Hm. split.
    + exists (typed ++ [code]). simpl. rewrite app_nil_r.
      split; [reflexivity|]. split; [lia|]. right. right.
      exists before. rewrite Htyped, Hm. reflexivity.
    + split; [intros _|reflexivity].
      exists before. rewrite Htyped, Hm. reflexivity.
  - split.
    + exists before. simpl. split; [exact Htyped|]. split; [lia|exact Hcase].
    + split; [discriminate|]. intros (q & Hq). exfalso.
      assert (Hne : pushed code (konamiCode s) <> targetCode).
      { intros H. apply matches_iff in H. congruence. }
      rewrite Htyped in Hq.
      destruct (Nat.eq_dec (length (pushed code (konamiCode s))) 10%nat)
        as [H10|H10].
      * (* ten codes in the buffer: they would be the target *)
        apply Hne. apply (app_inj_2 before q); [|exact Hq].
        rewrite H10. reflexivity.
      * destruct Hcase as [H10'|[->|(p & ->)]]; [contradiction| |].
        -- (* fewer than ten codes typed in all *)
           apply (f_equal length) in Hq. rewrite !length_app in Hq.
           change (length targetCode) with 10%nat in Hq. simpl in Hq. lia.
        -- (* fewer than ten codes typed since the effect fired *)
           rewrite <- app_assoc in Hq.
           apply (target_no_overlap _ _ _ Hq). lia.
Qed.

(** ** Any sequence of key presses *)

Lemma feed_snoc (typed : list string) (code : string) (s : state) :
  feed (typed ++ [code]) s = keydown code (feed typed s).
Proof. unfold feed. rewrite fold_left_app. reflexivity. Qed.

Lemma feed_inv (typed : list string) :
  buffer_inv typed (konamiCode (feed typed init)).
Proof.
  induction typed as [|code typed IH] using rev_ind.
  - exists []. split; [reflexivity|]. split; [simpl; lia|].
    right. left. reflexivity.
  - rewrite feed_snoc. apply keydown_step. exact IH.
Qed.

Lemma fires_iff (typed : list string) (code : string) :
  fires typed code = true <-> ends_with_target (typed ++ [code]).
Proof. apply keydown_step, feed_inv. Qed.

Lemma activations_snoc (typed : list string) (code : string) :
  activations (feed (typed ++ [code]) init)
  = (activations (feed typed init) + if fires typed code then 1 else 0)%nat.
Proof.
  rewrite feed_snoc. unfold keydown, fires.
  destruct (matches (pushed code (konamiCode (feed typed init))));
    simpl; lia.
Qed.

Lemma never_fires_no_activation (codes : list string) :
  (forall typed code rest,
      codes = typed ++ code :: rest -> fires typed code = false) ->
  activations (feed codes init) = 0%nat.
Proof.
  induction codes as [|code typed IH] using rev_ind; intros Hno.
  - reflexivity.
  - rewrite activations_snoc, (Hno typed code []) by reflexivity.
    rewrite IH; [reflexivity|].
    intros t c r ->. apply (Hno t c (r ++ [code])).
    rewrite <- app_assoc. reflexivity.
Qed.

(** ** C3 *)

(** C3.  For every sequence of key presses fed to a fresh detector:
    the buffer holds the last codes typed, at most ten of them, and a
    press on a full buffer evicts its oldest code; the effect fires on a
    press exactly when the codes typed up to and including it end with
    the ten-code target, and then the buffer is emptied (otherwise it
    keeps the pushed code).  Hence the exact target fires the effect
    once; the target with one code replaced by a different one never
    fires it; and after any codes whatsoever, typing the target fires it
    on the last press. *)
Theorem konami_fires_iff_last_ten_match :
  (forall typed,
      (length (konamiCode (feed typed init)) <= 10)%nat /\
      exists before, typed = before ++ konamiCode (feed typed init)) /\
  (forall code oldest buffer,
      length (oldest :: buffer) = 10%nat ->
      pushed code (oldest :: buffer) = buffer ++ [code]) /\
  (forall typed code,
      fires typed code = true <-> ends_with_target (typed ++ [code])) /\
  (forall typed code,
      feed (typed ++ [code]) init
      = if fires typed code
        then {| konamiCode := [];
                activations := S (activations (feed typed init)) |}
        else {| konamiCode := pushed code (konamiCode (feed typed init));
                activations := activations (feed typed init) |}) /\
  activations (feed targetCode init) = 1%nat /\
  (forall i c,
      (i < 10)%nat -> targetCode !! i <> Some c ->
      activations (feed (<[i := c]> targetCode) init) = 0%nat) /\
  (forall noise,
      fires (noise ++ ["ArrowUp"; "ArrowUp"; "ArrowDown"; "ArrowDown";
                       "ArrowLeft"; "ArrowRight"; "ArrowLeft"; "ArrowRight";
                       "KeyB"]%string) "KeyA" = true).
Proof.
  split; [|split; [|split; [|split; [|split; [|split]]]]].
  - intros typed. destruct (feed_inv typed) as (before & E & Hlen & _).
    split; [exact Hlen|]. exists before. exact E.
  - intros code oldest buffer Hlen. unfold pushed.
    rewrite length_app, Hlen. reflexivity.
  - apply fires_iff.
  - intros typed code. rewrite feed_snoc. reflexivity.
  - vm_compute. reflexivity.
  - intros i c Hi Hc. apply never_fires_no_activation.
    intros typed code rest E.
    destruct (fires typed code) eqn:Hf; [exfalso|reflexivity].
    apply fires_iff in Hf. destruct Hf as (q & Hq).
    assert (Hlen : length (<[i := c]> targetCode) = 10%nat)
      by (rewrite length_insert; reflexivity).
    assert (Hl : (length typed + 1 = length q + 10)%nat).
    { apply (f_equal length) in Hq. rewrite !length_app in Hq.
      simpl in Hq. exact Hq. }
    rewrite E in Hlen. rewrite length_app in Hlen. simpl in Hlen.
    destruct q; [|simpl in Hl; lia].
    destruct rest; [|simpl in Hlen; lia].
    simpl in Hq. rewrite Hq in E.
    apply Hc. rewrite <- E at 1. apply list_lookup_insert_eq. simpl. exact Hi.
  - intros noise. apply fires_iff. exists noise.
    rewrite <- app_assoc. reflexivity.
Qed.

(** The target with its third code replaced, and the target typed after
    two stray keys. *)
Lemma konami_fires_iff_last_ten_match_witness :
  activations (feed (<[2%nat := "KeyX"%string]> targetCode) init) = 0%nat /\
  fires (["KeyQ"; "ArrowUp"]%string ++
         ["ArrowUp"; "ArrowUp"; "ArrowDown"; "ArrowDown";
          "ArrowLeft"; "ArrowRight"; "ArrowLeft"; "ArrowRight";
          "KeyB"]%string) "KeyA" = true.
Proof.
  destruct konami_fires_iff_last_ten_match
    as (_ & _ & _ & _ & _ & Hsub & Hnoise).
  split.
  - apply Hsub; [lia|discriminate].
  - apply Hnoise.
Defined.

(** ** The logo click counter *)

(** [this.clickCount], and how often [activateRainbowMode()] has run. *)
Record logo_state := {
  clickCount : nat;
  rainbows : nat
}.

(** [this.clickCount = 0] *)
Definition logo_init : logo_state := {| clickCount := 0; rainbows := 0 |}.

(** The [click] listener on the logo:
    [this.clickCount++; if (this.clickCount === 10)
       { this.activateRainbowMode(); this.clickCount = 0; }] *)
Definition logo_click (s : logo_state) : logo_state :=
  let n := S (clickCount s) in
  if Nat.eqb n 10
  then {| clickCount := 0; rainbows := S (rainbows s) |}
  else {| clickCount := n; rainbows := rainbows s |}.

(** After [n] clicks on the logo, the rainbow mode has been started once
    for every full ten clicks and the counter holds the rest. *)
Theorem logo_rainbow_every_tenth_click (n : nat) :
  clickCount (Nat.iter n logo_click logo_init) = (n mod 10)%nat /\
  rainbows (Nat.iter n logo_click logo_init) = (n / 10)%nat.
Proof.
  induction n as [|n [IHc IHr]]; [split; reflexivity|].
  change (Nat.iter (S n) logo_click logo_init)
    with (logo_click (Nat.iter n logo_click logo_init)).
  set (s := Nat.iter n logo_click logo_init) in *. clearbody s.
  unfold logo_click. rewrite IHc, IHr.
  pose proof (Nat.div_mod_eq n 10) as Hn.
  pose proof (Nat.mod_upper_bound n 10 ltac:(lia)) as Hlt.
  pose proof (Nat.div_mod_eq (S n) 10) as HSn.
  pose proof (Nat.mod_upper_bound (S n) 10 ltac:(lia)) as HSlt.
  destruct (Nat.eqb_spec (S (n mod 10)) 10) as [E|E];
    cbn [clickCount rainbows]; split; lia.
Qed.

End EasterEgg.

(* ===================================================================== *)
(** * [AnalyticsManager]: scroll depth *)
(* ===================================================================== *)

Module Analytics.

(** The closure variable [maxScrollDepth] and the depths written to the
    console by the scroll listener ([console.log('... Scroll Depth:',
    maxScrollDepth + '%')]), oldest first. *)
Record state := {
  maxScrollDepth : Z;
  logged : list Z
}.

(** [let maxScrollDepth = 0;] *)
Definition init : state := {| maxScrollDepth := 0; logged := [] |}.

(** One run of the (debounced) scroll listener, on a page whose rounded
    scroll percentage [Math.round(scrollY / (scrollHeight - innerHeight)
    * 100)] is [scrollDepth].  [%] is the remainder that takes the sign
    of the dividend. *)
Definition onScroll (scrollDepth : Z) (s : state) : state :=
  if scrollDepth >? maxScrollDepth s then
    if Z.rem scrollDepth 25 =? 0
    then {| maxScrollDepth := scrollDepth;
            logged := logged s ++ [scrollDepth] |}
    else {| maxScrollDepth := scrollDepth; logged := logged s |}
  else s.

(** The listener run on each of the given depths in turn. *)
Definition scroll (depths : list Z) (s : state) : state :=
  fold_left (fun s d => onScroll d s) depths s.

(** What is logged is below the maximum, a multiple of 25, and logged
    once. *)
Definition log_inv (s : state) : Prop :=
  Forall (fun m => 0 < m <= maxScrollDepth s /\ Z.rem m 25 = 0) (logged s)
  /\ List.NoDup (logged s).

Lemma onScroll_inv (d : Z) (s : state) :
  0 <= maxScrollDepth s -> log_inv s ->
  0 <= maxScrollDepth (onScroll d s) /\ log_inv (onScroll d s).
Proof.
  intros Hmax [Hall Hnd]. unfold onScroll.
  destruct (Z.gtb_spec d (maxScrollDepth s)) as [Hgt|Hle];
    [|split; [assumption|split; assumption]].
  assert (Hall' : Forall (fun m => 0 < m <= d /\ Z.rem m 25 = 0) (logged s)).
  { eapply Forall_impl; [exact Hall|]. simpl. intros m [? ?].
    split; [lia|assumption]. }
  destruct (Z.eqb_spec (Z.rem d 25) 0) as [Hrem|Hrem]; simpl.
  - split; [lia|]. split.
    + apply Forall_app. split; [exact Hall'|].
      constructor; [|constructor]. simpl. split; [lia|exact Hrem].
    + apply NoDup_ListNoDup, NoDup_app.
      split; [apply NoDup_ListNoDup; exact Hnd|].
      split; [|apply NoDup_singleton].
      intros m Hm Hd. apply list_elem_of_singleton in Hd. subst m.
      rewrite Forall_forall in Hall. apply Hall in Hm. lia.
  - split; [lia|]. split; [exact Hall'|exact Hnd].
Qed.

Lemma scroll_inv (depths : list Z) :
  0 <= maxScrollDepth (scroll depths init) /\ log_inv (scroll depths init).
Proof.
  induction depths as [|d depths IH] using rev_ind.
  - simpl. split; [lia|]. split; constructor.
  - unfold scroll. rewrite fold_left_app. simpl.
    apply onScroll_inv; apply IH.
Qed.

(** ** C2 *)

(** C2.  The specification expects runs of the listener at depths 30,
    55, 80 and 100 to log the four milestones 25, 50, 75 and 100, and
    the comment on the test in the source says the same.  The listener
    logs a new maximum only when that maximum is itself a multiple of
    25, so these four runs log the single entry 100: the milestones 25,
    50 and 75 were passed and never logged.  What does hold, for every
    sequence of depths, is that no value is logged twice, also when the
    depth falls and rises again. *)
Theorem scroll_milestones_passed_over_are_not_logged :
  logged (scroll [30; 55; 80; 100] init) = [100] /\
  logged (scroll [30; 55; 80; 100] init) <> [25; 50; 75; 100] /\
  (forall depths, List.NoDup (logged (scroll depths init))) /\
  logged (scroll [30; 55; 80; 100; 60; 80; 100] init) = [100].
Proof.
  split; [reflexivity|]. split; [discriminate|].
  split; [|reflexivity].
  intros depths. apply scroll_inv.
Qed.

(** ** What is logged, exactly *)

Lemma scroll_snoc (depths : list Z) (d : Z) (s : state) :
  scroll (depths ++ [d]) s = onScroll d (scroll depths s).
Proof. unfold scroll. rewrite fold_left_app. reflexivity. Qed.

(** The recorded maximum is below [d] exactly when [d] is positive and
    above every depth seen. *)
Lemma maxScrollDepth_below (depths : list Z) (d : Z) :
  maxScrollDepth (scroll depths init) < d <->
  0 < d /\ Forall (fun x => x < d) depths.
Proof.
  induction depths as [|x depths IH] using rev_ind.
  - simpl. split; [intros H; split; [exact H|constructor]|intros [H _]; exact H].
  - rewrite scroll_snoc, Forall_app, Forall_singleton. unfold onScroll.
    destruct (Z.gtb_spec x (maxScrollDepth (scroll depths init)))
      as [Hgt|Hle].
    + assert (E : forall l, maxScrollDepth
                (if Z.rem x 25 =? 0
                 then {| maxScrollDepth := x; logged := l ++ [x] |}
                 else {| maxScrollDepth := x; logged := l |}) = x)
        by (intros l; destruct (Z.rem x 25 =? 0); reflexivity).
      rewrite E. split.
      * intros Hx. assert (H : maxScrollDepth (scroll depths init) < d) by lia.
        apply IH in H. tauto.
      * tauto.
    + split.
      * intros H. pose proof (proj1 IH H). split; [tauto|]. split; [tauto|lia].
      * intros (H0 & Hall & _). apply IH. tauto.
Qed.

Lemma logged_snoc (depths : list Z) (d : Z) :
  logged (scroll (depths ++ [d]) init)
  = logged (scroll depths init) ++
    (if (d >? maxScrollDepth (scroll depths init)) && (Z.rem d 25 =? 0)
     then [d] else []).
Proof.
  rewrite scroll_snoc. unfold onScroll.
  destruct (d >? maxScrollDepth (scroll depths init));
    destruct (Z.rem d 25 =? 0); simpl; rewrite ?app_nil_r; reflexivity.
Qed.

(** A depth is written to the console exactly when it is a multiple of
    25 that some run of the listener saw as a new maximum: positive and
    above everything seen before.  A milestone that the depth only
    passes on the way to a deeper position is not logged. *)
Theorem scroll_logs_exact_new_maxima (depths : list Z) (m : Z) :
  In m (logged (scroll depths init)) <->
  Z.rem m 25 = 0 /\
  exists before after,
    depths = before ++ m :: after /\ 0 < m /\
    Forall (fun x => x < m) before.
Proof.
  induction depths as [|d depths IH] using rev_ind.
  - simpl. split; [intros []|].
    intros (_ & before & after & E & _). destruct before; discriminate E.
  - rewrite logged_snoc, in_app_iff, IH. split.
    + intros [(Hrem & before & after & E & H0 & Hall)|Hin].
      * split; [exact Hrem|]. exists before, (after ++ [d]).
        rewrite E, <- app_assoc. repeat split; assumption.
      * destruct (Z.gtb_spec d (maxScrollDepth (scroll depths init)))
          as [Hgt|Hle]; [|destruct Hin].
        destruct (Z.eqb_spec (Z.rem d 25) 0) as [Hrem|Hrem]; [|destruct Hin].
        destruct Hin as [<-|[]]. split; [exact Hrem|].
        exists depths, []. apply maxScrollDepth_below in Hgt.
        repeat split; tauto.
    + intros (Hrem & before & after & E & H0 & Hall).
      destruct after as [|a after _] using rev_ind.
      * apply app_inj_tail in E. destruct E as [<- <-]. right.
        assert (Hgt : maxScrollDepth (scroll depths init) < d)
          by (apply maxScrollDepth_below; tauto).
        destruct (Z.gtb_spec d (maxScrollDepth (scroll depths init)));
          [|lia].
        rewrite Hrem. simpl. left. reflexivity.
      * left. split; [exact Hrem|]. exists before, after.
        change (before ++ m :: after ++ [a])
          with (before ++ (m :: after) ++ [a]) in E.
        rewrite app_assoc in E. apply app_inj_tail in E.
        destruct E as [-> _]. repeat split; assumption.
Qed.

End Analytics.

(* ===================================================================== *)
(** * Utility functions *)
(* ===================================================================== *)

Module Utilities.
Import JSON.

(** ** [randomBetween] *)

Lemma randomBetween_unfold (min max : Z) (g : Random.rng) :
  randomBetween min max g
  = (Qfloor (Random.draw g 0 * inject_Z (max - min + 1)) + min,
     Random.Rng (Random.draws g) (S (Random.cursor g))).
Proof.
  unfold randomBetween, Random.bind, Random.Math_random, Random.ret,
    Random.draw. rewrite Nat.add_0_r. reflexivity.
Qed.



(** ** [formatKurdishNumber] *)

(** [kurdishDigits]: the ten digits U+0660 .. U+0669, each two bytes in
    UTF-8. *)
Definition kurdishDigits : list string :=
  ["٠"; "١"; "٢"; "٣"; "٤"; "٥"; "٦"; "٧"; "٨"; "٩"]%string.

(** [kurdishDigits[digit]] for a character matched by [\d]. *)
Definition kurdish_digit (digit : ascii) : string :=
  nth (nat_of_ascii digit - 48) kurdishDigits "undefined"%string.

(** [s.replace(/\d/g, digit => kurdishDigits[digit])] *)
Fixpoint replace_digits (s : string) : string :=
  match s with
  | EmptyString => EmptyString
  | String c s' =>
      (if is_digit c then kurdish_digit c else String c EmptyString)
      +:+ replace_digits s'
  end.

(** [formatKurdishNumber(num)], for a whole number. *)
Definition formatKurdishNumber (num : Z) : string :=
  replace_digits (Z_to_string num).

(** The first byte of every Kurdish digit. *)
Definition lead_byte : ascii := Eval cbv in ascii_of_nat 217.

(** Reading the Kurdish digits back (used to show that nothing is lost). *)
Fixpoint restore_digits (s : string) : string :=
  match s with
  | EmptyString => EmptyString
  | String c s' =>
      if Ascii.eqb c lead_byte then
        match s' with
        | String c2 s'' =>
            if ((160 <=? nat_of_ascii c2) && (nat_of_ascii c2 <=? 169))%nat
            then String (ascii_of_nat (nat_of_ascii c2 - 112))
                        (restore_digits s'')
            else String c (restore_digits s')
        | EmptyString => String c EmptyString
        end
      else String c (restore_digits s')
  end.

Example formatKurdishNumber_2024 :
  formatKurdishNumber 2024 = "٢٠٢٤"%string /\
  formatKurdishNumber (-15) = "-١٥"%string /\
  replace_digits "ping 45ms" = "ping ٤٥ms"%string.
Proof. repeat split; reflexivity. Qed.

Lemma restore_replace_digits (s : string) :
  Forall (fun c => c <> lead_byte) (list_ascii_of_string s) ->
  restore_digits (replace_digits s) = s.
Proof.
  induction s as [|c s IH]; intros H; [reflexivity|].
  simpl in H. apply Forall_cons_1 in H. destruct H as [Hc Hs].
  specialize (IH Hs).
  destruct c as [[] [] [] [] [] [] [] []];
    simpl; cbv [String.append]; simpl; rewrite ?IH; try reflexivity;
    exfalso; apply Hc; reflexivity.
Qed.

Lemma replace_digits_no_digit (s : string) :
  Forall (fun c => is_digit c = false)
    (list_ascii_of_string (replace_digits s)).
Proof.
  induction s as [|c s IH]; [constructor|].
  destruct c as [[] [] [] [] [] [] [] []]; simpl; cbv [String.append];
    simpl; repeat (constructor; [reflexivity|]); exact IH.
Qed.

Lemma replace_digits_without_digits (s : string) :
  Forall (fun c => is_digit c = false) (list_ascii_of_string s) ->
  replace_digits s = s.
Proof.
  induction s as [|c s IH]; intros H; [reflexivity|].
  simpl in H. apply Forall_cons_1 in H. destruct H as [Hc Hs].
  simpl. rewrite Hc, IH by assumption. reflexivity.
Qed.

Lemma digits_no_lead_byte (u : Decimal.uint) :
  Forall (fun c => c <> lead_byte) (digits u).
Proof.
  unfold digits.
  induction u; simpl; constructor; try discriminate; assumption.
Qed.

Lemma Z_to_string_no_lead_byte (n : Z) :
  Forall (fun c => c <> lead_byte) (list_ascii_of_string (Z_to_string n)).
Proof.
  change (list_ascii_of_string (Z_to_string n)) with (print_number n).
  destruct (print_number_cases n)
    as [[-> E]|[(p & -> & E)|(p & -> & E)]]; rewrite E.
  - constructor; [discriminate|constructor].
  - apply digits_no_lead_byte.
  - constructor; [discriminate|apply digits_no_lead_byte].
Qed.

Lemma Z_to_string_inj (n m : Z) : Z_to_string n = Z_to_string m -> n = m.
Proof.
  unfold Z_to_string. intros E. apply DecimalZ.to_int_inj.
  assert (Hne : forall z, Z.to_int z <> Decimal.Pos Decimal.Nil /\
                          Z.to_int z <> Decimal.Neg Decimal.Nil).
  { intros [|p|p]; simpl; split; try discriminate;
      intros [= H]; apply (DecimalPos.Unsigned.to_uint_nonnil p H). }
  pose proof (NilZero.isi (Z.to_int n) (proj1 (Hne n)) (proj2 (Hne n))) as Hn.
  pose proof (NilZero.isi (Z.to_int m) (proj1 (Hne m)) (proj2 (Hne m))) as Hm.
  rewrite E in Hn. congruence.
Qed.


End Utilities.

(* ===================================================================== *)
(** * The mobile menu *)
(* ===================================================================== *)

(** The menu is touched by four listeners: the click listener on the
    toggle button and the click listener on the document
    ([NavigationManager.setupMobileMenu]), the click listener on every
    in-page anchor ([setupSmoothScrolling]) and the key listener of
    [AccessibilityManager.setupKeyboardNavigation].  The page is taken to
    have both the menu ([#navMenu]) and the button ([#mobileMenuToggle]);
    scrolling and focus are left out. *)
Module Navigation.

Record menu := {
  active : bool;      (* navMenu.classList.contains('active') *)
  icon : string       (* mobileToggle.textContent *)
}.

Definition closed : menu := {| active := false; icon := "☰" |}.

(** Click listener of the toggle button:
    [navMenu.classList.toggle('active');
     mobileToggle.textContent = contains('active') ? '✕' : '☰';] *)
Definition onToggleClick (m : menu) : menu :=
  {| active := negb (active m);
     icon := if negb (active m) then "✕" else "☰" |}.

(** Click listener of the document; [inside] tells whether
    [e.target.closest('.nav-container')] found something. *)
Definition onDocumentClick (inside : bool) (m : menu) : menu :=
  if negb inside && active m then closed else m.

(** Click listener of an in-page anchor; [found] tells whether
    [document.querySelector(href)] returned an element (when it throws
    or returns [null] the listener does nothing more). *)
Definition onAnchorClick (found : bool) (m : menu) : menu :=
  if found && active m then closed else m.

(** Key listener, for the Escape key. *)
Definition onEscape (m : menu) : menu :=
  if active m then closed else m.

(** What the user does.  A click reaches the listener of the element
    clicked first and the listener of the document after it. *)
Inductive event :=
| ClickToggle (inside : bool)
| ClickAnchor (inside found : bool)
| ClickElsewhere (inside : bool)
| PressEscape.

Definition handle (m : menu) (e : event) : menu :=
  match e with
  | ClickToggle inside => onDocumentClick inside (onToggleClick m)
  | ClickAnchor inside found => onDocumentClick inside (onAnchorClick found m)
  | ClickElsewhere inside => onDocumentClick inside m
  | PressEscape => onEscape m
  end.

(** The button shows the cross exactly while the menu is open. *)
Definition icon_matches (m : menu) : Prop :=
  icon m = if active m then "✕"%string else "☰"%string.

Lemma handle_keeps_icon (m : menu) (e : event) :
  icon_matches m -> icon_matches (handle m e).
Proof.
  unfold icon_matches. destruct m as [[] i]; simpl; intros ->;
    destruct e as [[]|[] []|[]|]; reflexivity.
Qed.

(** The icon on the button and the state of the menu cannot drift
    apart: if they agree, they agree after any sequence of events; and
    whatever the page showed before, they agree from the first click on
    the button onwards. *)
Theorem menu_icon_follows_menu (m : menu) (events : list event) :
  (icon_matches m -> icon_matches (fold_left handle events m)) /\
  (forall inside,
     icon_matches (fold_left handle (ClickToggle inside :: events) m)).
Proof.
  assert (H : forall evs m0, icon_matches m0 ->
                icon_matches (fold_left handle evs m0)).
  { induction evs as [|e evs IH]; intros m0 Hm; [exact Hm|].
    simpl. apply IH, handle_keeps_icon, Hm. }
  split; [apply H|].
  intros inside. simpl. apply H.
  unfold icon_matches. destruct m as [[] i]; destruct inside; reflexivity.
Qed.

(** Which events open and which close the menu.  Escape, a click
    outside the navigation container and a click on an anchor whose
    target exists leave the menu closed.  A click on the button flips
    the menu when the button lies inside the navigation container; when
    it lies outside, the document listener closes the menu again within
    the same click, so the menu never opens.  No other event opens a
    closed menu. *)
Theorem menu_opens_only_by_its_button (m : menu) :
  active (handle m PressEscape) = false /\
  active (handle m (ClickElsewhere false)) = false /\
  (forall inside, active (handle m (ClickAnchor inside true)) = false) /\
  active (handle m (ClickToggle true)) = negb (active m) /\
  active (handle m (ClickToggle false)) = false /\
  (forall e, active m = false -> active (handle m e) = true ->
             e = ClickToggle true).
Proof.
  destruct m as [[] i]; simpl; repeat split;
    try (intros []; reflexivity);
    intros e Ha; try discriminate Ha;
    destruct e as [[]|[] []|[]|]; simpl; intros H;
    first [reflexivity | discriminate H].
Qed.

End Navigation.

(* ===================================================================== *)
(** * [AccessibilityManager.setupAriaLabels] *)
(* ===================================================================== *)

(** The page, as far as this function reads it: for a selector, the
    [aria-label] attribute of the element it selects ([None] for an
    element without the attribute); a selector without an entry selects
    nothing.  The three selectors of the function are taken to select
    different elements. *)
Module Accessibility.

Definition elementsNeedingLabels : list (string * string) :=
  [(".mobile-menu-toggle", "Toggle navigation menu");
   (".scroll-indicator", "Page scroll progress");
   (".loading-screen", "Page loading")]%string.

(** [!element.getAttribute('aria-label')]: the attribute is missing or
    empty. *)
Definition unlabelled (attr : option string) : bool :=
  match attr with
  | None => true
  | Some l => String.eqb l ""
  end.

(** One round of the [forEach]. *)
Definition label_element (page : gmap string (option string))
    (entry : string * string) : gmap string (option string) :=
  match page !! fst entry with
  | Some attr =>
      if unlabelled attr then <[fst entry := Some (snd entry)]> page
      else page
  | None => page
  end.

Definition setupAriaLabels (page : gmap string (option string))
    : gmap string (option string) :=
  fold_left label_element elementsNeedingLabels page.

(** The attribute an element ends up with. *)
Definition labelled (default : string) (attr : option string)
    : option string :=
  if unlabelled attr then Some default else attr.

Lemma label_element_lookup page entry selector :
  label_element page entry !! selector
  = if decide (selector = fst entry)
    then labelled (snd entry) <$> page !! selector
    else page !! selector.
Proof.
  unfold label_element, labelled.
  destruct (decide (selector = fst entry)) as [->|Hne].
  - destruct (page !! fst entry) as [attr|] eqn:E; simpl; [|exact E].
    destruct (unlabelled attr); [apply lookup_insert_eq|exact E].
  - destruct (page !! fst entry) as [attr|]; [|reflexivity].
    destruct (unlabelled attr); [|reflexivity].
    apply lookup_insert_ne. congruence.
Qed.

(** The default label of a selector, if the function knows it. *)
Definition default_label (selector : string) : option string :=
  snd <$> List.find (fun entry => String.eqb (fst entry) selector)
            elementsNeedingLabels.

Lemma setupAriaLabels_lookup page selector :
  setupAriaLabels page !! selector
  = match default_label selector with
    | Some l => labelled l <$> page !! selector
    | None => page !! selector
    end.
Proof.
  unfold setupAriaLabels, default_label, elementsNeedingLabels.
  cbn [fold_left]. rewrite !label_element_lookup. cbn [fst snd List.find].
  destruct (String.eqb_spec ".mobile-menu-toggle" selector) as [<-|H1].
  { rewrite decide_False by discriminate.
    rewrite decide_False by discriminate.
    rewrite decide_True by reflexivity. reflexivity. }
  destruct (String.eqb_spec ".scroll-indicator" selector) as [<-|H2].
  { rewrite decide_False by discriminate.
    rewrite decide_True by reflexivity.
    rewrite decide_False by discriminate. reflexivity. }
  destruct (String.eqb_spec ".loading-screen" selector) as [<-|H3].
  { rewrite decide_True by reflexivity.
    rewrite decide_False by discriminate.
    rewrite decide_False by discriminate. reflexivity. }
  rewrite !decide_False by congruence. reflexivity.
Qed.

(** A label that is already there is never overwritten; every element
    the three selectors find ends up with a non-empty label, its own or
    the default; no element appears or disappears and other elements
    are not touched; and running the function again changes nothing. *)
Theorem setupAriaLabels_fills_only_missing_labels
    (page : gmap string (option string)) :
  (forall selector l,
     page !! selector = Some (Some l) -> l <> ""%string ->
     setupAriaLabels page !! selector = Some (Some l)) /\
  (forall selector default,
     In (selector, default) elementsNeedingLabels ->
     page !! selector = Some None \/ page !! selector = Some (Some ""%string) ->
     setupAriaLabels page !! selector = Some (Some default)) /\
  (forall selector,
     setupAriaLabels page !! selector = None <-> page !! selector = None) /\
  (forall selector,
     default_label selector = None ->
     setupAriaLabels page !! selector = page !! selector) /\
  setupAriaLabels (setupAriaLabels page) = setupAriaLabels page.
Proof.
  split; [|split; [|split; [|split]]].
  - intros selector l Hl Hne. rewrite setupAriaLabels_lookup, Hl.
    apply String.eqb_neq in Hne.
    destruct (default_label selector); [|reflexivity].
    unfold labelled. simpl. rewrite Hne. reflexivity.
  - intros selector default Hin Hattr.
    rewrite setupAriaLabels_lookup.
    assert (Hd : default_label selector = Some default).
    { destruct Hin as [[= <- <-]|[[= <- <-]|[[= <- <-]|[]]]]; reflexivity. }
    rewrite Hd. destruct Hattr as [-> | ->]; reflexivity.
  - intros selector. rewrite setupAriaLabels_lookup.
    destruct (default_label selector); [|reflexivity].
    destruct (page !! selector); simpl; split; congruence.
  - intros selector Hd. rewrite setupAriaLabels_lookup, Hd. reflexivity.
  - apply map_eq. intros selector. rewrite !setupAriaLabels_lookup.
    destruct (default_label selector) as [d|]; [|reflexivity].
    destruct (page !! selector) as [attr|]; simpl; [|reflexivity].
    f_equal. unfold labelled.
    destruct (unlabelled attr) eqn:E; [|rewrite E; reflexivity].
    simpl. destruct (String.eqb d ""); reflexivity.
Qed.

(** A page whose menu button is labelled, whose scroll indicator is not,
    and which has no loading screen. *)
Lemma setupAriaLabels_fills_only_missing_labels_witness :
  let page : gmap string (option string) :=
    {[ ".mobile-menu-toggle"%string := Some "Menu"%string;
       ".scroll-indicator"%string := None ]} in
  setupAriaLabels page !! ".mobile-menu-toggle"%string
    = Some (Some "Menu"%string) /\
  setupAriaLabels page !! ".scroll-indicator"%string
    = Some (Some "Page scroll progress"%string).
Proof.
  intros page.
  destruct (setupAriaLabels_fills_only_missing_labels page)
    as (Hkeep & Hfill & _).
  split.
  - apply Hkeep; [reflexivity|discriminate].
  - apply Hfill; [right; left; reflexivity|left; reflexivity].
Defined.

End Accessibility.

(* ===================================================================== *)
(** * Timed page effects: [showNotification], [activateKonamiEffect],
      [activateRainbowMode] *)
(* ===================================================================== *)

(** The three functions change the page and register timers that undo
    the change later.  The page is modelled as far as they write it: the
    banners appended to [document.body], the [filter] of the body's
    inline style and the [<style>] elements appended to
    [document.head].  A created element has an identity, the number under
    which the closures of its timers refer to it. *)
Module Effects.
Import EventLoop.

(** The declarations of the [cssText] of a banner. *)
Record css := {
  position : string; top : string; right : string; background : string;
  color : string; padding : string; border_radius : string;
  z_index : string; animation : string; max_width : string;
  box_shadow : string
}.

Record element := {
  className : string;
  textContent : string;
  style : css
}.

Record page := {
  next_node : nat;                  (* identity of the next created element *)
  body : list (nat * element);      (* banners in document.body, in order *)
  body_filter : string;             (* document.body.style.filter *)
  head_styles : list (nat * string) (* <style> elements added to the head *)
}.

Inductive callback :=
  | SlideOut (n : nat)
  | RemoveNotification (n : nat)
  | ClearFilter
  | RemoveStyle (n : nat).

Abbreviation eworld := (world page callback).

(** The element [showNotification(message, type)] creates. *)
Definition notification (message type : string) : element :=
  {| className := "notification notification-" +:+ type;
     textContent := message;
     style :=
       {| position := "fixed";
          top := "100px";
          right := "20px";
          background :=
            if String.eqb type "success" then "#4ecdc4"
            else if String.eqb type "error" then "#ff6b6b"
            else "#45b7d1";
          color := "white";
          padding := "15px 20px";
          border_radius := "10px";
          z_index := "10000";
          animation := "slideIn 0.3s ease-out";
          max_width := "300px";
          box_shadow := "0 5px 15px rgba(0,0,0,0.3)" |} |}.

(** [el.style.animation = a] *)
Definition with_animation (a : string) (el : element) : element :=
  {| className := className el;
     textContent := textContent el;
     style :=
       {| position := position (style el);
          top := top (style el);
          right := right (style el);
          background := background (style el);
          color := color (style el);
          padding := padding (style el);
          border_radius := border_radius (style el);
          z_index := z_index (style el);
          animation := a;
          max_width := max_width (style el);
          box_shadow := box_shadow (style el) |} |}.

Definition with_body (b : list (nat * element)) (p : page) : page :=
  {| next_node := next_node p; body := b;
     body_filter := body_filter p; head_styles := head_styles p |}.

Definition with_filter (f : string) (p : page) : page :=
  {| next_node := next_node p; body := body p;
     body_filter := f; head_styles := head_styles p |}.

Definition with_head (h : list (nat * string)) (p : page) : page :=
  {| next_node := next_node p; body := body p;
     body_filter := body_filter p; head_styles := h |}.

(** [document.createElement(...)]: the identity of the new element. *)
Definition createElement (p : page) : nat * page :=
  (next_node p,
   {| next_node := S (next_node p); body := body p;
      body_filter := body_filter p; head_styles := head_styles p |}).

(** [notification.style.animation = a] for the banner [n].  The element
    is reachable from its closures and from the body only, so the
    assignment shows on the page exactly when the banner is in the
    body. *)
Definition set_animation (n : nat) (a : string) (p : page) : page :=
  with_body
    (map (fun c => if Nat.eqb (fst c) n
                   then (fst c, with_animation a (snd c)) else c)
         (body p)) p.

(** [notification.remove()] *)
Definition remove_notification (n : nat) (p : page) : page :=
  with_body (List.filter (fun c => negb (Nat.eqb (fst c) n)) (body p)) p.

(** [style.remove()] *)
Definition remove_style (n : nat) (p : page) : page :=
  with_head
    (List.filter (fun c => negb (Nat.eqb (fst c) n)) (head_styles p)) p.

Definition slideOut : string := "slideOut 0.3s ease-in forwards".

(** The timer callbacks:
    - [SlideOut n]: [() => { notification.style.animation = 'slideOut
      0.3s ease-in forwards'; setTimeout(() => notification.remove(),
      300); }]
    - [RemoveNotification n]: [() => notification.remove()]
    - [ClearFilter]: [() => { document.body.style.filter = ''; }]
    - [RemoveStyle n]: [() => { style.remove(); }] *)
Definition exec (c : callback) (w : eworld) : eworld :=
  match c with
  | SlideOut n =>
      snd (setTimeout (RemoveNotification n) 300
             (with_st (set_animation n slideOut (st w)) w))
  | RemoveNotification n => with_st (remove_notification n (st w)) w
  | ClearFilter => with_st (with_filter "" (st w)) w
  | RemoveStyle n => with_st (remove_style n (st w)) w
  end.

(** [showNotification(message, type)] *)
Definition showNotification (message type : string) (w : eworld) : eworld :=
  let '(n, p) := createElement (st w) in
  let p1 := with_body (body p ++ [(n, notification message type)]) p in
  snd (setTimeout (SlideOut n) 3000 (with_st p1 w)).

Definition konami_message : string :=
  "🎉 Konami Code فعال بوو! ڕەنگەکان گۆڕدران!".

Definition konami_filter : string := "hue-rotate(180deg) saturate(1.5)".

(** [activateKonamiEffect()] *)
Definition activateKonamiEffect (w : eworld) : eworld :=
  let w1 := with_st (with_filter konami_filter (st w)) w in
  let w2 := showNotification konami_message "success" w1 in
  snd (setTimeout ClearFilter 5000 w2).

Definition rainbow_message : string :=
  "🌈 حاڵەتی ڕەنگینەکەمان چالاک بوو!".

Definition lf : ascii := Eval cbv in ascii_of_nat 10.

Definition newline : string := String lf "".

(** The text of the style element of the rainbow mode. *)
Definition rainbow_css : string :=
  String.concat newline
    [ "";
      "            @keyframes rainbow {";
      "                0% { filter: hue-rotate(0deg); }";
      "                100% { filter: hue-rotate(360deg); }";
      "            }";
      "            .logo { animation: rainbow 2s linear infinite; }";
      "        " ].

(** [activateRainbowMode()] *)
Definition activateRainbowMode (w : eworld) : eworld :=
  let '(n, p) := createElement (st w) in
  let w1 := with_st (with_head (head_styles p ++ [(n, rainbow_css)]) p) w in
  let w2 := showNotification rainbow_message "success" w1 in
  snd (setTimeout (RemoveStyle n) 10000 w2).

(** What happens on the page: one of the three functions is called. *)
Inductive action :=
  | Notify (message type : string)
  | Konami
  | Rainbow.

Definition perform (a : action) (w : eworld) : eworld :=
  match a with
  | Notify message type => showNotification message type w
  | Konami => activateKonamiEffect w
  | Rainbow => activateRainbowMode w
  end.

(** The page when the script starts, at time [t0]. *)
Definition init (t0 : Z) : eworld :=
  {| now := t0; next_id := 1%nat; timers := [];
     st := {| next_node := 0%nat; body := []; body_filter := "";
              head_styles := [] |} |}.

(** Perform each action at its time, letting the clock run in between
    (the timers due at the time of an action run before it), then let
    the clock run on to [horizon]. *)
Fixpoint run (fuel : nat) (schedule : list (Z * action)) (horizon : Z)
    (w : eworld) : option eworld :=
  match schedule with
  | [] => advance exec fuel horizon w
  | (t, a) :: schedule' =>
      match advance exec fuel t w with
      | Some w1 => run fuel schedule' horizon (perform a w1)
      | None => None
      end
  end.

(** Times that do not decrease. *)
Fixpoint ordered (t : Z) (schedule : list (Z * action)) : Prop :=
  match schedule with
  | [] => True
  | (t', _) :: schedule' => t <= t' /\ ordered t' schedule'
  end.

(** ** What the page shows at a time, read off the schedule *)

(** The banner an action shows. *)
Definition banner (a : action) : element :=
  match a with
  | Notify message type => notification message type
  | Konami => notification konami_message "success"
  | Rainbow => notification rainbow_message "success"
  end.

(** The banners in the body at time [T], in document order: the banner
    of an action at [t] slides in at [t], slides out from [t + 3000] and
    is gone from [t + 3300]. *)
Definition banners_at (T : Z) (schedule : list (Z * action))
    : list element :=
  flat_map
    (fun ta : Z * action =>
       if T <? fst ta + 3000 then [banner (snd ta)]
       else if T <? fst ta + 3300
            then [with_animation slideOut (banner (snd ta))]
            else [])
    schedule.

(** The times of the Konami activations. *)
Definition konami_times (schedule : list (Z * action)) : list Z :=
  flat_map
    (fun ta : Z * action =>
       match snd ta with Konami => [fst ta] | _ => [] end)
    schedule.

(** The body's filter at time [T]: set by the last activation, unless
    the timer of some activation ran after it. *)
Definition filter_at (T : Z) (schedule : list (Z * action)) : string :=
  match last (konami_times schedule) with
  | None => ""
  | Some a =>
      if existsb (fun t => (a <? t + 5000) && (t + 5000 <=? T))
           (konami_times schedule)
      then "" else konami_filter
  end.

(** The style elements in the head at time [T]: one for each rainbow
    activation less than 10000 ms ago. *)
Definition styles_at (T : Z) (schedule : list (Z * action)) : list string :=
  flat_map
    (fun ta : Z * action =>
       match snd ta with
       | Rainbow => if T <? fst ta + 10000 then [rainbow_css] else []
       | _ => []
       end)
    schedule.

(** ** The life of an effect *)

(** Each call leaves effects on the page that timers end later: a
    banner (slides out, then leaves), the body's filter (cleared), a
    style element (removed).  An entry records when the effect began,
    how far it has got and the handle of its pending timer. *)
Inductive kind :=
  | Banner (n : nat) (message type : string)
  | Filter
  | Style (n : nat).

Inductive phase := Fresh | Leaving | Done.

Record entry := {
  born : Z;
  what : kind;
  stage : phase;
  handle : nat
}.

(** The timer an entry waits for. *)
Definition pending (e : entry) : option (timer callback) :=
  match what e, stage e with
  | Banner n _ _, Fresh =>
      Some (Timer (handle e) (born e + 3000) (SlideOut n))
  | Banner n _ _, Leaving =>
      Some (Timer (handle e) (born e + 3300) (RemoveNotification n))
  | Filter, Fresh => Some (Timer (handle e) (born e + 5000) ClearFilter)
  | Style n, Fresh => Some (Timer (handle e) (born e + 10000) (RemoveStyle n))
  | _, _ => None
  end.

(** What an entry shows in the body and in the head. *)
Definition banner_of (e : entry) : list (nat * element) :=
  match what e, stage e with
  | Banner n message type, Fresh => [(n, notification message type)]
  | Banner n message type, Leaving =>
      [(n, with_animation slideOut (notification message type))]
  | _, _ => []
  end.

Definition style_of (e : entry) : list (nat * string) :=
  match what e, stage e with
  | Style n, Fresh => [(n, rainbow_css)]
  | _, _ => []
  end.

Definition node_of (e : entry) : list nat :=
  match what e with
  | Banner n _ _ => [n]
  | Filter => []
  | Style n => [n]
  end.

(** The times at which the filter was set, and at which it was
    cleared. *)
Definition activated (e : entry) : option Z :=
  match what e with Filter => Some (born e) | _ => None end.

Definition cleared (e : entry) : option Z :=
  match what e, stage e with
  | Filter, Done => Some (born e + 5000)
  | _, _ => None
  end.

Definition filter_of (G : list entry) : string :=
  match last (omap activated G) with
  | None => ""
  | Some a =>
      if existsb (fun c => a <? c) (omap cleared G) then ""
      else konami_filter
  end.

(** How far an entry can have got by time [t]. *)
Definition reached (t : Z) (e : entry) : Prop :=
  born e <= t /\
  match what e, stage e with
  | _, Fresh => True
  | Banner _ _ _, Leaving => born e + 3000 <= t
  | Banner _ _ _, Done => born e + 3300 <= t
  | Filter, Done => born e + 5000 <= t
  | Style _, Done => born e + 10000 <= t
  | _, Leaving => False
  end.

(** The callbacks still to run for an entry. *)
Definition remaining (e : entry) : nat :=
  match what e, stage e with
  | Banner _ _ _, Fresh => 2
  | Banner _ _ _, Leaving => 1
  | Filter, Fresh => 1
  | Style _, Fresh => 1
  | _, _ => 0
  end.

Definition backlog (G : list entry) : nat := list_sum (map remaining G).

(** The timers of the world are those the entries wait for. *)
Record Sched (G : list entry) (w : eworld) : Prop := {
  sched_timers : timers w ≡ₚ omap pending G;
  sched_handles : NoDup (tid <$> omap pending G);
  sched_next_id : Forall (fun tm => (tid tm < next_id w)%nat) (omap pending G);
  sched_due : Forall (fun tm => now w <= due tm) (omap pending G);
  sched_born :
    Forall (fun e => Forall (fun tm => born e < due tm) (omap pending G)) G;
  sched_reached : Forall (reached (now w)) G
}.

(** The page shows what the entries show. *)
Record Shown (G : list entry) (p : page) : Prop := {
  shown_body : body p = G ≫= banner_of;
  shown_head : head_styles p = G ≫= style_of;
  shown_filter : body_filter p = filter_of G;
  shown_nodes : NoDup (G ≫= node_of);
  shown_next_node : Forall (fun n => (n < next_node p)%nat) (G ≫= node_of)
}.

(** ** The next timer *)

Lemma next_timer_elem {Cb} (ts : list (timer Cb)) tm :
  next_timer ts = Some tm -> tm ∈ ts.
Proof.
  revert tm. induction ts as [|t ts IH]; intros tm; simpl; [discriminate|].
  destruct (next_timer ts) as [tm'|].
  - destruct (due tm' <? due t); intros [= <-].
    + right. apply IH. reflexivity.
    + left.
  - intros [= <-]. left.
Qed.

Lemma next_timer_min {Cb} (ts : list (timer Cb)) tm :
  next_timer ts = Some tm -> Forall (fun tm' => due tm <= due tm') ts.
Proof.
  revert tm. induction ts as [|t ts IH]; intros tm; simpl; [constructor|].
  destruct (next_timer ts) as [tm'|] eqn:E.
  - specialize (IH tm' eq_refl).
    destruct (Z.ltb_spec (due tm') (due t)); intros [= <-].
    + constructor; [lia|exact IH].
    + constructor; [lia|].
      eapply Forall_impl; [exact IH|]. simpl. intros; lia.
  - intros [= <-]. destruct ts as [|t' ts]; [repeat constructor; lia|].
    simpl in E. destruct (next_timer ts); [destruct (_ <? _)|]; discriminate.
Qed.

Lemma next_timer_None {Cb} (ts : list (timer Cb)) :
  next_timer ts = None -> ts = [].
Proof.
  destruct ts as [|t ts]; [reflexivity|]. simpl.
  destruct (next_timer ts); [destruct (_ <? _)|]; discriminate.
Qed.

Lemma filter_key_fresh {A} (key : A -> nat) (n : nat) (l : list A) :
  Forall (fun c => key c <> n) l ->
  List.filter (fun c => negb (Nat.eqb (key c) n)) l = l.
Proof.
  induction 1 as [|c l Hc _ IH]; simpl; [reflexivity|].
  destruct (Nat.eqb_spec (key c) n); [contradiction|]. simpl. now rewrite IH.
Qed.

Lemma filter_key_perm {A} (key : A -> nat) (n : nat) (l l' : list A) :
  l ≡ₚ l' ->
  List.filter (fun c => negb (Nat.eqb (key c) n)) l
  ≡ₚ List.filter (fun c => negb (Nat.eqb (key c) n)) l'.
Proof.
  induction 1 as [|x l l' _ IH|x y l|l l' l'' _ IH1 _ IH2]; simpl.
  - reflexivity.
  - destruct (negb _); [constructor|]; exact IH.
  - destruct (negb (key x =? n)%nat), (negb (key y =? n)%nat);
      try reflexivity. constructor.
  - etransitivity; eassumption.
Qed.

Lemma filter_key_mid {A} (key : A -> nat) (l1 : list A) (x : A) (l2 : list A) :
  NoDup (key <$> (l1 ++ x :: l2)) ->
  List.filter (fun c => negb (Nat.eqb (key c) (key x))) (l1 ++ x :: l2)
  = l1 ++ l2.
Proof.
  intros Hnd. rewrite fmap_app, fmap_cons in Hnd.
  apply NoDup_app in Hnd as (_ & H1 & H2).
  apply NoDup_cons in H2 as [H2 _].
  rewrite List.filter_app. simpl. rewrite Nat.eqb_refl. simpl.
  rewrite !filter_key_fresh; [reflexivity| |].
  - apply Forall_forall. intros c Hc E. apply H2. rewrite <- E.
    apply list_elem_of_fmap. eauto.
  - apply Forall_forall. intros c Hc E.
    apply (H1 (key c)); [apply list_elem_of_fmap; eauto|].
    rewrite E. left.
Qed.

Lemma omap_mid {A B} (f : A -> option B) (l1 : list A) (x : A) (l2 : list A) :
  omap f (l1 ++ x :: l2) = omap f l1 ++ option_list (f x) ++ omap f l2.
Proof.
  rewrite omap_app. simpl. destruct (f x); reflexivity.
Qed.

(** ** One timer fires *)

(** The entry [e] waits for the next timer [tm]; the callback of [tm]
    takes it to [e'], registering the timer of [e'] if it has one. *)
Lemma sched_step G1 e G2 e' (w w' : eworld) tm :
  Sched (G1 ++ e :: G2) w ->
  pending e = Some tm ->
  Forall (fun tm' => due tm <= due tm') (timers w) ->
  born e' = born e ->
  reached (due tm) e' ->
  now w' = due tm ->
  (next_id w <= next_id w')%nat ->
  timers w' = remove_timer (tid tm) (timers w) ++ option_list (pending e') ->
  (forall tm', pending e' = Some tm' ->
     tid tm' = next_id w /\ (next_id w < next_id w')%nat /\
     due tm <= due tm') ->
  Sched (G1 ++ e' :: G2) w'.
Proof.
  intros [Ht Hh Hid Hdue Hborn Hr] He Hmin Hb Hre Hnow Hle Hts Hnew.
  rewrite omap_mid, He in Ht, Hh, Hid, Hdue. simpl in Ht, Hh, Hid, Hdue.
  assert (Hborn' : Forall (fun e0 => born e0 < due tm /\
            Forall (fun tm0 => born e0 < due tm0)
              (omap pending G1 ++ omap pending G2)) (G1 ++ e :: G2)).
  { eapply Forall_impl; [exact Hborn|]. simpl. intros e0 H0.
    rewrite omap_mid, He in H0. simpl in H0.
    rewrite Forall_app, Forall_cons in H0. rewrite Forall_app. tauto. }
  clear Hborn.
  pose proof (filter_key_mid tid _ _ _ Hh) as Hrm.
  rewrite Ht in Hmin.
  assert (Hp : omap pending G1 ++ tm :: omap pending G2
               ≡ₚ tm :: (omap pending G1 ++ omap pending G2))
    by (symmetry; apply Permutation_middle).
  rewrite Hp in Hh, Hid, Hdue, Hmin.
  rewrite fmap_cons in Hh. apply NoDup_cons in Hh as [_ Hh].
  apply Forall_cons in Hid as [_ Hid].
  apply Forall_cons in Hdue as [Hdtm _].
  apply Forall_cons in Hmin as [_ Hmin].
  assert (Hq : omap pending (G1 ++ e' :: G2)
               ≡ₚ option_list (pending e')
                  ++ (omap pending G1 ++ omap pending G2)).
  { rewrite omap_mid, (Permutation_app_comm (omap pending G1)),
      <- app_assoc, (Permutation_app_comm (omap pending G2)). reflexivity. }
  set (Q := omap pending G1 ++ omap pending G2) in *.
  constructor.
  - rewrite Hts, Hq. unfold remove_timer.
    rewrite (filter_key_perm tid _ _ _ Ht), Hrm.
    apply Permutation_app_comm.
  - rewrite Hq. destruct (pending e') as [tm'|] eqn:E'; simpl; [|exact Hh].
    destruct (Hnew tm' eq_refl) as (Hid' & _ & _).
    apply NoDup_cons. split; [|exact Hh].
    intros Hin. apply list_elem_of_fmap in Hin as (tm0 & E0 & Hin).
    rewrite Forall_forall in Hid. specialize (Hid tm0 Hin). lia.
  - rewrite Hq. apply Forall_app. split.
    + destruct (pending e') as [tm'|] eqn:E'; simpl; [|constructor].
      destruct (Hnew tm' eq_refl) as (Hid' & Hlt & _).
      repeat constructor. lia.
    + eapply Forall_impl; [exact Hid|]. simpl. intros; lia.
  - rewrite Hq, Hnow. apply Forall_app. split; [|exact Hmin].
    destruct (pending e') as [tm'|] eqn:E'; simpl; [|constructor].
    destruct (Hnew tm' eq_refl) as (_ & _ & Hd). repeat constructor. lia.
  - assert (Hall : forall e0, born e0 < due tm /\
               Forall (fun tm0 => born e0 < due tm0) Q ->
               Forall (fun tm0 => born e0 < due tm0)
                 (omap pending (G1 ++ e' :: G2))).
    { intros e0 [H0 HQ]. rewrite Hq. apply Forall_app. split; [|exact HQ].
      destruct (pending e') as [tm'|] eqn:E'; simpl; [|constructor].
      destruct (Hnew tm' eq_refl) as (_ & _ & Hd). repeat constructor. lia. }
    rewrite Forall_app, Forall_cons in Hborn'.
    destruct Hborn' as (HB1 & HBe & HB2).
    rewrite Forall_app, Forall_cons. split; [|split].
    + eapply Forall_impl; [exact HB1|exact Hall].
    + apply Hall. rewrite Hb. exact HBe.
    + eapply Forall_impl; [exact HB2|exact Hall].
  - rewrite Hnow. rewrite Forall_app, Forall_cons in Hr.
    destruct Hr as (Hr1 & _ & Hr2).
    assert (Hmono : forall e0, reached (now w) e0 -> reached (due tm) e0).
    { intros e0 [H0 H1]. split; [lia|].
      destruct (what e0), (stage e0); try exact I; try contradiction; lia. }
    rewrite Forall_app, Forall_cons. split; [|split].
    + eapply Forall_impl; [exact Hr1|exact Hmono].
    + exact Hre.
    + eapply Forall_impl; [exact Hr2|exact Hmono].
Qed.

(** The entry once its timer has run. *)
Definition progress (h : nat) (e : entry) : entry :=
  match what e, stage e with
  | Banner _ _ _, Fresh =>
      {| born := born e; what := what e; stage := Leaving; handle := h |}
  | _, _ =>
      {| born := born e; what := what e; stage := Done; handle := handle e |}
  end.

Lemma bind_mid {A B} (f : A -> list B) (l1 : list A) (x : A) (l2 : list A) :
  (l1 ++ x :: l2) ≫= f = (l1 ≫= f) ++ f x ++ (l2 ≫= f).
Proof. rewrite bind_app, bind_cons. reflexivity. Qed.

Lemma banner_nodes G :
  Forall (fun c => fst c ∈ G ≫= node_of) (G ≫= banner_of).
Proof.
  induction G as [|e G IH]; [constructor|].
  rewrite !bind_cons. apply Forall_app. split.
  - unfold banner_of, node_of.
    destruct (what e), (stage e); repeat constructor;
      simpl; apply elem_of_app; left; left.
  - eapply Forall_impl; [exact IH|]. simpl. intros c Hc.
    apply elem_of_app. right. exact Hc.
Qed.

Lemma style_nodes G :
  Forall (fun c => fst c ∈ G ≫= node_of) (G ≫= style_of).
Proof.
  induction G as [|e G IH]; [constructor|].
  rewrite !bind_cons. apply Forall_app. split.
  - unfold style_of, node_of.
    destruct (what e), (stage e); repeat constructor;
      simpl; apply elem_of_app; left; left.
  - eapply Forall_impl; [exact IH|]. simpl. intros c Hc.
    apply elem_of_app. right. exact Hc.
Qed.

(** The node of an entry is the node of no other entry. *)
Lemma shown_fresh G1 e G2 p n :
  Shown (G1 ++ e :: G2) p -> n ∈ node_of e ->
  Forall (fun c => fst c <> n) (G1 ≫= banner_of) /\
  Forall (fun c => fst c <> n) (G2 ≫= banner_of) /\
  Forall (fun c => fst c <> n) (G1 ≫= style_of) /\
  Forall (fun c => fst c <> n) (G2 ≫= style_of).
Proof.
  intros [_ _ _ Hnd _] Hn. rewrite bind_mid in Hnd.
  apply NoDup_app in Hnd as (_ & H1 & Hnd).
  apply NoDup_app in Hnd as (_ & H2 & _).
  assert (F1 : forall m, m ∈ G1 ≫= node_of -> m <> n).
  { intros m Hm ->. apply (H1 n Hm). apply elem_of_app. left. exact Hn. }
  assert (F2 : forall m, m ∈ G2 ≫= node_of -> m <> n).
  { intros m Hm ->. apply (H2 n Hn Hm). }
  repeat split.
  - eapply Forall_impl; [apply banner_nodes|]. simpl. auto.
  - eapply Forall_impl; [apply banner_nodes|]. simpl. auto.
  - eapply Forall_impl; [apply style_nodes|]. simpl. auto.
  - eapply Forall_impl; [apply style_nodes|]. simpl. auto.
Qed.

Lemma map_key_fresh {A} (n : nat) (f : A -> A) (l : list (nat * A)) :
  Forall (fun c => fst c <> n) l ->
  map (fun c => if Nat.eqb (fst c) n then (fst c, f (snd c)) else c) l = l.
Proof.
  induction 1 as [|c l Hc _ IH]; simpl; [reflexivity|].
  destruct (Nat.eqb_spec (fst c) n); [contradiction|]. now rewrite IH.
Qed.

Lemma filter_of_mid G1 e e' G2 :
  activated e' = activated e -> cleared e' = cleared e ->
  filter_of (G1 ++ e' :: G2) = filter_of (G1 ++ e :: G2).
Proof.
  intros Ha Hc. unfold filter_of. rewrite !omap_mid, Ha, Hc. reflexivity.
Qed.

(** Once the timer of a filter entry has run, the filter counts as
    cleared if every activation came before that timer was due. *)
Lemma filter_of_cleared G1 e G2 :
  what e = Filter -> stage e = Done ->
  Forall (fun e0 => born e0 < born e + 5000) (G1 ++ e :: G2) ->
  filter_of (G1 ++ e :: G2) = "".
Proof.
  intros Hw Hs Hb. unfold filter_of.
  destruct (last (omap activated (G1 ++ e :: G2))) as [a|] eqn:El;
    [|reflexivity].
  apply last_Some_elem_of, list_elem_of_omap in El as (e0 & Hin & Ha).
  rewrite Forall_forall in Hb. specialize (Hb e0 Hin).
  unfold activated in Ha. destruct (what e0); try discriminate.
  injection Ha as <-.
  assert (Hex : existsb (fun c => born e0 <? c)
                  (omap cleared (G1 ++ e :: G2)) = true).
  { apply existsb_exists. exists (born e + 5000). split.
    - apply list_elem_of_In, list_elem_of_omap. exists e. split.
      + apply elem_of_app. right. left.
      + unfold cleared. rewrite Hw, Hs. reflexivity.
    - apply Z.ltb_lt. exact Hb. }
  rewrite Hex. reflexivity.
Qed.

Definition Rep (G : list entry) (w : eworld) : Prop :=
  Sched G w /\ Shown G (st w).

(** The page and the scheduler agree with the entries again once the
    next timer has run, and one callback fewer is left to run. *)
Lemma fire_rep G (w : eworld) tm :
  Rep G w -> next_timer (timers w) = Some tm ->
  exists G', Rep G' (fire exec tm w) /\
             now (fire exec tm w) = due tm /\
             map born G' = map born G /\ map what G' = map what G /\
             (backlog G' < backlog G)%nat.
Proof.
  intros [HS HP] Hnext.
  pose proof (next_timer_min _ _ Hnext) as Hmin.
  apply next_timer_elem in Hnext.
  rewrite (sched_timers _ _ HS) in Hnext.
  apply list_elem_of_omap in Hnext as (e & Hin & He).
  apply list_elem_of_split in Hin as (G1 & G2 & ->).
  exists (G1 ++ progress (next_id w) e :: G2).
  assert (Hdue : now w <= due tm).
  { pose proof (sched_due _ _ HS) as Hd. rewrite omap_mid, He in Hd.
    rewrite !Forall_app in Hd. destruct Hd as (_ & Hd & _).
    apply Forall_cons in Hd as [Hd _]. exact Hd. }
  assert (Hborn : Forall (fun e0 => born e0 < due tm) (G1 ++ e :: G2)).
  { eapply Forall_impl; [apply (sched_born _ _ HS)|]. simpl. intros e0 H0.
    rewrite omap_mid, He in H0. rewrite !Forall_app in H0.
    destruct H0 as (_ & H0 & _). apply Forall_cons in H0 as [H0 _].
    exact H0. }
  assert (Hreach : reached (now w) e).
  { pose proof (sched_reached _ _ HS) as Hr.
    rewrite Forall_app, Forall_cons in Hr. tauto. }
  split; [|split; [|split; [|split]]].
  - split.
    + apply (sched_step G1 e G2 _ w _ tm HS He Hmin).
      * unfold progress. destruct (what e), (stage e); reflexivity.
      * destruct Hreach as [Hb _]. unfold progress, pending in *.
        destruct (what e), (stage e); try discriminate;
          injection He as <-; split; simpl; lia.
      * unfold fire, pending in *.
        destruct (what e), (stage e); try discriminate;
          injection He as <-; simpl in *; lia.
      * unfold fire, pending in *.
        destruct (what e), (stage e); try discriminate;
          injection He as <-; simpl; lia.
      * unfold fire, progress, pending in *.
        destruct (what e), (stage e); try discriminate;
          injection He as <-; simpl in *;
          rewrite ?app_nil_r, ?Z.max_r, <- ?Z.add_assoc by lia; reflexivity.
      * intros tm'. unfold fire, progress, pending in *.
        destruct (what e), (stage e); try discriminate;
          injection He as <-; simpl; try discriminate.
        intros [= <-]. simpl. repeat split; lia.
    + pose proof (fun n => shown_fresh G1 e G2 (st w) n HP) as Hfresh.
      destruct HP as [HB HH HF HN HNN].
      rewrite bind_mid in HB. rewrite bind_mid in HH.
      rewrite bind_mid in HN, HNN.
      destruct e as [b k s h]. unfold pending in He. simpl in *.
      destruct k as [n m ty| |n], s; try discriminate He;
        injection He as <-; unfold fire, progress; simpl;
        try (destruct (Hfresh n ltac:(left)) as (FB1 & FB2 & FS1 & FS2));
        constructor; simpl; rewrite ?bind_mid; simpl;
        try assumption.
      * rewrite HB, !map_app, (map_key_fresh n _ _ FB1),
          (map_key_fresh n _ _ FB2). simpl.
        rewrite Nat.eqb_refl. reflexivity.
      * rewrite HF. symmetry. apply filter_of_mid; reflexivity.
      * rewrite HB, !List.filter_app, (filter_key_fresh fst n _ FB1),
          (filter_key_fresh fst n _ FB2).
        simpl. rewrite Nat.eqb_refl. reflexivity.
      * rewrite HF. symmetry. apply filter_of_mid; reflexivity.
      * symmetry. apply filter_of_cleared; [reflexivity..|].
        rewrite Forall_app, Forall_cons in Hborn |- *. exact Hborn.
      * rewrite HH, !List.filter_app, (filter_key_fresh fst n _ FS1),
          (filter_key_fresh fst n _ FS2).
        simpl. rewrite Nat.eqb_refl. reflexivity.
      * rewrite HF. symmetry. apply filter_of_mid; reflexivity.
  - unfold fire, pending in *.
    destruct (what e), (stage e); try discriminate;
      injection He as <-; simpl in *; lia.
  - rewrite !map_app. simpl. unfold progress.
    destruct (what e), (stage e); reflexivity.
  - rewrite !map_app. simpl. unfold progress.
    destruct (what e), (stage e); reflexivity.
  - unfold backlog. rewrite !map_app, !list_sum_app. simpl.
    unfold progress, pending, remaining in *.
    destruct (what e), (stage e); try discriminate; simpl; lia.
Qed.

(** ** The clock runs on *)

Lemma reached_later t t' e : t <= t' -> reached t e -> reached t' e.
Proof.
  intros Ht [H0 H1]. split; [lia|].
  destruct (what e), (stage e); try exact I; try contradiction; lia.
Qed.

Lemma idle_rep G (w : eworld) T :
  Rep G w -> now w <= T -> Forall (fun tm => T < due tm) (timers w) ->
  Rep G (with_now (Z.max (now w) T) w).
Proof.
  intros [[Ht Hh Hid Hdue Hborn Hr] HP] HT Hq.
  rewrite Z.max_r by lia. split; [|exact HP].
  constructor; simpl; try assumption.
  - rewrite Ht in Hq. eapply Forall_impl; [exact Hq|]. simpl. intros; lia.
  - eapply Forall_impl; [exact Hr|]. intros e. apply reached_later, HT.
Qed.

(** Letting the clock run to [T] runs every callback due by then; as
    many units of fuel as there are callbacks left are enough. *)
Lemma advance_rep fuel : forall G (w : eworld) T,
  Rep G w -> (backlog G <= fuel)%nat -> now w <= T ->
  exists G' w', advance exec fuel T w = Some w' /\ Rep G' w' /\
    now w' = T /\ Forall (fun tm => T < due tm) (timers w') /\
    map born G' = map born G /\ map what G' = map what G /\
    (backlog G' <= backlog G)%nat.
Proof.
  induction fuel as [|fuel IH]; intros G w T HR Hfuel HT.
  - assert (Hq : Forall (fun tm => T < due tm) (timers w)).
    { destruct (next_timer (timers w)) as [tm|] eqn:E.
      - destruct (fire_rep G w tm HR E) as (G' & _ & _ & _ & _ & Hlt). lia.
      - apply next_timer_None in E. rewrite E. constructor. }
    exists G, (with_now (Z.max (now w) T) w). split.
    + apply advance_idle. intros tm E. apply next_timer_elem in E.
      rewrite Forall_forall in Hq. exact (Hq tm E).
    + split; [apply idle_rep; assumption|]. simpl.
      split; [lia|]. split; [exact Hq|]. split; [reflexivity|].
      split; [reflexivity|lia].
  - destruct (next_timer (timers w)) as [tm|] eqn:E.
    + destruct (Z.le_gt_cases (due tm) T) as [Hd|Hd].
      * destruct (fire_rep G w tm HR E) as (G1 & HR1 & Hn1 & Hb1 & Hw1 & Hlt).
        destruct (IH G1 (fire exec tm w) T HR1 ltac:(lia) ltac:(lia))
          as (G' & w' & Hadv & HR' & Hn' & Hq' & Hb' & Hw' & Hle').
        exists G', w'. rewrite (advance_fire exec fuel T w tm E Hd).
        split; [exact Hadv|]. split; [exact HR'|]. split; [exact Hn'|].
        split; [exact Hq'|]. split; [congruence|]. split; [congruence|lia].
      * assert (Hq : Forall (fun tm' => T < due tm') (timers w)).
        { eapply Forall_impl; [apply (next_timer_min _ _ E)|].
          simpl. intros; lia. }
        exists G, (with_now (Z.max (now w) T) w). split.
        -- apply advance_idle. intros tm' E'. congruence.
        -- split; [apply idle_rep; assumption|]. simpl.
           split; [lia|]. split; [exact Hq|]. split; [reflexivity|].
           split; [reflexivity|lia].
    + apply next_timer_None in E.
      exists G, (with_now (Z.max (now w) T) w). split.
      * apply advance_idle. rewrite E. discriminate.
      * split; [apply idle_rep; [assumption..|rewrite E; constructor]|].
        simpl. split; [lia|]. split; [rewrite E; constructor|].
        split; [reflexivity|]. split; [reflexivity|lia].
Qed.

(** ** A function is called *)

(** A new effect begins: its entry joins the others. *)
Lemma sched_add G e tm (w w' : eworld) :
  Sched G w -> Forall (fun tm0 => now w < due tm0) (timers w) ->
  pending e = Some tm -> born e = now w -> stage e = Fresh ->
  tid tm = next_id w -> now w < due tm ->
  now w' = now w -> next_id w' = S (next_id w) ->
  timers w' = timers w ++ [tm] ->
  Sched (G ++ [e]) w' /\ Forall (fun tm0 => now w' < due tm0) (timers w').
Proof.
  intros [Ht Hh Hid Hdue Hborn Hr] Hq He Hb Hs Htid Hd Hnow Hnext Hts.
  assert (Ho : omap pending (G ++ [e]) = omap pending G ++ [tm]).
  { rewrite omap_app. simpl. rewrite He. reflexivity. }
  split.
  - constructor; rewrite ?Ho, ?Hnow, ?Hnext.
    + rewrite Hts, Ht. reflexivity.
    + rewrite fmap_app. simpl. apply NoDup_app. split; [exact Hh|].
      split; [|apply NoDup_singleton].
      intros i Hi Hi'. apply list_elem_of_singleton in Hi'. subst i.
      apply list_elem_of_fmap in Hi as (tm0 & E0 & Hin).
      rewrite Forall_forall in Hid. specialize (Hid tm0 Hin). lia.
    + apply Forall_app. split.
      * eapply Forall_impl; [exact Hid|]. simpl. intros; lia.
      * apply Forall_singleton. lia.
    + apply Forall_app. split; [exact Hdue|]. apply Forall_singleton. lia.
    + apply Forall_app. split.
      * rewrite Forall_forall in Hborn, Hr |- *. intros e0 Hin.
        apply Forall_app. split; [apply Hborn, Hin|].
        apply Forall_singleton. destruct (Hr e0 Hin) as [H0 _]. lia.
      * apply Forall_singleton, Forall_app. split.
        -- rewrite <- Ht. eapply Forall_impl; [exact Hq|].
           simpl. intros; lia.
        -- apply Forall_singleton. lia.
    + apply Forall_app. split; [exact Hr|]. apply Forall_singleton.
      split; [lia|]. rewrite Hs. destruct (what e); exact I.
  - rewrite Hts, Hnow. apply Forall_app. split; [exact Hq|].
    apply Forall_singleton. exact Hd.
Qed.

Lemma sched_perm G G' (w : eworld) : G ≡ₚ G' -> Sched G w -> Sched G' w.
Proof.
  intros HG [Ht Hh Hid Hdue Hborn Hr].
  constructor; rewrite <- ?HG; try assumption.
  eapply Forall_impl; [exact Hborn|]. simpl. intros e He.
  rewrite <- HG. exact He.
Qed.

Lemma filter_of_fresh G e :
  stage e = Fresh ->
  (what e = Filter -> Forall (fun c => c <= born e) (omap cleared G)) ->
  filter_of (G ++ [e])
  = match what e with Filter => konami_filter | _ => filter_of G end.
Proof.
  intros Hs Hc. unfold filter_of. rewrite !omap_app.
  unfold activated, cleared. simpl. rewrite Hs.
  destruct (what e); simpl; rewrite ?app_nil_r; try reflexivity.
  rewrite last_snoc.
  assert (Hex : existsb (fun c => born e <? c) (omap cleared G) = false).
  { specialize (Hc eq_refl). induction Hc as [|c l Hc _ IH]; simpl;
      [reflexivity|].
    rewrite IH. destruct (Z.ltb_spec (born e) c); [lia|reflexivity]. }
  unfold cleared in Hex. rewrite Hex. reflexivity.
Qed.

Lemma shown_add G e p p' :
  Shown G p -> stage e = Fresh ->
  Forall (fun n => (next_node p <= n < next_node p')%nat) (node_of e) ->
  (next_node p <= next_node p')%nat ->
  body p' = body p ++ banner_of e ->
  head_styles p' = head_styles p ++ style_of e ->
  body_filter p'
  = match what e with Filter => konami_filter | _ => body_filter p end ->
  (what e = Filter -> Forall (fun c => c <= born e) (omap cleared G)) ->
  Shown (G ++ [e]) p'.
Proof.
  intros [HB HH HF HN HNN] Hs Hn Hle HB' HH' HF' Hc.
  constructor; rewrite ?bind_app, ?bind_singleton.
  - rewrite HB', HB. reflexivity.
  - rewrite HH', HH. reflexivity.
  - rewrite HF', HF, filter_of_fresh by assumption. reflexivity.
  - apply NoDup_app. split; [exact HN|]. split.
    + intros n Hin Hin'. rewrite Forall_forall in HNN, Hn.
      specialize (HNN n Hin). specialize (Hn n Hin'). lia.
    + unfold node_of. destruct (what e);
        [apply NoDup_singleton|apply NoDup_nil_2|apply NoDup_singleton].
  - apply Forall_app. split.
    + eapply Forall_impl; [exact HNN|]. simpl. intros; lia.
    + eapply Forall_impl; [exact Hn|]. simpl. intros; lia.
Qed.

(** The filter was cleared, if at all, by now. *)
Lemma cleared_by_now G t :
  Forall (reached t) G -> Forall (fun c => c <= t) (omap cleared G).
Proof.
  induction 1 as [|e G [_ He] _ IH]; simpl; [constructor|].
  unfold cleared at 1. destruct (what e), (stage e); try exact IH.
  constructor; [exact He|exact IH].
Qed.

(** The effects of an action, in the order in which the function
    produces them. *)
Inductive effect :=
  | EBanner (message type : string)
  | EFilter
  | EStyle.

Definition effect_of (k : kind) : effect :=
  match k with
  | Banner _ message type => EBanner message type
  | Filter => EFilter
  | Style _ => EStyle
  end.

Definition effects (a : action) : list effect :=
  match a with
  | Notify message type => [EBanner message type]
  | Konami => [EFilter; EBanner konami_message "success"]
  | Rainbow => [EStyle; EBanner rainbow_message "success"]
  end.

Definition skel (e : entry) : Z * effect := (born e, effect_of (what e)).

Definition expand (ta : Z * action) : list (Z * effect) :=
  map (pair (fst ta)) (effects (snd ta)).

Definition quiet (w : eworld) : Prop :=
  Forall (fun tm => now w < due tm) (timers w).

Ltac page_side :=
  simpl;
  first [ apply Forall_singleton; simpl; lia
        | apply Forall_nil_2
        | lia
        | discriminate
        | rewrite ?app_nil_r; reflexivity
        | assumption ].

Lemma perform_rep G (w : eworld) a :
  Rep G w -> quiet w ->
  exists E, Rep (G ++ E) (perform a w) /\ now (perform a w) = now w /\
            map skel E = expand (now w, a) /\ (backlog E <= 3)%nat.
Proof.
  intros [HS HP] Hq.
  pose proof (cleared_by_now G (now w) (sched_reached _ _ HS)) as Hc.
  destruct w as [t i ts p]. unfold quiet in Hq. simpl in *.
  destruct a as [message type| |].
  - set (e := {| born := t; what := Banner (next_node p) message type;
                 stage := Fresh; handle := i |}).
    exists [e]. split; [|repeat split; cbv [backlog]; simpl; lia].
    split.
    + eapply sched_add; try eassumption; try reflexivity. simpl. lia.
    + simpl. eapply shown_add; try eassumption; try reflexivity;
        page_side.
  - set (eb := {| born := t;
                  what := Banner (next_node p) konami_message "success";
                  stage := Fresh; handle := i |}).
    set (ef := {| born := t; what := Filter; stage := Fresh;
                  handle := S i |}).
    exists [ef; eb]. split; [|repeat split; cbv [backlog]; simpl; lia].
    destruct (sched_add G eb
                {| tid := i; due := t + 3000; cb := SlideOut (next_node p) |}
                {| now := t; next_id := i; timers := ts; st := p |}
                {| now := t; next_id := S i;
                   timers := ts ++ [{| tid := i; due := t + 3000;
                                       cb := SlideOut (next_node p) |}];
                   st := p |})
      as [HS1 Hq1]; try assumption; try reflexivity; [simpl; lia|].
    split.
    + apply (sched_perm ((G ++ [eb]) ++ [ef])).
      { rewrite <- !app_assoc. apply Permutation_app_head.
        apply Permutation_app_comm. }
      eapply sched_add; try eassumption; try reflexivity. simpl. lia.
    + change (G ++ [ef; eb]) with (G ++ [ef] ++ [eb]). rewrite app_assoc.
      simpl.
      eapply (shown_add (G ++ [ef]) eb
                {| next_node := next_node p;
                   body := body p;
                   body_filter := konami_filter;
                   head_styles := head_styles p |});
        try reflexivity; try page_side.
      eapply shown_add; try eassumption; try reflexivity; try page_side.
      intros _. exact Hc.
  - set (eb := {| born := t;
                  what := Banner (S (next_node p)) rainbow_message "success";
                  stage := Fresh; handle := i |}).
    set (es := {| born := t; what := Style (next_node p); stage := Fresh;
                  handle := S i |}).
    exists [es; eb]. split; [|repeat split; cbv [backlog]; simpl; lia].
    destruct (sched_add G eb
                {| tid := i; due := t + 3000;
                   cb := SlideOut (S (next_node p)) |}
                {| now := t; next_id := i; timers := ts; st := p |}
                {| now := t; next_id := S i;
                   timers := ts ++ [{| tid := i; due := t + 3000;
                                       cb := SlideOut (S (next_node p)) |}];
                   st := p |})
      as [HS1 Hq1]; try assumption; try reflexivity; [simpl; lia|].
    split.
    + apply (sched_perm ((G ++ [eb]) ++ [es])).
      { rewrite <- !app_assoc. apply Permutation_app_head.
        apply Permutation_app_comm. }
      eapply sched_add; try eassumption; try reflexivity. simpl. lia.
    + change (G ++ [es; eb]) with (G ++ [es] ++ [eb]). rewrite app_assoc.
      simpl.
      eapply (shown_add (G ++ [es]) eb
                {| next_node := S (next_node p);
                   body := body p;
                   body_filter := body_filter p;
                   head_styles := head_styles p
                                  ++ [(next_node p, rainbow_css)] |});
        try reflexivity; try page_side.
      eapply shown_add; try eassumption; try reflexivity; page_side.
Qed.

(** ** A whole schedule *)

Lemma skel_same G : forall G',
  map born G' = map born G -> map what G' = map what G ->
  map skel G' = map skel G.
Proof.
  induction G as [|e G IH]; intros [|e' G']; simpl; try discriminate;
    [reflexivity|].
  intros [= Hb Hbs] [= Hw Hws]. unfold skel at 1 3.
  rewrite Hb, Hw, (IH G' Hbs Hws). reflexivity.
Qed.

Lemma last_cons_default {A} (x d : A) (l : list A) :
  List.last (x :: l) d = List.last l x.
Proof.
  revert x d. induction l as [|y l IH]; intros x d; [reflexivity|].
  change (List.last (y :: l) d = List.last (y :: l) x).
  rewrite (IH y d), (IH y x). reflexivity.
Qed.

Lemma run_rep schedule : forall G (w : eworld) T fuel,
  Rep G w -> ordered (now w) schedule ->
  List.last (map fst schedule) (now w) <= T ->
  (backlog G + 3 * length schedule <= fuel)%nat ->
  exists G' w', run fuel schedule T w = Some w' /\ Rep G' w' /\
    now w' = T /\ quiet w' /\
    map skel G' = map skel G ++ (schedule ≫= expand).
Proof.
  induction schedule as [|[t a] schedule IH]; intros G w T fuel HR Ho HT Hf.
  - simpl in *.
    destruct (advance_rep fuel G w T HR ltac:(lia) HT)
      as (G' & w' & Hadv & HR' & Hn' & Hq' & Hb' & Hw' & _).
    exists G', w'. split; [exact Hadv|]. split; [exact HR'|].
    split; [exact Hn'|]. split; [unfold quiet; rewrite Hn'; exact Hq'|].
    rewrite app_nil_r. apply skel_same; assumption.
  - destruct Ho as [Ht Ho]. cbn [map fst length] in HT, Hf.
    rewrite last_cons_default in HT.
    destruct (advance_rep fuel G w t HR ltac:(lia) Ht)
      as (G1 & w1 & Hadv & HR1 & Hn1 & Hq1 & Hb1 & Hw1 & Hle1).
    rewrite <- Hn1 in Hq1.
    destruct (perform_rep G1 w1 a HR1 Hq1) as (E & HR2 & Hn2 & Hs2 & Hle2).
    destruct (IH (G1 ++ E) (perform a w1) T fuel HR2) as
      (G' & w' & Hrun & HR' & Hn' & Hq' & Hs').
    + rewrite Hn2, Hn1. exact Ho.
    + rewrite Hn2, Hn1. exact HT.
    + unfold backlog in *. rewrite map_app, list_sum_app. lia.
    + exists G', w'. cbn [run]. rewrite Hadv.
      split; [exact Hrun|]. split; [exact HR'|]. split; [exact Hn'|].
      split; [exact Hq'|].
      rewrite Hs', map_app, Hs2, Hn1, (skel_same G G1 Hb1 Hw1), bind_cons,
        <- app_assoc.
      reflexivity.
Qed.

Lemma init_rep t0 : Rep [] (init t0).
Proof.
  split; constructor; simpl; try constructor; reflexivity.
Qed.

(** ** The page at a quiet moment *)

(** How far an effect that began at [fst s] has got at time [T]. *)
Definition stage_at (T : Z) (s : Z * effect) : phase :=
  match snd s with
  | EBanner _ _ =>
      if T <? fst s + 3000 then Fresh
      else if T <? fst s + 3300 then Leaving else Done
  | EFilter => if T <? fst s + 5000 then Fresh else Done
  | EStyle => if T <? fst s + 10000 then Fresh else Done
  end.

Lemma settled G (w : eworld) :
  Rep G w -> quiet w ->
  Forall (fun e => stage e = stage_at (now w) (skel e)) G.
Proof.
  intros [[Ht _ _ _ _ Hr] _] Hq. unfold quiet in Hq. rewrite Ht in Hq.
  rewrite Forall_forall in Hq. rewrite Forall_forall in Hr |- *.
  intros e Hin. destruct (Hr e Hin) as [Hb Hs].
  assert (Hp : forall tm, pending e = Some tm -> now w < due tm).
  { intros tm He. apply Hq, list_elem_of_omap. eauto. }
  unfold stage_at, skel, pending in *. simpl.
  destruct (what e), (stage e); simpl in *; try contradiction;
    try specialize (Hp _ eq_refl); simpl in *;
    repeat match goal with
           | |- context [?a <? ?b] => destruct (Z.ltb_spec a b)
           end; try reflexivity; lia.
Qed.

Definition banner_at (T : Z) (s : Z * effect) : list element :=
  match snd s with
  | EBanner message type =>
      match stage_at T s with
      | Fresh => [notification message type]
      | Leaving => [with_animation slideOut (notification message type)]
      | Done => []
      end
  | _ => []
  end.

Definition style_at (T : Z) (s : Z * effect) : list string :=
  match snd s with
  | EStyle => match stage_at T s with Fresh => [rainbow_css] | _ => [] end
  | _ => []
  end.

Definition set_at (s : Z * effect) : option Z :=
  match snd s with EFilter => Some (fst s) | _ => None end.

Definition cleared_at (T : Z) (s : Z * effect) : option Z :=
  match snd s with
  | EFilter =>
      match stage_at T s with Done => Some (fst s + 5000) | _ => None end
  | _ => None
  end.

Lemma body_settled G T :
  Forall (fun e => stage e = stage_at T (skel e)) G ->
  map snd (G ≫= banner_of) = map skel G ≫= banner_at T.
Proof.
  induction 1 as [|e G He _ IH]; [reflexivity|].
  cbn [map]. rewrite !bind_cons, map_app, IH. f_equal.
  unfold banner_of, banner_at. rewrite <- He. unfold skel. simpl.
  destruct (what e), (stage e); reflexivity.
Qed.

Lemma head_settled G T :
  Forall (fun e => stage e = stage_at T (skel e)) G ->
  map snd (G ≫= style_of) = map skel G ≫= style_at T.
Proof.
  induction 1 as [|e G He _ IH]; [reflexivity|].
  cbn [map]. rewrite !bind_cons, map_app, IH. f_equal.
  unfold style_of, style_at. rewrite <- He. unfold skel. simpl.
  destruct (what e), (stage e); reflexivity.
Qed.

Lemma filter_settled G T :
  Forall (fun e => stage e = stage_at T (skel e)) G ->
  omap activated G = omap set_at (map skel G) /\
  omap cleared G = omap (cleared_at T) (map skel G).
Proof.
  induction 1 as [|e G He _ [IH1 IH2]]; [split; reflexivity|].
  cbn [map omap list_omap]. fold (omap activated G) (omap cleared G).
  fold (omap set_at (map skel G)) (omap (cleared_at T) (map skel G)).
  rewrite IH1, IH2.
  unfold activated, cleared, set_at, cleared_at. rewrite <- He.
  unfold skel. simpl. destruct (what e), (stage e); split; reflexivity.
Qed.

Lemma bind_bind {A B C} (f : A -> list B) (g : B -> list C) (l : list A) :
  (l ≫= f) ≫= g = l ≫= (fun x => f x ≫= g).
Proof.
  induction l as [|x l IH]; [reflexivity|].
  rewrite !bind_cons, bind_app, IH. reflexivity.
Qed.

Lemma expand_banners T schedule :
  (schedule ≫= expand) ≫= banner_at T = banners_at T schedule.
Proof.
  unfold banners_at. rewrite bind_bind.
  apply list_bind_ext; [|reflexivity]. intros [t a].
  unfold expand, banner_at, stage_at. destruct a; simpl;
    destruct (T <? t + 3000), (T <? t + 3300); reflexivity.
Qed.

Lemma expand_styles T schedule :
  (schedule ≫= expand) ≫= style_at T = styles_at T schedule.
Proof.
  unfold styles_at. rewrite bind_bind.
  apply list_bind_ext; [|reflexivity]. intros [t a].
  unfold expand, style_at, stage_at. destruct a; simpl;
    try destruct (T <? t + 10000); reflexivity.
Qed.

Lemma expand_set schedule :
  omap set_at (schedule ≫= expand) = konami_times schedule.
Proof.
  induction schedule as [|[t a] schedule IH]; [reflexivity|].
  rewrite bind_cons, omap_app, IH. destruct a; reflexivity.
Qed.

Lemma expand_cleared T schedule :
  omap (cleared_at T) (schedule ≫= expand)
  = omap (fun t => if T <? t + 5000 then None else Some (t + 5000))
      (konami_times schedule).
Proof.
  induction schedule as [|[t a] schedule IH]; [reflexivity|].
  rewrite bind_cons, omap_app, IH.
  destruct a; try reflexivity.
  unfold expand, cleared_at, stage_at. simpl.
  destruct (T <? t + 5000); reflexivity.
Qed.

Lemma existsb_cleared a T K :
  existsb (fun c => a <? c)
    (omap (fun t => if T <? t + 5000 then None else Some (t + 5000)) K)
  = existsb (fun t => (a <? t + 5000) && (t + 5000 <=? T)) K.
Proof.
  induction K as [|t K IH]; [reflexivity|]. simpl.
  change (list_omap Z Z) with (@omap list _ Z Z).
  destruct (Z.ltb_spec T (t + 5000)), (Z.leb_spec (t + 5000) T); try lia;
    simpl; rewrite IH; [rewrite andb_false_r|rewrite andb_true_r];
    reflexivity.
Qed.

(** The page once the schedule has run and the clock reads [T]. *)
Lemma run_page schedule t0 T fuel :
  ordered t0 schedule -> List.last (map fst schedule) t0 <= T ->
  (3 * length schedule <= fuel)%nat ->
  exists w, run fuel schedule T (init t0) = Some w /\ now w = T /\
    map snd (body (st w)) = banners_at T schedule /\
    body_filter (st w) = filter_at T schedule /\
    map snd (head_styles (st w)) = styles_at T schedule /\
    (Forall (fun ta => fst ta + 10000 <= T) schedule -> timers w = []).
Proof.
  intros Ho HT Hf.
  destruct (run_rep schedule [] (init t0) T fuel (init_rep t0) Ho HT
              ltac:(simpl; lia))
    as (G & w & Hrun & HR & Hn & Hq & Hs).
  simpl in Hs. pose proof (settled G w HR Hq) as Hset. rewrite Hn in Hset.
  destruct HR as [HS [HB HH HF _ _]].
  exists w. split; [exact Hrun|]. split; [exact Hn|].
  split; [|split; [|split]].
  - rewrite HB, (body_settled G T Hset), Hs. apply expand_banners.
  - rewrite HF. unfold filter_of, filter_at.
    destruct (filter_settled G T Hset) as [-> ->].
    rewrite Hs, expand_set, expand_cleared.
    destruct (last (konami_times schedule)) as [a|]; [|reflexivity].
    rewrite existsb_cleared. reflexivity.
  - rewrite HH, (head_settled G T Hset), Hs. apply expand_styles.
  - intros Hall. apply Permutation_nil. rewrite (sched_timers _ _ HS).
    assert (Hsk : Forall (fun s => fst s + 10000 <= T) (map skel G)).
    { rewrite Hs. clear -Hall. induction Hall as [|[t a] l Ht _ IH];
        [constructor|].
      rewrite bind_cons. apply Forall_app. split; [|exact IH].
      unfold expand. destruct a; repeat constructor; exact Ht. }
    clear -Hset Hsk. induction Hset as [|e G He _ IH]; [reflexivity|].
    cbn [map] in Hsk. apply Forall_cons in Hsk as [Hk Hsk].
    cbn [omap list_omap]. fold (omap pending G). rewrite (IH Hsk).
    unfold pending. rewrite He. unfold stage_at, skel in *. simpl in *.
    destruct (what e); simpl;
      repeat match goal with
             | |- context [?a <? ?b] => destruct (Z.ltb_spec a b)
             end; try reflexivity; lia.
Qed.

Lemma ordered_last t0 schedule :
  ordered t0 schedule ->
  t0 <= List.last (map fst schedule) t0 /\
  Forall (fun ta => fst ta <= List.last (map fst schedule) t0) schedule.
Proof.
  revert t0. induction schedule as [|[t a] schedule IH]; intros t0 Ho.
  - simpl. split; [lia|constructor].
  - destruct Ho as [Ht Ho]. cbn [map fst]. rewrite last_cons_default.
    destruct (IH t Ho) as [Hl Hall]. split; [lia|].
    constructor; [exact Hl|exact Hall].
Qed.

(** ** Banners *)

(** Let the three functions be called at times that do not decrease.
    At any time [T] from the last call on, the body holds, in call
    order, exactly the banners of the calls made less than 3300 ms
    before [T]: sliding in when the call was less than 3000 ms ago,
    sliding out after that.  A banner neither delays nor removes
    another one, and all of them sit at the same fixed position, so
    banners shown at the same time cover each other. *)
Theorem banners_leave_after_3300_ms schedule t0 T fuel :
  ordered t0 schedule -> List.last (map fst schedule) t0 <= T ->
  (3 * length schedule <= fuel)%nat ->
  exists w, run fuel schedule T (init t0) = Some w /\
    map snd (body (st w)) = banners_at T schedule /\
    Forall (fun el => position (style el) = "fixed" /\
                      top (style el) = "100px" /\
                      right (style el) = "20px")
      (map snd (body (st w))).
Proof.
  intros Ho HT Hf.
  destruct (run_page schedule t0 T fuel Ho HT Hf)
    as (w & Hrun & _ & Hb & _).
  exists w. split; [exact Hrun|]. split; [exact Hb|].
  rewrite Hb. unfold banners_at. clear.
  induction schedule as [|[t a] schedule IH]; [constructor|].
  simpl. apply Forall_app. split; [|exact IH].
  destruct a, (T <? t + 3000); try destruct (T <? t + 3300);
    repeat constructor.
Qed.

(** Three calls; at time 3200 the first banner slides out and the other
    two are still sliding in. *)
Lemma banners_leave_after_3300_ms_witness :
  exists w,
    run 9 [(0, Notify "a" "info"); (1000, Konami); (3100, Rainbow)] 3200
      (init 0) = Some w /\
    map (fun el => (textContent el, animation (style el)))
      (map snd (body (st w)))
    = [("a", slideOut);
       (konami_message, "slideIn 0.3s ease-out");
       (rainbow_message, "slideIn 0.3s ease-out")].
Proof.
  destruct (banners_leave_after_3300_ms
              [(0, Notify "a" "info"); (1000, Konami); (3100, Rainbow)]
              0 3200 9) as (w & Hrun & Hb & _);
    [simpl; lia|simpl; lia|simpl; lia|].
  exists w. split; [exact Hrun|].
  rewrite Hb. reflexivity.
Defined.

(** ** The Konami filter *)

(** At any time [T] from the last call on, the body's filter is the one
    of the Konami effect or empty.  It is empty as soon as the timer of
    any activation has run since the last activation: an activation
    made while the timer of an earlier one is pending loses its filter
    when that earlier timer runs, less than 5000 ms after it was made.
    It is set when the timers of all activations either ran before the
    last activation or are still pending. *)
Theorem konami_filter_ends_with_the_next_timer schedule t0 T fuel :
  ordered t0 schedule -> List.last (map fst schedule) t0 <= T ->
  (3 * length schedule <= fuel)%nat ->
  exists w, run fuel schedule T (init t0) = Some w /\
    body_filter (st w) = filter_at T schedule /\
    (konami_times schedule = [] -> body_filter (st w) = "") /\
    (forall a t,
        last (konami_times schedule) = Some a ->
        In t (konami_times schedule) -> a < t + 5000 <= T ->
        body_filter (st w) = "") /\
    (forall a,
        last (konami_times schedule) = Some a ->
        (forall t, In t (konami_times schedule) ->
                   t + 5000 <= a \/ T < t + 5000) ->
        body_filter (st w) = konami_filter).
Proof.
  intros Ho HT Hf.
  destruct (run_page schedule t0 T fuel Ho HT Hf)
    as (w & Hrun & _ & _ & Hfl & _).
  exists w. split; [exact Hrun|]. split; [exact Hfl|].
  rewrite Hfl. unfold filter_at. split; [|split].
  - intros ->. reflexivity.
  - intros a t -> Hin Ht.
    assert (Hex : existsb (fun t => (a <? t + 5000) && (t + 5000 <=? T))
                    (konami_times schedule) = true).
    { apply existsb_exists. exists t. split; [exact Hin|].
      apply andb_true_iff. split; [apply Z.ltb_lt|apply Z.leb_le]; lia. }
    rewrite Hex. reflexivity.
  - intros a -> Hall.
    assert (Hex : existsb (fun t => (a <? t + 5000) && (t + 5000 <=? T))
                    (konami_times schedule) = false).
    { apply not_true_is_false. intros Hex.
      apply existsb_exists in Hex as (t & Hin & Ht).
      apply andb_true_iff in Ht as [H1 H2].
      apply Z.ltb_lt in H1. apply Z.leb_le in H2.
      destruct (Hall t Hin); lia. }
    rewrite Hex. reflexivity.
Qed.

(** Activations at 0 and at 2000: at time 5000, which is 3000 ms after
    the second activation, the filter is cleared. *)
Lemma konami_filter_ends_with_the_next_timer_witness :
  exists w,
    run 6 [(0, Konami); (2000, Konami)] 5000 (init 0) = Some w /\
    body_filter (st w) = "".
Proof.
  destruct (konami_filter_ends_with_the_next_timer
              [(0, Konami); (2000, Konami)] 0 5000 6)
    as (w & Hrun & _ & _ & Hoff & _);
    [simpl; lia|simpl; lia|simpl; lia|].
  exists w. split; [exact Hrun|].
  apply (Hoff 2000 0); [reflexivity|left; reflexivity|lia].
Defined.

(** ** The rainbow style *)

(** At any time [T] from the last call on, the head holds one style
    element for each activation of the rainbow mode less than 10000 ms
    before [T], and no other: activations made while the mode is on add
    a further copy of the style, and each copy is removed 10000 ms after
    its own activation. *)
Theorem rainbow_styles_leave_after_10000_ms schedule t0 T fuel :
  ordered t0 schedule -> List.last (map fst schedule) t0 <= T ->
  (3 * length schedule <= fuel)%nat ->
  exists w, run fuel schedule T (init t0) = Some w /\
    map snd (head_styles (st w)) = styles_at T schedule.
Proof.
  intros Ho HT Hf.
  destruct (run_page schedule t0 T fuel Ho HT Hf)
    as (w & Hrun & _ & _ & _ & Hh & _).
  exists w. split; [exact Hrun|exact Hh].
Qed.

(** Activations at 0 and at 4000: two copies at 9999, one at 10000. *)
Lemma rainbow_styles_leave_after_10000_ms_witness :
  (exists w, run 6 [(0, Rainbow); (4000, Rainbow)] 9999 (init 0) = Some w /\
             map snd (head_styles (st w)) = [rainbow_css; rainbow_css]) /\
  (exists w, run 6 [(0, Rainbow); (4000, Rainbow)] 10000 (init 0) = Some w /\
             map snd (head_styles (st w)) = [rainbow_css]).
Proof.
  split.
  - apply (rainbow_styles_leave_after_10000_ms
             [(0, Rainbow); (4000, Rainbow)] 0 9999 6); simpl; lia.
  - apply (rainbow_styles_leave_after_10000_ms
             [(0, Rainbow); (4000, Rainbow)] 0 10000 6); simpl; lia.
Defined.

(** ** Everything wears off *)

(** 10000 ms after the last call the page is as it was before the
    first: no banner, no filter, no added style element, and no timer
    is pending. *)
Theorem effects_wear_off schedule t0 T fuel :
  ordered t0 schedule -> List.last (map fst schedule) t0 + 10000 <= T ->
  (3 * length schedule <= fuel)%nat ->
  exists w, run fuel schedule T (init t0) = Some w /\
    body (st w) = [] /\ body_filter (st w) = "" /\
    head_styles (st w) = [] /\ timers w = [].
Proof.
  intros Ho HT Hf.
  destruct (ordered_last t0 schedule Ho) as [_ Hall].
  assert (Hold : Forall (fun ta => fst ta + 10000 <= T) schedule).
  { eapply Forall_impl; [exact Hall|]. simpl. intros; lia. }
  destruct (run_page schedule t0 T fuel Ho ltac:(lia) Hf)
    as (w & Hrun & _ & Hb & Hfl & Hh & Hts).
  exists w. split; [exact Hrun|].
  assert (HB : banners_at T schedule = []).
  { clear -Hold. unfold banners_at.
    induction Hold as [|[t a] l Ht _ IH]; [reflexivity|]. simpl in *.
    rewrite IH. destruct (Z.ltb_spec T (t + 3000)); [lia|].
    destruct (Z.ltb_spec T (t + 3300)); [lia|reflexivity]. }
  assert (HS : styles_at T schedule = []).
  { clear -Hold. unfold styles_at.
    induction Hold as [|[t a] l Ht _ IH]; [reflexivity|]. simpl in *.
    rewrite IH. destruct a; try reflexivity.
    destruct (Z.ltb_spec T (t + 10000)); [lia|reflexivity]. }
  assert (HK : Forall (fun t => t + 10000 <= T) (konami_times schedule)).
  { clear -Hold. unfold konami_times.
    induction Hold as [|[t a] l Ht _ IH]; [constructor|]. simpl in *.
    destruct a; simpl; try exact IH. constructor; [exact Ht|exact IH]. }
  rewrite HB in Hb. rewrite HS in Hh.
  split; [|split; [|split]].
  - destruct (body (st w)); [reflexivity|discriminate].
  - rewrite Hfl. unfold filter_at.
    destruct (last (konami_times schedule)) as [a|] eqn:El; [|reflexivity].
    assert (Hex : existsb (fun t => (a <? t + 5000) && (t + 5000 <=? T))
                    (konami_times schedule) = true).
    { apply existsb_exists. exists a.
      apply last_Some_elem_of in El.
      rewrite Forall_forall in HK. specialize (HK a El).
      split; [apply list_elem_of_In; exact El|].
      apply andb_true_iff. split; [apply Z.ltb_lt|apply Z.leb_le]; lia. }
    rewrite Hex. reflexivity.
  - destruct (head_styles (st w)); [reflexivity|discriminate].
  - apply Hts, Hold.
Qed.

(** All three effects, looked at 10000 ms after the last. *)
Lemma effects_wear_off_witness :
  exists w,
    run 9 [(0, Konami); (2000, Rainbow); (2500, Notify "a" "error")] 12500
      (init 0) = Some w /\
    body (st w) = [] /\ body_filter (st w) = "" /\
    head_styles (st w) = [] /\ timers w = [].
Proof.
  apply (effects_wear_off
           [(0, Konami); (2000, Rainbow); (2500, Notify "a" "error")]
           0 12500 9); simpl; lia.
Defined.

End Effects.

(* ===================================================================== *)
(** * The scroll listener behind its [debounce] *)
(* ===================================================================== *)

(** [window.addEventListener('scroll', debounce(() => {...}, 1000))]:
    the listener registered for scroll events is the wrapper that
    [debounce] returns.  The wrapped function ignores the event and
    reads the scroll position of the page when it runs, so what it sees
    is the position at the time its timer fires. *)
Module ScrollTracking.
Import EventLoop.

Section Tracking.

(** The rounded scroll percentage of the page, as it changes with
    time. *)
Variable scrollDepth : Z -> Z.

(** The scroll events, each handed to the wrapper. *)
Definition calls (events : list Z) : list (Z * unit) :=
  map (fun t => (t, tt)) events.

(** The runs of the wrapped function, each on the page of its time. *)
Definition listener (runs : list (Z * unit)) : Analytics.state :=
  Analytics.scroll (map (fun c => scrollDepth (fst c)) runs) Analytics.init.

(** Scroll events at the given times on a page loaded at [t0], looked
    at when the clock reads [horizon]. *)
Definition track (fuel : nat) (events : list Z) (horizon t0 : Z)
    : option Analytics.state :=
  match Debounce.run 1000 fuel (calls events) horizon (Debounce.init t0) with
  | Some w => Some (listener (Debounce.invoked (st w)))
  | None => None
  end.

(** Event times that do not decrease. *)
Fixpoint ordered (t : Z) (events : list Z) : Prop :=
  match events with
  | [] => True
  | t' :: events' => t <= t' /\ ordered t' events'
  end.

(** One uninterrupted scroll: each event comes less than 1000 ms after
    the one before. *)
Fixpoint unbroken (t : Z) (events : list Z) : Prop :=
  match events with
  | [] => True
  | t' :: events' => t <= t' < t + 1000 /\ unbroken t' events'
  end.

Lemma ordered_calls t events :
  ordered t events -> Debounce.ordered t (calls events).
Proof.
  revert t. induction events as [|t' events IH]; intros t; simpl; [tauto|].
  intros [Ht Ho]. split; [exact Ht|apply IH, Ho].
Qed.

Lemma surviving_unbroken events : forall t,
  unbroken t events ->
  Debounce.surviving 1000 (calls (t :: events))
  = [(List.last events t + 1000, tt)].
Proof.
  induction events as [|t' events IH]; intros t Hu; [reflexivity|].
  destruct Hu as [Ht Hu]. specialize (IH t' Hu).
  change (Debounce.surviving 1000 (calls (t :: t' :: events)))
    with (if t + 1000 <=? t'
          then (t + 1000, tt) :: Debounce.surviving 1000 (calls (t' :: events))
          else Debounce.surviving 1000 (calls (t' :: events))).
  destruct (Z.leb_spec (t + 1000) t'); [lia|]. rewrite IH.
  rewrite Effects.last_cons_default. reflexivity.
Qed.

Lemma track_runs t0 t events fuel horizon :
  t0 <= t -> ordered t events -> List.last events t + 1000 <= horizon ->
  track (S fuel) (t :: events) horizon t0
  = Some (listener (Debounce.surviving 1000 (calls (t :: events)))).
Proof.
  intros Ht0 Ho Hh. unfold track. cbn [calls map Debounce.run].
  rewrite advance_idle by (simpl; discriminate).
  set (w0 := with_now (Z.max (now (Debounce.init (Args := unit) t0)) t)
               (Debounce.init t0)).
  destruct (Debounce.run_any 1000 fuel (calls events) [] t tt horizon
              (Debounce.executedFunction 1000 tt w0))
    as (w & Hrun & Hinv & _).
  - lia.
  - apply (Debounce.call_when_idle 1000 t tt w0);
      [lia|simpl; lia|reflexivity].
  - apply ordered_calls, Ho.
  - assert (E : forall t, fst (List.last (calls events) (t, tt))
                           = List.last events t).
    { clear. induction events as [|x events IH]; intros t; [reflexivity|].
      cbn [calls map]. rewrite !Effects.last_cons_default. apply IH. }
    rewrite E. exact Hh.
  - unfold calls in Hrun. rewrite Hrun, Hinv. reflexivity.
Qed.

End Tracking.

(** The wrapped function runs once for each pause of 1000 ms or more
    in the scrolling, on the page as it is at the end of that pause.
    So one uninterrupted scroll, however far it goes, is looked at
    once, 1000 ms after its last event: the recorded maximum becomes
    the depth [d] of that moment, and the only line that can be logged
    is [d] itself, when it is a positive multiple of 25.  No milestone
    passed on the way is logged. *)
Theorem unbroken_scroll_is_looked_at_once (scrollDepth : Z -> Z)
    (t0 t : Z) (events : list Z) (fuel : nat) (horizon : Z) :
  t0 <= t -> ordered t events -> List.last events t + 1000 <= horizon ->
  exists s, track scrollDepth (S fuel) (t :: events) horizon t0 = Some s /\
    s = listener scrollDepth (Debounce.surviving 1000 (calls (t :: events)))
    /\
    (unbroken t events ->
     Analytics.maxScrollDepth s
     = Z.max 0 (scrollDepth (List.last events t + 1000)) /\
     Analytics.logged s
     = if (0 <? scrollDepth (List.last events t + 1000)) &&
          (Z.rem (scrollDepth (List.last events t + 1000)) 25 =? 0)
       then [scrollDepth (List.last events t + 1000)] else []).
Proof.
  intros Ht0 Ho Hh. eexists. split; [apply track_runs; assumption|].
  split; [reflexivity|]. intros Hu.
  rewrite surviving_unbroken by exact Hu.
  unfold listener, Analytics.scroll, Analytics.onScroll. simpl.
  set (d := scrollDepth (List.last events t + 1000)).
  destruct (Z.gtb_spec d 0), (Z.ltb_spec 0 d); try lia; simpl.
  - destruct (Z.rem d 25 =? 0); simpl; split; try reflexivity; lia.
  - split; [lia|reflexivity].
Qed.

(** A scroll from the top to the bottom with an event every 300 ms, on
    a page whose depth grows with time up to 100: the position is read
    once, at the bottom. *)
Lemma unbroken_scroll_is_looked_at_once_witness :
  exists s,
    track (fun t => Z.min 100 (t / 5)) 1 [0; 300; 600; 900; 1200] 5000 0
    = Some s /\
    Analytics.maxScrollDepth s = 100 /\ Analytics.logged s = [100].
Proof.
  destruct (unbroken_scroll_is_looked_at_once (fun t => Z.min 100 (t / 5))
              0 0 [300; 600; 900; 1200] 0 5000)
    as (s & Hrun & _ & Hone); [lia|simpl; lia|simpl; lia|].
  exists s. split; [exact Hrun|]. apply Hone. simpl. lia.
Defined.

End ScrollTracking.

(* ===================================================================== *)
(** * [AnimationManager.animateCounter] *)
(* ===================================================================== *)

(** The counter of a statistic counts from 0 up to the number in the
    element's [data-count] attribute.  [parseInt] gives an integer, or
    [NaN] when the attribute is missing or does not begin with a number;
    the running value is a fraction. *)
Module Animation.
Local Open Scope Q_scope.

Inductive number := NaN | Num (q : Q).

(** [a + b] *)
Definition add (a b : number) : number :=
  match a, b with
  | Num x, Num y => Num (x + y)
  | _, _ => NaN
  end.

(** [a / d], for a divisor that is a number other than zero. *)
Definition divide (a : number) (d : Q) : number :=
  match a with
  | Num x => Num (x / d)
  | NaN => NaN
  end.

(** [a >= b]: false when either is [NaN]. *)
Definition geq (a b : number) : bool :=
  match a, b with
  | Num x, Num y => Qle_bool y x
  | _, _ => false
  end.

(** [Math.floor(a)], and the text it becomes when assigned to
    [textContent]. *)
Definition floor (a : number) : option Z :=
  match a with
  | Num x => Some (Qfloor x)
  | NaN => None
  end.

Definition to_text (v : option Z) : string :=
  match v with
  | Some z => Z_to_string z
  | None => "NaN"
  end.

(** The closure variable [current], whether [clearInterval(timer)] has
    been called, and the text of the element. *)
Record counter := {
  current : number;
  cleared : bool;
  textContent : string
}.

Section Counter.

(** [parseInt(element.getAttribute('data-count'))] *)
Variable count : option Z.

Definition target : number :=
  match count with
  | Some z => Num (inject_Z z)
  | None => NaN
  end.

Definition duration : Q := 2000.

(** [const step = target / (duration / 16);] *)
Definition step : number := divide target (duration / 16).

(** The callback of the interval; a cleared interval does not call it
    any more. *)
Definition tick (c : counter) : counter :=
  if cleared c then c
  else
    let current1 := add (current c) step in
    if geq current1 target
    then {| current := target; cleared := true;
            textContent := to_text (floor target) |}
    else {| current := current1; cleared := false;
            textContent := to_text (floor current1) |}.

(** The counter of an element that shows [text], after the callback has
    been due [n] times, that is [16 * n] ms after
    [animateCounter(element)]. *)
Definition animateCounter (text : string) (n : nat) : counter :=
  Nat.iter n tick {| current := Num 0; cleared := false;
                     textContent := text |}.

End Counter.

Lemma animateCounter_S count text n :
  animateCounter count text (S n)
  = tick count (animateCounter count text n).
Proof. reflexivity. Qed.

Lemma cleared_stays count text n m :
  cleared (animateCounter count text n) = true ->
  animateCounter count text (m + n) = animateCounter count text n.
Proof.
  intros Hc. induction m as [|m IH]; [reflexivity|].
  change (S m + n)%nat with (S (m + n)).
  rewrite animateCounter_S, IH. unfold tick. rewrite Hc. reflexivity.
Qed.

(** While counting up to a positive target, the running value is the
    [n]-th multiple of the step. *)
Lemma counting z text n :
  (0 < z)%Z -> (n < 125)%nat ->
  exists q, current (animateCounter (Some z) text n) = Num q /\
            q == (Z.of_nat n * z # 125) /\
            cleared (animateCounter (Some z) text n) = false /\
            (0 < n -> textContent (animateCounter (Some z) text n)
                      = Z_to_string (Z.of_nat n * z / 125))%nat.
Proof.
  intros Hz. induction n as [|n IH]; intros Hn.
  - exists 0. simpl. repeat split; try reflexivity. lia.
  - destruct IH as (q & Hcur & Hq & Hcl & _); [lia|].
    rewrite animateCounter_S. unfold tick. rewrite Hcl, Hcur.
    cbn [add step target divide geq floor to_text].
    assert (Hq1 : q + inject_Z z / (duration / 16)
                  == (Z.of_nat (S n) * z # 125)).
    { rewrite Hq. unfold duration, Qeq, Qplus, Qdiv, Qmult, Qinv, inject_Z.
      simpl. lia. }
    assert (Hlt : Qle_bool (inject_Z z) (q + inject_Z z / (duration / 16))
                  = false).
    { apply not_true_is_false. intros Hle. apply Qle_bool_iff in Hle.
      rewrite Hq1 in Hle. unfold Qle, inject_Z in Hle. simpl in Hle. nia. }
    rewrite Hlt. eexists. cbn [current cleared textContent].
    split; [reflexivity|]. split; [exact Hq1|]. split; [reflexivity|].
    intros _. rewrite Hq1. reflexivity.
Qed.

(** ** A counter without a target *)

(** For an element whose [data-count] is missing or is not a number the
    element shows [NaN] from the first step on and the interval is never
    cleared.  For a count of zero or less the first step shows the
    count and clears the interval. *)
Theorem counter_without_a_target_never_stops (text : string) (n : nat) :
  (cleared (animateCounter None text (S n)) = false /\
   textContent (animateCounter None text (S n)) = "NaN"%string) /\
  (forall z, (z <= 0)%Z ->
     cleared (animateCounter (Some z) text (S n)) = true /\
     textContent (animateCounter (Some z) text (S n)) = Z_to_string z).
Proof.
  split.
  - assert (H : forall m, animateCounter None text (S m)
                          = {| current := NaN; cleared := false;
                               textContent := "NaN" |}).
    { induction m as [|m IH]; [reflexivity|].
      rewrite animateCounter_S, IH. reflexivity. }
    rewrite H. split; reflexivity.
  - intros z Hz.
    assert (H1 : animateCounter (Some z) text 1
                 = {| current := Num (inject_Z z); cleared := true;
                      textContent := Z_to_string z |}).
    { unfold animateCounter. simpl. unfold tick.
      cbn [cleared current add step target divide geq floor to_text].
      assert (Hge : Qle_bool (inject_Z z) (0 + inject_Z z / (duration / 16))
                    = true).
      { apply Qle_bool_iff.
        unfold duration, Qle, Qplus, Qdiv, Qmult, Qinv, inject_Z.
        simpl. lia. }
      rewrite Hge, Qfloor_Z. reflexivity. }
    replace (S n) with (n + 1)%nat by lia.
    rewrite cleared_stays; rewrite H1; split; reflexivity.
Qed.

(** ** Counting up *)



End Animation.

(* ===================================================================== *)
(** * [AnimationManager.setupFadeInAnimations] *)
(* ===================================================================== *)

(** One group of elements: the [.fade-in] elements under one parent, in
    document order, as [parentElement.querySelectorAll('.fade-in')]
    lists them.  The state is, for each of them, whether its class list
    holds [visible]. *)
Module FadeIn.
Import EventLoop.

(** [() => { sibling.classList.add('visible'); }] for the sibling at
    [index]. *)
Inductive callback := Reveal (index : nat).

Abbreviation fworld := (world (list bool) callback).

(** [element.classList.add('visible')] *)
Definition add_visible (index : nat) (visible : list bool) : list bool :=
  <[index := true]> visible.

Definition exec (c : callback) (w : fworld) : fworld :=
  match c with
  | Reveal index => with_st (add_visible index (st w)) w
  end.

(** [siblings.forEach((sibling, index) => { if (sibling ===
    entry.target) return; setTimeout(..., index * 100); })] *)
Definition stagger (target : nat) (w : fworld) : fworld :=
  fold_left
    (fun w index =>
       if Nat.eqb index target then w
       else snd (setTimeout (Reveal index) (Z.of_nat index * 100) w))
    (seq 0 (length (st w))) w.

(** The body of [entries.forEach]: an entry is its target and
    [isIntersecting]. *)
Definition on_entry (entry : nat * bool) (w : fworld) : fworld :=
  if snd entry
  then stagger (fst entry) (with_st (add_visible (fst entry) (st w)) w)
  else w.

(** The callback of the observer. *)
Definition observer (entries : list (nat * bool)) (w : fworld) : fworld :=
  fold_left (fun w entry => on_entry entry w) entries w.

(** The group at time [t0], with the classes the page gives it. *)
Definition init (t0 : Z) (visible : list bool) : fworld :=
  {| now := t0; next_id := 1%nat; timers := []; st := visible |}.

(** The observer reports at the given times (timers due at the time of
    a report run before it); then the clock runs on to [horizon]. *)
Fixpoint run (fuel : nat) (reports : list (Z * list (nat * bool)))
    (horizon : Z) (w : fworld) : option fworld :=
  match reports with
  | [] => advance exec fuel horizon w
  | (t, entries) :: reports' =>
      match advance exec fuel t w with
      | Some w1 => run fuel reports' horizon (observer entries w1)
      | None => None
      end
  end.

Fixpoint ordered (t : Z) (reports : list (Z * list (nat * bool))) : Prop :=
  match reports with
  | [] => True
  | (t', _) :: reports' => t <= t' /\ ordered t' reports'
  end.

(** The elements reported as intersecting, each with the time of the
    report. *)
Definition seen (reports : list (Z * list (nat * bool))) : list (Z * nat) :=
  flat_map
    (fun r : Z * list (nat * bool) =>
       map (fun entry => (fst r, fst entry)) (List.filter snd (snd r)))
    reports.

(** Whether the element at [index] is visible at time [T]: it was so
    from the start, or it was seen itself, or some element of the group
    was seen at least [100 * index] ms ago. *)
Definition visible_at (T : Z) (H : list (Z * nat)) (index : nat) (b : bool)
    : bool :=
  b || existsb (fun s => Nat.eqb (snd s) index
                         || (fst s + Z.of_nat index * 100 <=? T)) H.

(** ** The invariant *)

Record Inv (v0 : list bool) (H : list (Z * nat)) (w : fworld) : Prop := {
  inv_length : length (st w) = length v0;
  inv_tids : NoDup (tid <$> timers w);
  inv_next_id : Forall (fun tm => (tid tm < next_id w)%nat) (timers w);
  inv_due : Forall (fun tm => now w <= due tm) (timers w);
  inv_timers :
    Forall (fun tm => exists j t i,
                cb tm = Reveal j /\ (j < length v0)%nat /\
                (t, i) ∈ H /\ due tm = t + Z.of_nat j * 100)
      (timers w);
  inv_pending : forall t i j,
    (t, i) ∈ H -> (j < length v0)%nat -> j <> i ->
    (exists tm, tm ∈ timers w /\ cb tm = Reveal j /\
                due tm = t + Z.of_nat j * 100)
    \/ st w !! j = Some true;
  inv_seen : forall t i,
    (t, i) ∈ H -> (i < length v0)%nat /\ t <= now w /\
                  st w !! i = Some true;
  inv_why : forall j,
    st w !! j = Some true ->
    v0 !! j = Some true \/
    exists t i, (t, i) ∈ H /\ (i = j \/ t + Z.of_nat j * 100 <= now w);
  inv_kept : forall j, v0 !! j = Some true -> st w !! j = Some true;
  inv_count : (length (timers w) <= length H * length v0)%nat
}.

Lemma add_visible_lookup index visible j :
  add_visible index visible !! j = Some true <->
  (j = index /\ (index < length visible)%nat) \/ visible !! j = Some true.
Proof.
  unfold add_visible. destruct (decide (index = j)) as [->|Hne].
  - destruct (decide (j < length visible)%nat) as [Hlt|Hge].
    + rewrite list_lookup_insert_eq by exact Hlt. tauto.
    + rewrite list_insert_ge by lia. split; [tauto|].
      intros [[_ ?]|?]; [lia|assumption].
  - rewrite list_lookup_insert_ne by exact Hne. split; [tauto|].
    intros [[? _]|?]; [congruence|assumption].
Qed.

Lemma remove_timer_elem (ts : list (timer callback)) i tm :
  tm ∈ remove_timer i ts <-> tm ∈ ts /\ tid tm <> i.
Proof.
  unfold remove_timer. rewrite !list_elem_of_In, filter_In.
  destruct (Nat.eqb_spec (tid tm) i); simpl; intuition congruence.
Qed.

Lemma remove_timer_sub (P : timer callback -> Prop) i ts :
  Forall P ts -> Forall P (remove_timer i ts).
Proof.
  rewrite !Forall_forall. intros H tm Hin.
  apply remove_timer_elem in Hin as [Hin _]. auto.
Qed.

Lemma remove_timer_NoDup i (ts : list (timer callback)) :
  NoDup (tid <$> ts) -> NoDup (tid <$> remove_timer i ts).
Proof.
  induction ts as [|tm ts IH]; simpl; [auto|].
  rewrite NoDup_cons. intros [Hni Hnd].
  destruct (negb (tid tm =? i)%nat); [|auto].
  simpl. apply NoDup_cons. split; [|auto].
  intros Hin. apply Hni.
  apply list_elem_of_fmap in Hin as (tm' & -> & Hin).
  apply list_elem_of_fmap. exists tm'. split; [reflexivity|].
  apply remove_timer_elem in Hin as [Hin _]. exact Hin.
Qed.

Lemma remove_timer_length (ts : list (timer callback)) tm :
  tm ∈ ts -> (length (remove_timer (tid tm) ts) < length ts)%nat.
Proof.
  induction 1 as [tm ts|tm tm' ts _ IH]; simpl.
  - rewrite Nat.eqb_refl. simpl.
    pose proof (filter_length_le
                  (fun tm0 => negb (tid tm0 =? tid tm)%nat) ts).
    unfold remove_timer. lia.
  - destruct (negb (tid tm' =? tid tm)%nat); simpl; lia.
Qed.

Lemma tid_inj (ts : list (timer callback)) tm tm' :
  NoDup (tid <$> ts) -> tm ∈ ts -> tm' ∈ ts -> tid tm = tid tm' ->
  tm = tm'.
Proof.
  induction ts as [|x ts IH]; simpl; [intros _ Hin; inversion Hin|].
  rewrite NoDup_cons, !elem_of_cons. intros [Hni Hnd] [->|H1] [->|H2] E.
  - reflexivity.
  - exfalso. apply Hni. rewrite E. apply list_elem_of_fmap. eauto.
  - exfalso. apply Hni. rewrite <- E. apply list_elem_of_fmap. eauto.
  - auto.
Qed.

(** ** One timer fires *)

Lemma fire_inv v0 H (w : fworld) tm :
  Inv v0 H w -> next_timer (timers w) = Some tm ->
  Inv v0 H (fire exec tm w) /\ now (fire exec tm w) = due tm /\
  (length (timers (fire exec tm w)) < length (timers w))%nat.
Proof.
  intros [Hlen Hnd Hid Hdue Hts Hpend Hseen Hwhy Hkept Hcount] Hnext.
  pose proof (Effects.next_timer_min _ _ Hnext) as Hmin.
  apply Effects.next_timer_elem in Hnext.
  assert (Hd : now w <= due tm).
  { rewrite Forall_forall in Hdue. apply Hdue, Hnext. }
  assert (Htm : exists j t i, cb tm = Reveal j /\ (j < length v0)%nat /\
                              (t, i) ∈ H /\ due tm = t + Z.of_nat j * 100).
  { rewrite Forall_forall in Hts. apply Hts, Hnext. }
  destruct Htm as (j & t & i & Hcb & Hj & HH & Hdj).
  assert (Hfire : fire exec tm w
                  = {| now := due tm; next_id := next_id w;
                       timers := remove_timer (tid tm) (timers w);
                       st := add_visible j (st w) |}).
  { unfold fire. rewrite Hcb. simpl. rewrite Z.max_r by lia. reflexivity. }
  rewrite Hfire. simpl.
  split; [|split; [reflexivity|apply remove_timer_length, Hnext]].
  constructor; simpl.
  - unfold add_visible. rewrite length_insert. exact Hlen.
  - apply remove_timer_NoDup, Hnd.
  - apply remove_timer_sub, Hid.
  - apply remove_timer_sub, Hmin.
  - apply remove_timer_sub, Hts.
  - intros t' i' j' HH' Hj' Hne.
    destruct (Hpend t' i' j' HH' Hj' Hne) as [(tm' & Hin & Hcb' & Hd')|Hv].
    + destruct (decide (tid tm' = tid tm)) as [E|E].
      * right. apply add_visible_lookup. left.
        pose proof (tid_inj _ _ _ Hnd Hin Hnext E) as ->.
        split; [congruence|lia].
      * left. exists tm'. split; [|split; assumption].
        apply remove_timer_elem. split; assumption.
    + right. apply add_visible_lookup. right. exact Hv.
  - intros t' i' HH'. destruct (Hseen t' i' HH') as (Hi & Ht & Hv).
    split; [exact Hi|]. split; [lia|].
    apply add_visible_lookup. right. exact Hv.
  - intros j' Hv. apply add_visible_lookup in Hv as [[-> _]|Hv].
    + right. exists t, i. split; [exact HH|]. right. lia.
    + destruct (Hwhy j' Hv) as [Hv0|(t' & i' & HH' & Hor)]; [left; exact Hv0|].
      right. exists t', i'. split; [exact HH'|].
      destruct Hor as [->|Hle]; [left; reflexivity|right; lia].
  - intros j' Hv0. apply add_visible_lookup. right. apply Hkept, Hv0.
  - pose proof (remove_timer_length _ _ Hnext). lia.
Qed.

(** ** The clock runs on *)

Lemma idle_inv v0 H (w : fworld) T :
  Inv v0 H w -> now w <= T -> Forall (fun tm => T < due tm) (timers w) ->
  Inv v0 H (with_now (Z.max (now w) T) w).
Proof.
  intros [Hlen Hnd Hid Hdue Hts Hpend Hseen Hwhy Hkept Hcount] HT Hq.
  rewrite Z.max_r by lia. constructor; simpl; try assumption.
  - eapply Forall_impl; [exact Hq|]. simpl. intros; lia.
  - intros t i HH. destruct (Hseen t i HH) as (Hi & Ht & Hv).
    split; [exact Hi|]. split; [lia|exact Hv].
  - intros j Hv.
    destruct (Hwhy j Hv) as [Hv0|(t & i & HH & Hor)]; [left; exact Hv0|].
    right. exists t, i. split; [exact HH|].
    destruct Hor as [->|Hle]; [left; reflexivity|right; lia].
Qed.

Lemma advance_inv v0 H fuel : forall (w : fworld) T,
  Inv v0 H w -> (length (timers w) <= fuel)%nat -> now w <= T ->
  exists w', advance exec fuel T w = Some w' /\ Inv v0 H w' /\
             now w' = T /\ Forall (fun tm => T < due tm) (timers w').
Proof.
  induction fuel as [|fuel IH]; intros w T HI Hfuel HT.
  - assert (E : timers w = []) by (destruct (timers w); [reflexivity|simpl in Hfuel; lia]).
    exists (with_now (Z.max (now w) T) w). split.
    + apply advance_idle. rewrite E. discriminate.
    + split; [apply idle_inv; [assumption..|rewrite E; constructor]|].
      simpl. split; [lia|rewrite E; constructor].
  - destruct (next_timer (timers w)) as [tm|] eqn:E.
    + destruct (Z.le_gt_cases (due tm) T) as [Hd|Hd].
      * destruct (fire_inv v0 H w tm HI E) as (HI1 & Hn1 & Hl1).
        destruct (IH (fire exec tm w) T HI1 ltac:(lia) ltac:(lia))
          as (w' & Hadv & HI' & Hn' & Hq').
        exists w'. rewrite (advance_fire exec fuel T w tm E Hd).
        split; [exact Hadv|]. split; [exact HI'|]. split; assumption.
      * assert (Hq : Forall (fun tm' => T < due tm') (timers w)).
        { eapply Forall_impl; [apply (Effects.next_timer_min _ _ E)|].
          simpl. intros; lia. }
        exists (with_now (Z.max (now w) T) w). split.
        -- apply advance_idle. intros tm' E'. congruence.
        -- split; [apply idle_inv; assumption|]. simpl.
           split; [lia|exact Hq].
    + apply Effects.next_timer_None in E.
      exists (with_now (Z.max (now w) T) w). split.
      * apply advance_idle. rewrite E. discriminate.
      * split; [apply idle_inv; [assumption..|rewrite E; constructor]|].
        simpl. split; [lia|rewrite E; constructor].
Qed.

(** ** The observer reports *)

Lemma stagger_fold target js : forall (w : fworld),
  let w' := fold_left
              (fun w index =>
                 if Nat.eqb index target then w
                 else snd (setTimeout (Reveal index)
                             (Z.of_nat index * 100) w)) js w in
  now w' = now w /\ st w' = st w /\ (next_id w <= next_id w')%nat /\
  exists new, timers w' = timers w ++ new /\
    Forall (fun tm => (next_id w <= tid tm < next_id w')%nat /\
              exists j, j ∈ js /\ cb tm = Reveal j /\
                        due tm = now w + Z.of_nat j * 100) new /\
    NoDup (tid <$> new) /\
    (forall j, j ∈ js -> j <> target ->
       exists tm, tm ∈ new /\ cb tm = Reveal j /\
                  due tm = now w + Z.of_nat j * 100) /\
    (length new <= length js)%nat.
Proof.
  induction js as [|j js IH]; intros w; cbn zeta.
  - simpl. repeat split; try lia. exists []. rewrite app_nil_r.
    repeat split; try constructor. intros j Hj. inversion Hj.
  - cbn [fold_left]. destruct (Nat.eqb_spec j target) as [->|Hne].
    + destruct (IH w) as (Hn & Hs & Hid & new & Ht & Hall & Hnd & Hex & Hl).
      split; [exact Hn|]. split; [exact Hs|]. split; [exact Hid|].
      exists new. split; [exact Ht|]. split; [|split; [exact Hnd|split]].
      * eapply Forall_impl; [exact Hall|]. simpl.
        intros tm (Hr & j & Hj & Hc). split; [exact Hr|].
        exists j. split; [right; exact Hj|exact Hc].
      * intros j Hj Hne. apply elem_of_cons in Hj as [->|Hj];
          [contradiction|]. apply Hex; assumption.
      * simpl. lia.
    + set (w1 := snd (setTimeout (Reveal j) (Z.of_nat j * 100) w)).
      destruct (IH w1) as (Hn & Hs & Hid & new & Ht & Hall & Hnd & Hex & Hl).
      set (w' := fold_left _ js w1) in *. clearbody w'.
      unfold w1 in *. clear w1. simpl in Hn, Hs, Hid, Ht, Hall, Hex.
      rewrite Z.max_r in Ht by lia.
      split; [exact Hn|]. split; [exact Hs|]. split; [lia|].
      exists ({| tid := next_id w; due := now w + Z.of_nat j * 100;
                 cb := Reveal j |} :: new).
      split; [rewrite Ht, <- app_assoc; reflexivity|].
      split; [|split; [|split]].
      * constructor.
        -- simpl. split; [lia|]. exists j. split; [left|].
           split; reflexivity.
        -- eapply Forall_impl; [exact Hall|]. simpl.
           intros tm (Hr & j' & Hj' & Hc). split; [lia|].
           exists j'. split; [right; exact Hj'|exact Hc].
      * rewrite fmap_cons. apply NoDup_cons. split; [|exact Hnd].
        simpl. intros Hin. apply list_elem_of_fmap in Hin as (tm & E & Hin).
        rewrite Forall_forall in Hall. destruct (Hall tm Hin) as [Hr _]. lia.
      * intros j' Hj' Hne'. apply elem_of_cons in Hj' as [->|Hj'].
        -- exists {| tid := next_id w; due := now w + Z.of_nat j * 100;
                     cb := Reveal j |}.
           split; [apply elem_of_cons; left; reflexivity|].
           split; reflexivity.
        -- destruct (Hex j' Hj' Hne') as (tm & Hin & Hc).
           exists tm. split; [right; exact Hin|exact Hc].
      * simpl. lia.
Qed.

Lemma on_entry_inv v0 H (w : fworld) (entry : nat * bool) :
  Inv v0 H w -> (fst entry < length v0)%nat ->
  Inv v0 (H ++ (if snd entry then [(now w, fst entry)] else []))
    (on_entry entry w) /\
  now (on_entry entry w) = now w.
Proof.
  intros HI Hi. destruct entry as [i [|]]; unfold on_entry; simpl in *;
    [|rewrite app_nil_r; split; [exact HI|reflexivity]].
  destruct HI as [Hlen Hnd Hid Hdue Hts Hpend Hseen Hwhy Hkept Hcount].
  unfold stagger.
  destruct (stagger_fold i
              (seq 0 (length (st (with_st (add_visible i (st w)) w))))
              (with_st (add_visible i (st w)) w))
    as (Hn & Hs & Hnid & new & Ht & Hall & Hndn & Hex & Hl).
  set (w' := fold_left _ _ _) in *. clearbody w'.
  simpl in Hn, Hs, Hnid, Ht, Hall, Hex, Hl.
  assert (Hk : length (add_visible i (st w)) = length v0).
  { unfold add_visible. rewrite length_insert. exact Hlen. }
  rewrite Hk in Hall, Hex, Hl. rewrite length_seq in Hl.
  split; [|exact Hn].
  constructor.
  - rewrite Hs. exact Hk.
  - rewrite Ht, fmap_app. apply NoDup_app. split; [exact Hnd|].
    split; [|exact Hndn].
    intros x Hx Hx'.
    apply list_elem_of_fmap in Hx as (tm & -> & Hin).
    apply list_elem_of_fmap in Hx' as (tm' & E & Hin').
    rewrite Forall_forall in Hid, Hall.
    specialize (Hid tm Hin). destruct (Hall tm' Hin') as [Hr _]. lia.
  - rewrite Ht. apply Forall_app. split.
    + eapply Forall_impl; [exact Hid|]. simpl. intros; lia.
    + eapply Forall_impl; [exact Hall|]. simpl. intros tm [Hr _]. lia.
  - rewrite Ht, Hn. apply Forall_app. split; [exact Hdue|].
    eapply Forall_impl; [exact Hall|]. simpl.
    intros tm (_ & j & _ & _ & ->). lia.
  - rewrite Ht. apply Forall_app. split.
    + eapply Forall_impl; [exact Hts|]. simpl.
      intros tm (j & t & i' & Hc & Hj & HH & Hd).
      exists j, t, i'. repeat split; try assumption.
      apply elem_of_app. left. exact HH.
    + eapply Forall_impl; [exact Hall|]. simpl.
      intros tm (_ & j & Hj & Hc & Hd).
      exists j, (now w), i. split; [exact Hc|].
      apply list_elem_of_In, in_seq in Hj.
      split; [lia|]. split; [|exact Hd].
      apply elem_of_app. right. left.
  - intros t i' j HH Hj Hne. rewrite Hs, Ht.
    apply elem_of_app in HH as [HH|HH].
    + destruct (Hpend t i' j HH Hj Hne) as [(tm & Hin & Hc)|Hv].
      * left. exists tm. split; [apply elem_of_app; left; exact Hin|exact Hc].
      * right. apply add_visible_lookup. right. exact Hv.
    + apply list_elem_of_singleton in HH. injection HH as -> ->.
      left. destruct (Hex j) as (tm & Hin & Hc); [|exact Hne|].
      * apply list_elem_of_In, in_seq. lia.
      * exists tm. split; [apply elem_of_app; right; exact Hin|exact Hc].
  - intros t i' HH. rewrite Hs, Hn.
    apply elem_of_app in HH as [HH|HH].
    + destruct (Hseen t i' HH) as (Hi' & Ht' & Hv).
      split; [exact Hi'|]. split; [exact Ht'|].
      apply add_visible_lookup. right. exact Hv.
    + apply list_elem_of_singleton in HH. injection HH as -> ->.
      split; [exact Hi|]. split; [lia|].
      apply add_visible_lookup. left. split; [reflexivity|lia].
  - intros j Hv. rewrite Hs in Hv. rewrite Hn.
    apply add_visible_lookup in Hv as [[-> _]|Hv].
    + right. exists (now w), i. split; [|left; reflexivity].
      apply elem_of_app. right. left.
    + destruct (Hwhy j Hv) as [Hv0|(t & i' & HH & Hor)]; [left; exact Hv0|].
      right. exists t, i'. split; [|exact Hor].
      apply elem_of_app. left. exact HH.
  - intros j Hv0. rewrite Hs. apply add_visible_lookup. right.
    apply Hkept, Hv0.
  - rewrite Ht, !length_app. simpl. lia.
Qed.

Lemma observer_inv v0 entries : forall H (w : fworld),
  Inv v0 H w -> Forall (fun entry => (fst entry < length v0)%nat) entries ->
  Inv v0 (H ++ map (fun entry => (now w, fst entry))
                   (List.filter snd entries))
    (observer entries w) /\
  now (observer entries w) = now w.
Proof.
  induction entries as [|entry entries IH]; intros H w HI Hall.
  - simpl. rewrite app_nil_r. split; [exact HI|reflexivity].
  - apply Forall_cons in Hall as [Hi Hall].
    destruct (on_entry_inv v0 H w entry HI Hi) as [HI1 Hn1].
    destruct (IH _ _ HI1 Hall) as [HI2 Hn2].
    unfold observer in *. cbn [fold_left]. split; [|congruence].
    rewrite Hn1, <- app_assoc in HI2.
    cbn [List.filter]. destruct (snd entry); exact HI2.
Qed.

(** ** All reports *)

Lemma run_inv v0 reports : forall H (w : fworld) T fuel,
  Inv v0 H w -> ordered (now w) reports ->
  List.last (map fst reports) (now w) <= T ->
  Forall (fun r => Forall (fun entry => (fst entry < length v0)%nat) (snd r))
    reports ->
  ((length H + length (seen reports)) * length v0 <= fuel)%nat ->
  exists w', run fuel reports T w = Some w' /\
             Inv v0 (H ++ seen reports) w' /\ now w' = T /\
             Forall (fun tm => T < due tm) (timers w').
Proof.
  induction reports as [|[t entries] reports IH];
    intros H w T fuel HI Ho HT Hall Hf.
  - simpl in *. rewrite app_nil_r.
    apply advance_inv; [exact HI| |exact HT].
    pose proof (inv_count _ _ _ HI). lia.
  - destruct Ho as [Ht Ho]. apply Forall_cons in Hall as [He Hall].
    cbn [map fst] in HT. rewrite Effects.last_cons_default in HT.
    cbn [seen flat_map] in Hf |- *. fold (seen reports) in Hf |- *.
    rewrite length_app, length_map in Hf. cbn [fst snd] in Hf |- *.
    simpl in He.
    destruct (advance_inv v0 H fuel w t HI) as (w1 & Hadv & HI1 & Hn1 & _);
      [pose proof (inv_count _ _ _ HI); nia|exact Ht|].
    destruct (observer_inv v0 entries H w1 HI1 He) as [HI2 Hn2].
    rewrite Hn1 in HI2, Hn2.
    destruct (IH _ (observer entries w1) T fuel HI2) as
      (w' & Hrun & HI' & Hn' & Hq').
    + rewrite Hn2. exact Ho.
    + rewrite Hn2. exact HT.
    + exact Hall.
    + rewrite length_app, length_map. lia.
    + exists w'. cbn [run]. rewrite Hadv. split; [exact Hrun|].
      rewrite <- app_assoc in HI'. split; [exact HI'|]. split; assumption.
Qed.

Lemma init_inv t0 v0 : Inv v0 [] (init t0 v0).
Proof.
  constructor; simpl.
  - reflexivity.
  - apply NoDup_nil_2.
  - apply Forall_nil_2.
  - apply Forall_nil_2.
  - apply Forall_nil_2.
  - intros t i j Hin. inversion Hin.
  - intros t i Hin. inversion Hin.
  - intros j Hv. left. exact Hv.
  - intros j Hv. exact Hv.
  - lia.
Qed.

(** At a quiet moment the classes are those that [visible_at] gives. *)
Lemma group_settled v0 H (w : fworld) :
  Inv v0 H w -> Forall (fun tm => now w < due tm) (timers w) ->
  st w = imap (visible_at (now w) H) v0.
Proof.
  intros [Hlen Hnd Hid Hdue Hts Hpend Hseen Hwhy Hkept Hcount] Hq.
  apply list_eq. intros j. rewrite list_lookup_imap.
  destruct (v0 !! j) as [b|] eqn:Ev.
  - simpl. pose proof (lookup_lt_Some _ _ _ Ev) as Hj.
    destruct (lookup_lt_is_Some_2 (st w) j ltac:(lia)) as [b' Eb].
    rewrite Eb. f_equal. unfold visible_at.
    apply eq_true_iff_eq. split.
    + intros ->. destruct (Hwhy j Eb) as [Hv0|(t & i & HH & Hor)].
      * rewrite Ev in Hv0. injection Hv0 as ->. reflexivity.
      * apply orb_true_iff. right. apply existsb_exists.
        exists (t, i). split; [apply list_elem_of_In, HH|]. simpl.
        apply orb_true_iff.
        destruct Hor as [->|Hle]; [left; apply Nat.eqb_refl|].
        right. apply Z.leb_le. exact Hle.
    + intros Hv. apply orb_true_iff in Hv as [->|Hex].
      * rewrite (Hkept j Ev) in Eb. injection Eb as <-. reflexivity.
      * apply existsb_exists in Hex as ([t i] & HH & Hor).
        apply list_elem_of_In in HH. simpl in Hor.
        apply orb_true_iff in Hor as [E|Hle].
        -- apply Nat.eqb_eq in E. subst i.
           destruct (Hseen t j HH) as (_ & _ & Hv).
           rewrite Hv in Eb. injection Eb as <-. reflexivity.
        -- apply Z.leb_le in Hle.
           destruct (decide (j = i)) as [->|Hne].
           ++ destruct (Hseen t i HH) as (_ & _ & Hv).
              rewrite Hv in Eb. injection Eb as <-. reflexivity.
           ++ destruct (Hpend t i j HH Hj Hne) as [(tm & Hin & _ & Hd)|Hv].
              ** rewrite Forall_forall in Hq. specialize (Hq tm Hin). lia.
              ** rewrite Hv in Eb. injection Eb as <-. reflexivity.
  - simpl. apply lookup_ge_None. apply lookup_ge_None in Ev. lia.
Qed.

(** ** The group is revealed in order *)

(** Whatever the observer reports about the elements of the group, and
    when: once any of them has been reported as intersecting at time
    [t], the element at index [j] of the group is visible from
    [t + 100 * j] on, whether or not it has come into view itself; the
    reported element is visible at once.  These reports make no element
    visible in any other way, and an element that is visible stays
    so. *)
Theorem group_is_revealed_in_order (visible : list bool)
    (reports : list (Z * list (nat * bool))) (t0 T : Z) (fuel : nat) :
  ordered t0 reports -> List.last (map fst reports) t0 <= T ->
  Forall (fun r => Forall (fun entry => (fst entry < length visible)%nat)
                     (snd r)) reports ->
  (length (seen reports) * length visible <= fuel)%nat ->
  exists w, run fuel reports T (init t0 visible) = Some w /\
            st w = imap (visible_at T (seen reports)) visible.
Proof.
  intros Ho HT Hall Hf.
  destruct (run_inv visible reports [] (init t0 visible) T fuel
              (init_inv t0 visible) Ho HT Hall Hf)
    as (w & Hrun & HI & Hn & Hq).
  exists w. split; [exact Hrun|].
  rewrite <- Hn in Hq |- *. apply (group_settled visible _ w HI Hq).
Qed.

(** A group of four, none visible; the third element comes into view
    at time 0.  At time 150 it and the first two are visible, the
    fourth not yet; at time 300 all are. *)
Lemma group_is_revealed_in_order_witness :
  (exists w, run 4 [(0, [(2%nat, true)])] 150
               (init 0 [false; false; false; false]) = Some w /\
             st w = [true; true; true; false]) /\
  (exists w, run 4 [(0, [(2%nat, true)])] 300
               (init 0 [false; false; false; false]) = Some w /\
             st w = [true; true; true; true]).
Proof.
  split.
  - apply (group_is_revealed_in_order [false; false; false; false]
             [(0, [(2%nat, true)])] 0 150 4); simpl; try lia.
    repeat constructor.
  - apply (group_is_revealed_in_order [false; false; false; false]
             [(0, [(2%nat, true)])] 0 300 4); simpl; try lia.
    repeat constructor.
Defined.

End FadeIn.

(* ===================================================================== *)
(** * Starting the application *)
(* ===================================================================== *)

(** The last statements of the script create the application, at once
    or when the document has been parsed, and publish it as
    [window.KurdishCityApp]:
    [let app; if (document.readyState === 'loading') {
    document.addEventListener('DOMContentLoaded', () => { app = new
    KurdishCityApp(); }); } else { app = new KurdishCityApp(); }
    window.KurdishCityApp = app;] *)
Module Bootstrap.

Inductive readyState := loading | interactive | complete.

(** The variable [app], the property [window.KurdishCityApp], the
    listeners these statements have registered for [DOMContentLoaded],
    and how many applications have been constructed.  An application is
    known by the number of its construction; [None] is [undefined]. *)
Record globals := {
  app : option nat;
  window_KurdishCityApp : option nat;
  listeners : nat;
  constructed : nat
}.

Definition start : globals :=
  {| app := None; window_KurdishCityApp := None; listeners := 0;
     constructed := 0 |}.

(** [app = new KurdishCityApp();] *)
Definition construct (g : globals) : globals :=
  {| app := Some (constructed g);
     window_KurdishCityApp := window_KurdishCityApp g;
     listeners := listeners g;
     constructed := S (constructed g) |}.

(** The statements, run while the document is in the given state. *)
Definition script (state : readyState) (g : globals) : globals :=
  let g1 :=
    match state with
    | loading =>
        {| app := app g; window_KurdishCityApp := window_KurdishCityApp g;
           listeners := S (listeners g); constructed := constructed g |}
    | _ => construct g
    end in
  {| app := app g1; window_KurdishCityApp := app g1;
     listeners := listeners g1; constructed := constructed g1 |}.

(** The browser dispatches [DOMContentLoaded]: each registered listener
    runs. *)
Definition DOMContentLoaded (g : globals) : globals :=
  Nat.iter (listeners g) construct g.

(** The page from the script on: the script runs in the given state,
    and the event is dispatched if the document was still loading
    then. *)
Definition loaded (state : readyState) : globals :=
  match state with
  | loading => DOMContentLoaded (script loading start)
  | _ => script state start
  end.

(** Exactly one application is constructed either way, and [app] holds
    it.  [window.KurdishCityApp] holds it only when the script ran
    after the document had been parsed: when the script runs while the
    document is loading, the property is assigned before the
    application exists and stays [undefined]. *)
Theorem window_handle_is_set_only_after_parsing (state : readyState) :
  app (loaded state) = Some 0%nat /\
  constructed (loaded state) = 1%nat /\
  window_KurdishCityApp (loaded state)
  = match state with loading => None | _ => Some 0%nat end.
Proof. destruct state; repeat split; reflexivity. Qed.

End Bootstrap.
